(** * File-set materialization and fingerprinting (utils.ts)

    A shallow embedding of the helpers of [utils.ts]: [computeMetaHash],
    [readFiles], [checkFolderExists], [writeFiles], [normalizeBuffer] and
    [stripBasePath], together with the parts of the Node.js runtime they call
    (SHA-256, the POSIX flavour of the [path] module, a directory-tree model
    of [fs]). *)

From Stdlib Require Import ZArith List Strings.String Strings.Ascii Strings.Byte Bool Lia.
From Stdlib Require Import Permutation Sorted DecimalString.
From stdpp Require Import base gmap.
Import ListNotations.

Set Warnings "-register-all".

Local Open Scope string_scope.
Local Open Scope list_scope.
Local Open Scope Z_scope.

(** ** Bytes and buffers

    A [Buffer] is a finite sequence of octets. JavaScript strings are kept as
    their UTF-8 octets, one [ascii] per octet, so that
    [hash.update(s, 'utf8')] feeds [list_byte_of_string s]. *)

Definition Buffer : Type := list byte.

Definition byteToZ (b : byte) : Z := Z.of_N (Byte.to_N b).

(** ToUint8 of an integer-valued number: the value modulo 256. *)
Definition byteOfZ (z : Z) : byte :=
  byte_of_ascii (ascii_of_N (Z.to_N (z mod 256))).

Definition utf8 (s : string) : Buffer := list_byte_of_string s.

(** ** SHA-256 (FIPS 180-4), the digest behind [createHash('sha256')] *)

Module SHA256.

Definition mask32 : Z := 0xffffffff.
Definition add32 (a b : Z) : Z := Z.land (a + b) mask32.
Definition rotr (n x : Z) : Z :=
  Z.land (Z.lor (Z.shiftr x n) (Z.shiftl x (32 - n))) mask32.
Definition shr (n x : Z) : Z := Z.shiftr x n.
Definition not32 (x : Z) : Z := Z.lxor x mask32.

Definition Ch (x y z : Z) : Z := Z.lxor (Z.land x y) (Z.land (not32 x) z).
Definition Maj (x y z : Z) : Z :=
  Z.lxor (Z.lxor (Z.land x y) (Z.land x z)) (Z.land y z).
Definition Sigma0 (x : Z) : Z := Z.lxor (Z.lxor (rotr 2 x) (rotr 13 x)) (rotr 22 x).
Definition Sigma1 (x : Z) : Z := Z.lxor (Z.lxor (rotr 6 x) (rotr 11 x)) (rotr 25 x).
Definition sigma0 (x : Z) : Z := Z.lxor (Z.lxor (rotr 7 x) (rotr 18 x)) (shr 3 x).
Definition sigma1 (x : Z) : Z := Z.lxor (Z.lxor (rotr 17 x) (rotr 19 x)) (shr 10 x).

(** The constants of the standard are the first 32 bits of the fractional
    parts of the cube roots (for [K]) and of the square roots (for [H0]) of
    the first primes; they are computed here from that description. *)
Fixpoint hasDivisor (fuel : nat) (d n : Z) : bool :=
  match fuel with
  | O => false
  | S fuel' =>
      if n <? d * d then false
      else if n mod d =? 0 then true
      else hasDivisor fuel' (d + 1) n
  end.

Definition isPrime (n : Z) : bool := (2 <=? n) && negb (hasDivisor (Z.to_nat n) 2 n).

Fixpoint primesFrom (fuel count : nat) (n : Z) : list Z :=
  match fuel, count with
  | S fuel', S count' =>
      if isPrime n then n :: primesFrom fuel' count' (n + 1)
      else primesFrom fuel' count (n + 1)
  | _, _ => []
  end.

(** The largest [x] below [acc + 2^bits] with [x^3 <= n], given [acc^3 <= n]. *)
Fixpoint cubeRoot (bits : nat) (n acc : Z) : Z :=
  match bits with
  | O => acc
  | S bits' =>
      let candidate := acc + 2 ^ Z.of_nat bits' in
      if candidate * candidate * candidate <=? n
      then cubeRoot bits' n candidate
      else cubeRoot bits' n acc
  end.

Definition K : list Z :=
  Eval vm_compute in
    List.map (fun p => Z.land (cubeRoot 40 (p * 2 ^ 96) 0) mask32) (primesFrom 400 64 2).

Definition H0 : list Z :=
  Eval vm_compute in
    List.map (fun p => Z.land (Z.sqrt (p * 2 ^ 64)) mask32) (primesFrom 400 8 2).

(** Padding: a single 1 bit, zeros up to 56 mod 64, then the bit length as a
    64-bit big-endian integer. *)
Definition bigEndian (width : nat) (x : Z) : list Z :=
  List.map (fun i => Z.land (Z.shiftr x (8 * Z.of_nat i)) 0xff) (List.rev (List.seq 0 width)).

Definition pad (msg : list Z) : list Z :=
  let len := Z.of_nat (List.length msg) in
  let zeros := Z.to_nat ((55 - len) mod 64) in
  msg ++ [0x80] ++ List.repeat 0 zeros ++ bigEndian 8 (8 * len).

Fixpoint wordsOf (fuel : nat) (bytes : list Z) : list Z :=
  match fuel, bytes with
  | S fuel', b0 :: b1 :: b2 :: b3 :: rest =>
      (b0 * 0x1000000 + b1 * 0x10000 + b2 * 0x100 + b3) :: wordsOf fuel' rest
  | _, _ => []
  end.

Fixpoint blocksOf (fuel : nat) (words : list Z) : list (list Z) :=
  match fuel, words with
  | S fuel', _ :: _ => List.firstn 16 words :: blocksOf fuel' (List.skipn 16 words)
  | _, _ => []
  end.

(** Message schedule: W_t for t in 16..63 from the sixteen words of a block. *)
Fixpoint schedule (n : nat) (w : list Z) : list Z :=
  match n with
  | O => w
  | S n' =>
      let t := List.length w in
      let at_ (k : nat) := List.nth (t - k) w 0 in
      schedule n' (w ++ [add32 (add32 (sigma1 (at_ 2%nat)) (at_ 7%nat))
                               (add32 (sigma0 (at_ 15%nat)) (at_ 16%nat))])
  end.

Record Regs := mkRegs { ra : Z; rb : Z; rc : Z; rd : Z; re : Z; rf : Z; rg : Z; rh : Z }.

Definition round (r : Regs) (kw : Z * Z) : Regs :=
  let '(k, w) := kw in
  let t1 := add32 (add32 (add32 (rh r) (Sigma1 (re r))) (add32 (Ch (re r) (rf r) (rg r)) k)) w in
  let t2 := add32 (Sigma0 (ra r)) (Maj (ra r) (rb r) (rc r)) in
  mkRegs (add32 t1 t2) (ra r) (rb r) (rc r) (add32 (rd r) t1) (re r) (rf r) (rg r).

Definition regsOf (h : list Z) : Regs :=
  let n k := List.nth k h 0 in
  mkRegs (n 0%nat) (n 1%nat) (n 2%nat) (n 3%nat) (n 4%nat) (n 5%nat) (n 6%nat) (n 7%nat).

Definition listOf (r : Regs) : list Z :=
  [ra r; rb r; rc r; rd r; re r; rf r; rg r; rh r].

Fixpoint zipAdd (xs ys : list Z) : list Z :=
  match xs, ys with
  | x :: xs', y :: ys' => add32 x y :: zipAdd xs' ys'
  | _, _ => []
  end.

Definition compress (h : list Z) (block : list Z) : list Z :=
  let w := schedule 48 block in
  zipAdd h (listOf (List.fold_left round (List.combine K w) (regsOf h))).

Definition digest (msg : Buffer) : Buffer :=
  let padded := pad (List.map byteToZ msg) in
  let n := List.length padded in
  let final := List.fold_left compress (blocksOf n (wordsOf n padded)) H0 in
  List.map byteOfZ (List.concat (List.map (bigEndian 4) final)).

End SHA256.

(** ** Exceptions

    The helpers throw plain [Error] objects or let the errors of [fs] escape.
    The three kinds the callers can tell apart are kept as constructors. *)

Inductive Errno := ENOENT | ENOTDIR | EEXIST | EISDIR.

Inductive Error :=
| FsError (code : Errno) (syscall : string) (path : string)
    (* an error raised by [fs]; it carries the path the call was given *)
| UnsupportedData
    (* [new Error('Unsupported data format for buffer')] *)
| NotUnderBase (fullPath basePath : string).
    (* [new Error(`Path "..." is not under base path "..."`)] *)

Inductive result (A : Type) :=
| Ok (a : A)
| Throw (e : Error).
Arguments Ok {A} a.
Arguments Throw {A} e.

Definition rbind {A B} (r : result A) (k : A -> result B) : result B :=
  match r with
  | Ok a => k a
  | Throw e => Throw e
  end.

Definition rmap {A B} (f : A -> B) (r : result A) : result B :=
  rbind r (fun a => Ok (f a)).

Definition isThrow {A} (r : result A) : bool :=
  match r with Ok _ => false | Throw _ => true end.

(** ** JavaScript values reaching [normalizeBuffer]

    Numbers are the integer-valued ones. An object is the list of its own
    enumerable properties in the order [Object.values] visits them. *)

Inductive Value :=
| VUndefined
| VNull
| VBool (b : bool)
| VNumber (z : Z)
| VString (s : string)
| VFunction
| VBuffer (b : Buffer)
| VArray (elems : list Value)
| VObject (props : list (string * Value)).

(** ** The host

    What the helpers take from the process they run in: the collation behind
    [String.prototype.localeCompare], the numeric coercion [ToNumber] (then
    truncation) that a typed-array store applies to a value that is not a
    number, and the working directory [process.cwd()], an absolute path. *)

Class Host := {
  localeCompare : string -> string -> Z;
  toInteger : Value -> Z;
  cwd : string
}.

(** ** [path] (POSIX)

    [path.join], [path.relative] and [posix.normalize], on the segments of a
    path: Node scans the characters, and the segments between slashes are
    what its scan acts on. *)

Module Path.

Definition isSlash (c : ascii) : bool := Ascii.eqb c "/".

(** [s.split('/')]. *)
Fixpoint split (s : string) : list string :=
  match s with
  | EmptyString => [EmptyString]
  | String c s' =>
      if isSlash c then EmptyString :: split s'
      else match split s' with
           | seg :: rest => String c seg :: rest
           | [] => [String c EmptyString]
           end
  end.

Definition unsplit (segs : list string) : string := String.concat "/" segs.

Definition startsWithSlash (s : string) : bool :=
  match s with
  | String c _ => isSlash c
  | EmptyString => false
  end.

Fixpoint endsWithSlash (s : string) : bool :=
  match s with
  | EmptyString => false
  | String c EmptyString => isSlash c
  | String _ s' => endsWithSlash s'
  end.

(** [normalizeString]: empty and "." segments vanish, ".." removes the
    segment before it unless there is none or it is itself "..", in which
    case it is kept when [allowAboveRoot] and dropped otherwise. [stack]
    holds the segments kept so far, last one first. *)
Fixpoint normalizeSegments (allowAboveRoot : bool) (stack segs : list string) : list string :=
  match segs with
  | [] => List.rev stack
  | seg :: rest =>
      if String.eqb seg "" || String.eqb seg "." then
        normalizeSegments allowAboveRoot stack rest
      else if String.eqb seg ".." then
        match stack with
        | top :: below =>
            if String.eqb top ".." then
              normalizeSegments allowAboveRoot
                (if allowAboveRoot then seg :: stack else stack) rest
            else normalizeSegments allowAboveRoot below rest
        | [] =>
            normalizeSegments allowAboveRoot
              (if allowAboveRoot then [seg] else []) rest
        end
      else normalizeSegments allowAboveRoot (seg :: stack) rest
  end.

Definition normalizeString (path : string) (allowAboveRoot : bool) : string :=
  unsplit (normalizeSegments allowAboveRoot [] (split path)).

Definition normalize (path : string) : string :=
  if String.eqb path "" then "."
  else
    let isAbsolute := startsWithSlash path in
    let trailingSeparator := endsWithSlash path in
    let p := normalizeString path (negb isAbsolute) in
    if String.eqb p "" then
      if isAbsolute then "/" else if trailingSeparator then "./" else "."
    else
      ((if isAbsolute then "/" else "") ++ p ++ (if trailingSeparator then "/" else ""))%string.

(** [join(a, b)]: the non-empty arguments, joined by a slash, normalized. *)
Definition join (a b : string) : string :=
  match List.filter (fun s => negb (String.eqb s "")) [a; b] with
  | [] => "."
  | parts => normalize (unsplit parts)
  end.

(** The segments of [resolve(p)]: [p] itself when it is absolute, otherwise
    [p] under the working directory. *)
Definition resolveSegments `{Host} (p : string) : list string :=
  let full :=
    if startsWithSlash p then p
    else if String.eqb p "" then cwd
    else (cwd ++ "/" ++ p)%string in
  normalizeSegments false [] (split full).

Fixpoint dropCommon (from to : list string) : list string * list string :=
  match from, to with
  | f :: from', t :: to' =>
      if String.eqb f t then dropCommon from' to' else (from, to)
  | _, _ => (from, to)
  end.

(** [relative(from, to)]: one ".." for each segment of [from] below the
    common ancestor, then what is left of [to]. *)
Definition relative `{Host} (from to : string) : string :=
  if String.eqb from to then ""
  else
    let '(up, down) := dropCommon (resolveSegments from) (resolveSegments to) in
    unsplit (List.map (fun _ => "..") up ++ down).

End Path.

(** ** [stripBasePath] *)

Fixpoint dropSlashes (s : string) : string :=
  match s with
  | String c s' => if Path.isSlash c then dropSlashes s' else s
  | EmptyString => s
  end.

(** [s.replace(/^\.\/+/g, '')]: a leading dot followed by at least one slash
    is removed together with those slashes. *)
Definition stripDotSlash (s : string) : string :=
  match s with
  | String c (String d rest) =>
      if Ascii.eqb c "." && Path.isSlash d then dropSlashes rest else s
  | _ => s
  end.

Definition stripBasePath `{Host} (fullPath basePath : string) : result string :=
  let relativePath := Path.relative basePath fullPath in
  if String.prefix ".." relativePath then Throw (NotUnderBase fullPath basePath)
  else Ok (stripDotSlash (Path.normalize relativePath)).

(** ** [normalizeBuffer] *)

(** [Buffer.from(array)]: every element is stored as an octet. *)
Definition elementByte `{Host} (v : Value) : byte :=
  match v with
  | VNumber z => byteOfZ z
  | _ => byteOfZ (toInteger v)
  end.

Definition Buffer_from `{Host} (elems : list Value) : Buffer :=
  List.map elementByte elems.

Definition Object_values (props : list (string * Value)) : list Value :=
  List.map snd props.

Definition normalizeBuffer `{Host} (data : Value) : result Buffer :=
  match data with
  | VBuffer b => Ok b
  | VArray elems => Ok (Buffer_from elems)
  | VObject props => Ok (Buffer_from (Object_values props))
  | _ => Throw UnsupportedData
  end.

(** ** The [File] interface (types.ts) *)

Record WriteFileOptions := {
  mode : option Z;
  flag : option string
}.

Record File := {
  name : string;
  parentPath : string;
  path : string;
  data : Value;
  options : option WriteFileOptions
}.

(** ** [computeMetaHash] *)

Section Sorting.
Context {A : Type} (compareFn : A -> A -> Z).

(** [Array.prototype.sort] is stable: an element goes in front of the first
    one it does not compare greater than, and the elements are placed from
    the last to the first, so that equal ones keep their order. *)
Fixpoint insertSorted (x : A) (sorted : list A) : list A :=
  match sorted with
  | [] => [x]
  | y :: rest =>
      if compareFn x y <=? 0 then x :: sorted else y :: insertSorted x rest
  end.

Definition Array_sort (l : list A) : list A :=
  List.fold_right insertSorted [] l.
End Sorting.

Definition newline : string := String "010" EmptyString.

Section MetaHash.
Context `{Host}.

(** The key of the comparator: [`${a.parentPath}/${a.name}`]. *)
Definition sortKey (f : File) : string := (parentPath f ++ "/" ++ name f)%string.

Definition compareFiles (a b : File) : Z := localeCompare (sortKey a) (sortKey b).

(** The three [hash.update] calls made for one file. *)
Definition hashUpdates (f : File) : result Buffer :=
  rbind (normalizeBuffer (data f)) (fun content =>
    Ok (utf8 (parentPath f ++ ":" ++ name f ++ ":")%string ++ content ++ utf8 newline)).

(** [forEach] over the sorted files: what the hash object has been fed. *)
Fixpoint hashInput (files : list File) : result Buffer :=
  match files with
  | [] => Ok []
  | f :: rest =>
      rbind (hashUpdates f) (fun fed =>
        rbind (hashInput rest) (fun more => Ok (fed ++ more)))
  end.

Definition metaHashInput (files : list File) : result Buffer :=
  hashInput (Array_sort compareFiles files).

Definition computeMetaHash (files : list File) : result Buffer :=
  rmap SHA256.digest (metaHashInput files).




End MetaHash.

(** ** [fs]: a directory tree

    A regular file holds its content, a directory its entries in the order a
    directory handle yields them, and [Special] stands for whatever is neither
    (socket, FIFO, device). Symbolic links, permissions and the flags and
    mode of [WriteFileOptions] are not part of the model: a write creates or
    truncates. Paths are resolved lexically against the working directory. *)

Inductive Inode :=
| RegularFile (content : Buffer)
| Directory (entries : list (string * Inode))
| Special.

Inductive EntryKind := KFile | KDirectory | KOther.

Record Dirent := { dirent_name : string; dirent_kind : EntryKind }.

Definition kindOf (n : Inode) : EntryKind :=
  match n with
  | RegularFile _ => KFile
  | Directory _ => KDirectory
  | Special => KOther
  end.

Definition isDirectory (k : EntryKind) : bool :=
  match k with KDirectory => true | _ => false end.

Module Tree.

Fixpoint entryOf (nm : string) (entries : list (string * Inode)) : option Inode :=
  match entries with
  | [] => None
  | (k, n) :: rest => if String.eqb k nm then Some n else entryOf nm rest
  end.

(** Replace the entry called [nm], or append it when there is none. *)
Fixpoint setEntry (nm : string) (node : Inode) (entries : list (string * Inode))
  : list (string * Inode) :=
  match entries with
  | [] => [(nm, node)]
  | (k, n) :: rest =>
      if String.eqb k nm then (k, node) :: rest else (k, n) :: setEntry nm node rest
  end.

Fixpoint walk (segs : list string) (n : Inode) : Errno + Inode :=
  match segs with
  | [] => inr n
  | s :: rest =>
      match n with
      | Directory es =>
          match entryOf s es with
          | Some child => walk rest child
          | None => inl ENOENT
          end
      | _ => inl ENOTDIR
      end
  end.

(** [mkdir] with [recursive: true]. *)
Fixpoint mkdirp (segs : list string) (n : Inode) : Errno + Inode :=
  match segs with
  | [] => match n with Directory _ => inr n | _ => inl EEXIST end
  | s :: rest =>
      match n with
      | Directory es =>
          match mkdirp rest (default (Directory []) (entryOf s es)) with
          | inr child => inr (Directory (setEntry s child es))
          | inl e => inl e
          end
      | _ => inl ENOTDIR
      end
  end.

(** [open(O_WRONLY|O_CREAT|O_TRUNC)] then [write]. What is written to a
    [Special] node leaves the tree as it is. *)
Fixpoint store (segs : list string) (content : Buffer) (n : Inode) : Errno + Inode :=
  match segs with
  | [] =>
      match n with
      | Directory _ => inl EISDIR
      | RegularFile _ => inr (RegularFile content)
      | Special => inr Special
      end
  | s :: rest =>
      match n with
      | Directory es =>
          match entryOf s es, rest with
          | None, [] => inr (Directory (setEntry s (RegularFile content) es))
          | None, _ :: _ => inl ENOENT
          | Some child, _ =>
              match store rest content child with
              | inr child' => inr (Directory (setEntry s child' es))
              | inl e => inl e
              end
          end
      | _ => inl ENOTDIR
      end
  end.

End Tree.

(** Computations on the disk that may throw. *)
Definition IO (A : Type) : Type := Inode -> Inode * result A.

Definition ret {A} (a : A) : IO A := fun disk => (disk, Ok a).
Definition throw {A} (e : Error) : IO A := fun disk => (disk, Throw e).
Definition bind {A B} (m : IO A) (k : A -> IO B) : IO B :=
  fun disk =>
    match m disk with
    | (disk', Ok a) => k a disk'
    | (disk', Throw e) => (disk', Throw e)
    end.
Definition tryCatch {A} (m : IO A) (handler : Error -> IO A) : IO A :=
  fun disk =>
    match m disk with
    | (disk', Ok a) => (disk', Ok a)
    | (disk', Throw e) => handler e disk'
    end.
Definition liftResult {A} (r : result A) : IO A := fun disk => (disk, r).

Notation "'let*' x := m 'in' k" := (bind m (fun x => k))
  (at level 10, x name, m at level 100, k at level 200).
Notation "m ;; k" := (bind m (fun _ => k))
  (at level 100, k at level 200, right associativity).

Section Fs.
Context `{Host}.

(** How a system call reads a path: the empty path names nothing, and a
    path that ends with a slash names a directory or nothing. *)
Definition locate (p : string) (disk : Inode) : Errno + Inode :=
  if String.eqb p "" then inl ENOENT
  else
    match Tree.walk (Path.resolveSegments p) disk with
    | inr n =>
        if Path.endsWithSlash p && negb (isDirectory (kindOf n)) then inl ENOTDIR
        else inr n
    | inl code => inl code
    end.

Definition makeDirectories (p : string) (disk : Inode) : Errno + Inode :=
  if String.eqb p "" then inl ENOENT
  else Tree.mkdirp (Path.resolveSegments p) disk.

(** Opening for writing a path that ends with a slash fails: with ENOTDIR
    when a file is there, with EISDIR when a directory is there or when the
    file would have to be created. *)
Definition writeContent (p : string) (content : Buffer) (disk : Inode) : Errno + Inode :=
  if String.eqb p "" then inl ENOENT
  else
    match Tree.store (Path.resolveSegments p) content disk with
    | inr disk' =>
        if Path.endsWithSlash p then
          match Tree.walk (Path.resolveSegments p) disk with
          | inr _ => inl ENOTDIR
          | inl _ => inl EISDIR
          end
        else inr disk'
    | inl code => inl code
    end.

Definition fs_stat (p : string) : IO EntryKind := fun disk =>
  match locate p disk with
  | inr n => (disk, Ok (kindOf n))
  | inl code => (disk, Throw (FsError code "stat" p))
  end.

Definition fs_mkdir_recursive (p : string) : IO unit := fun disk =>
  match makeDirectories p disk with
  | inr disk' => (disk', Ok tt)
  | inl code => (disk, Throw (FsError code "mkdir" p))
  end.

Definition fs_writeFile (p : string) (content : Buffer) (opts : option WriteFileOptions)
  : IO unit := fun disk =>
  match writeContent p content disk with
  | inr disk' => (disk', Ok tt)
  | inl code => (disk, Throw (FsError code "open" p))
  end.

Definition fs_opendir (p : string) : IO (list Dirent) := fun disk =>
  match locate p disk with
  | inr (Directory es) =>
      (disk, Ok (List.map (fun e => {| dirent_name := fst e; dirent_kind := kindOf (snd e) |}) es))
  | inr _ => (disk, Throw (FsError ENOTDIR "opendir" p))
  | inl code => (disk, Throw (FsError code "opendir" p))
  end.

(** Reading a [Special] node yields no bytes. *)
Definition fs_readFile (p : string) : IO Buffer := fun disk =>
  match locate p disk with
  | inr (RegularFile content) => (disk, Ok content)
  | inr (Directory _) => (disk, Throw (FsError EISDIR "read" p))
  | inr Special => (disk, Ok [])
  | inl code => (disk, Throw (FsError code "open" p))
  end.

(** ** [checkFolderExists] *)

Definition checkFolderExists (p : string) : IO bool :=
  tryCatch
    (let* stats := fs_stat p in ret (isDirectory stats))
    (fun err =>
       match err with
       | FsError ENOENT _ _ => ret false
       | _ => throw err
       end).

(** ** [writeFiles] *)

Definition writeOne (workDir : string) (file : File) : IO unit :=
  let targetDir := Path.join workDir (parentPath file) in
  let* present := checkFolderExists targetDir in
  (if negb present then fs_mkdir_recursive targetDir else ret tt) ;;
  let* content := liftResult (normalizeBuffer (data file)) in
  fs_writeFile (Path.join targetDir (name file)) content (options file).

(** The body of the loop after [checkFolderExists] has answered. *)
Definition afterCheck (targetDir : string) (file : File) (present : bool) : IO unit :=
  (if negb present then fs_mkdir_recursive targetDir else ret tt) ;;
  let* content := liftResult (normalizeBuffer (data file)) in
  fs_writeFile (Path.join targetDir (name file)) content (options file).

Fixpoint forOf {A} (body : A -> IO unit) (items : list A) : IO unit :=
  match items with
  | [] => ret tt
  | item :: rest => body item ;; forOf body rest
  end.

Definition ensureWorkDir (workDir : string) : IO unit :=
  let* present := checkFolderExists workDir in
  if negb present then fs_mkdir_recursive workDir else ret tt.

Definition writeFiles (workDir : string) (files : list File) : IO Buffer :=
  ensureWorkDir workDir ;;
  forOf (writeOne workDir) files ;;
  liftResult (computeMetaHash files).

(** ** [readFiles]

    The recursion follows the directory tree; [fuel] bounds its depth and
    [None] means the bound was reached. *)

Definition fileRecord (entryName dir fullPath baseDir : string) : IO File :=
  let* relativeParent := liftResult (stripBasePath dir baseDir) in
  let parentPath := ("./" ++ relativeParent)%string in
  let* relativePath := liftResult (stripBasePath fullPath baseDir) in
  let* fileData := fs_readFile fullPath in
  ret {| name := entryName;
         parentPath := parentPath;
         path := ("./" ++ relativePath)%string;
         data := VBuffer fileData;
         options := None |}.

(** What one directory entry adds to [files]: [recur] is the recursive
    call on a sub-directory. *)
Definition visitEntry (recur : string -> option (result (list File)))
    (dir baseDir : string) (disk : Inode) (entry : Dirent)
  : option (result (list File)) :=
  let fullPath := Path.join dir (dirent_name entry) in
  match dirent_kind entry with
  | KDirectory => recur fullPath
  | KFile =>
      Some (rmap (fun file => [file])
              (snd (fileRecord (dirent_name entry) dir fullPath baseDir disk)))
  | KOther => Some (Ok [])
  end.

(** The [for await] loop; the first exception ends it. *)
Fixpoint forAwait (visit : Dirent -> option (result (list File)))
    (entries : list Dirent) (files : list File) : option (result (list File)) :=
  match entries with
  | [] => Some (Ok files)
  | entry :: rest =>
      match visit entry with
      | None => None
      | Some (Throw e) => Some (Throw e)
      | Some (Ok pushed) => forAwait visit rest (files ++ pushed)
      end
  end.

Fixpoint readFilesFrom (fuel : nat) (dir baseDir : string) (disk : Inode)
  : option (result (list File)) :=
  match fuel with
  | O => None
  | S fuel' =>
      match snd (fs_opendir dir disk) with
      | Throw e => Some (Throw e)
      | Ok entries =>
          forAwait
            (visitEntry (fun sub => readFilesFrom fuel' sub baseDir disk) dir baseDir disk)
            entries []
      end
  end.

(** [baseDir] defaults to [dir]. *)
Definition readFiles (fuel : nat) (dir : string) (disk : Inode)
  : option (result (list File)) :=
  readFilesFrom fuel dir dir disk.

End Fs.

(** ** A host for the examples: code-unit order for the collation, NaN (stored
    as 0) for every coercion, and [/home/user] as working directory. *)

Fixpoint codeUnitCompare (a b : string) : Z :=
  match a, b with
  | EmptyString, EmptyString => 0
  | EmptyString, String _ _ => -1
  | String _ _, EmptyString => 1
  | String x a', String y b' =>
      match N.compare (N_of_ascii x) (N_of_ascii y) with
      | Lt => -1
      | Gt => 1
      | Eq => codeUnitCompare a' b'
      end
  end.

Definition exampleHost : Host :=
  {| localeCompare := codeUnitCompare;
     toInteger := fun _ => 0;
     cwd := "/home/user" |}.

(** ** Example data *)

Definition mkFile (parent nm full : string) (content : Value) : File :=
  {| name := nm; parentPath := parent; path := full; data := content; options := None |}.

(** An empty working directory [/home/user]. *)
Definition emptyDisk : Inode :=
  Directory [("home", Directory [("user", Directory [])])].

Definition fileA : File := mkFile "./" "a.txt" "./a.txt" (VBuffer (utf8 "hello")).
Definition fileB : File := mkFile "./sub" "b.txt" "./sub/b.txt" (VBuffer (utf8 "world")).

(** Two records for the same target with different content. *)
Definition draft1 : File := mkFile "./" "notes" "./notes" (VBuffer (utf8 "one")).
Definition draft2 : File := mkFile "./" "notes" "./notes" (VBuffer (utf8 "two")).

(** What [computeMetaHash] reads of a record: [options] and [path] are not
    hashed. *)
Definition hashedFields `{Host} (f : File) : string * string * result Buffer :=
  (parentPath f, name f, normalizeBuffer (data f)).

(** [/home/user] holding one regular file. *)
Definition diskWithNotes : Inode :=
  Directory [("home", Directory [("user", Directory [("notes.txt", RegularFile (utf8 "x"))])])].



(** [typeof v === 'object' && v !== null]. *)
Definition isObject (v : Value) : bool :=
  match v with
  | VBuffer _ | VArray _ | VObject _ => true
  | _ => false
  end.

(** [fullPath] is under [basePath]: its segments are those of the base,
    followed by the segments that lead from the base to it. *)
Definition under `{Host} (fullPath basePath : string) (rest : list string) : Prop :=
  Path.resolveSegments fullPath = Path.resolveSegments basePath ++ rest.

(** ** Vocabulary of the round trip *)

Fixpoint slashFree (s : string) : bool :=
  match s with
  | EmptyString => true
  | String c s' => negb (Path.isSlash c) && slashFree s'
  end.

(** A segment that [normalizeString] keeps: neither empty nor "." nor "..". *)
Definition keepable (s : string) : bool :=
  negb (String.eqb s "") && negb (String.eqb s ".") && negb (String.eqb s "..").

(** A segment that names an entry: kept, and without slash. *)
Definition plainSegment (s : string) : bool := slashFree s && keepable s.

(** A plain segment that does not begin with two dots. *)
Definition tameSegment (s : string) : bool :=
  plainSegment s && negb (String.prefix ".." s).

(** The depth of a tree: the number of nested directories. *)
Fixpoint height (n : Inode) : nat :=
  match n with
  | Directory es =>
      S ((fix deepest (es : list (string * Inode)) : nat :=
            match es with
            | [] => O
            | (_, child) :: rest => Nat.max (height child) (deepest rest)
            end) es)
  | _ => O
  end.

(** How [readFiles] writes the directory [ds] levels below the base. *)
Definition relativeDir (ds : list string) : string :=
  match ds with
  | [] => "."
  | _ => Path.unsplit ds
  end.

Definition recordOf (ds : list string) (nm : string) (content : Buffer) : File :=
  {| name := nm;
     parentPath := ("./" ++ relativeDir ds)%string;
     path := ("./" ++ Path.unsplit (ds ++ [nm]))%string;
     data := VBuffer content;
     options := None |}.

(** The records of the regular files of a tree, in the order of its entries;
    [ds] is where the tree is, below the base. *)
Fixpoint recordsUnder (ds : list string) (n : Inode) : list File :=
  match n with
  | Directory es =>
      (fix each (es : list (string * Inode)) : list File :=
         match es with
         | [] => []
         | (k, child) :: rest =>
             match child with
             | RegularFile content => [recordOf ds k content]
             | Directory _ => recordsUnder (ds ++ [k]) child
             | Special => []
             end ++ each rest
         end) es
  | _ => []
  end.

(** A tree whose entry names are tame and distinct within each directory, and
    that holds only regular files and directories. *)
Fixpoint tidy (n : Inode) : Prop :=
  match n with
  | RegularFile _ => True
  | Directory es =>
      List.NoDup (List.map fst es)
      /\ (fix all (es : list (string * Inode)) : Prop :=
            match es with
            | [] => True
            | (k, child) :: rest => tameSegment k = true /\ tidy child /\ all rest
            end) es
  | Special => False
  end.

(** What one entry of a directory adds to the records. *)
Definition contribution (ds : list string) (k : string) (child : Inode) : list File :=
  match child with
  | RegularFile content => [recordOf ds k content]
  | Directory _ => recordsUnder (ds ++ [k]) child
  | Special => []
  end.

(** Where [writeFiles] puts a record, below the work directory. *)
Definition dirSegments (f : File) : list string :=
  Path.normalizeSegments true [] (Path.split (parentPath f)).

Definition targetSegments (f : File) : list string := dirSegments f ++ [name f].

(** A record whose directory does not leave the work directory and whose
    segments are tame. *)
Definition tameRecord (f : File) : bool :=
  List.forallb tameSegment (dirSegments f) && tameSegment (name f).

Definition writtenContent `{Host} (f : File) : Buffer :=
  match normalizeBuffer (data f) with
  | Ok content => content
  | Throw _ => []
  end.

(** The (path, content) pair a walk is to give back for a written record. *)
Definition expectedPair `{Host} (f : File) : string * Value :=
  (("./" ++ Path.unsplit (targetSegments f))%string, VBuffer (writtenContent f)).

Definition pathAndData (f : File) : string * Value := (path f, data f).

(** The work directory holds a tidy tree whose files are the records [done],
    each at its target with its content. *)
Definition written `{Host} (workDir : string) (disk : Inode) (done : list File) : Prop :=
  exists es,
    Tree.walk (Path.resolveSegments workDir) disk = inr (Directory es)
    /\ tidy (Directory es)
    /\ Permutation (List.map pathAndData (recordsUnder [] (Directory es)))
                   (List.map expectedPair done).

(** The work directory [/home/user/w], empty. *)
Definition emptyWorkDisk : Inode :=
  Directory [("home", Directory [("user", Directory [("w", Directory [])])])].


(** A record whose name begins with two dots. *)
Definition dotDotFile : File := mkFile "./" "..c" "./..c" (VBuffer (utf8 "x")).

(** What was on the disk [before] is still there [after]: every regular file
    with its content, every directory as a directory. *)
Definition preserved (before after : Inode) : Prop :=
  forall (segs : list string) (n : Inode),
    Tree.walk segs before = inr n ->
    match n with
    | RegularFile content => Tree.walk segs after = inr (RegularFile content)
    | Directory _ => exists entries, Tree.walk segs after = inr (Directory entries)
    | Special => Tree.walk segs after = inr Special
    end.







(** The comparator of [computeMetaHash], on the hashed fields. *)
Definition compareFields `{Host} (a b : string * string * result Buffer) : Z :=
  localeCompare (fst (fst a) ++ "/" ++ snd (fst a))%string
                (fst (fst b) ++ "/" ++ snd (fst b))%string.

(** ** Targets of the records, and what a write keeps *)

(** Where the system calls of [writeFiles] find the target of a record, and
    the directory it is written in. *)
Definition targetOf `{Host} (workDir : string) (f : File) : list string :=
  Path.resolveSegments (Path.join (Path.join workDir (parentPath f)) (name f)).

Definition targetDirOf `{Host} (workDir : string) (f : File) : list string :=
  Path.resolveSegments (Path.join workDir (parentPath f)).

(** The last record of [files] that is written to [target]. *)
Fixpoint lastWriter `{Host} (workDir : string) (target : list string) (files : list File)
  : option File :=
  match files with
  | [] => None
  | f :: rest =>
      match lastWriter workDir target rest with
      | Some g => Some g
      | None =>
          if List.list_eq_dec String.string_dec (targetOf workDir f) target
          then Some f else None
      end
  end.

(** Nothing that was on the disk [before] is gone or of another kind
    [after]. *)
Definition sameKinds (before after : Inode) : Prop :=
  forall (segs : list string) (n : Inode),
    Tree.walk segs before = inr n ->
    exists n', Tree.walk segs after = inr n' /\ kindOf n' = kindOf n.

(** A record is settled on a disk when its directory is there and its
    target holds its content: writing it changes nothing. *)
Definition settled `{Host} (workDir : string) (disk : Inode) (f : File) : Prop :=
  (exists es, Tree.walk (targetDirOf workDir f) disk = inr (Directory es))
  /\ exists content,
       normalizeBuffer (data f) = Ok content
       /\ Path.endsWithSlash (Path.join (Path.join workDir (parentPath f)) (name f)) = false
       /\ (Tree.walk (targetOf workDir f) disk = inr (RegularFile content)
           \/ Tree.walk (targetOf workDir f) disk = inr Special).

(** Records that carry no write options, and records that carry no flag.
    The model of [fs] takes no account of the flag and the mode of a write:
    what is said of the content that a write leaves is said of records
    without flag, and what is said of a second write or of a read after the
    write is said of records without options. *)
Definition withoutOptions (files : list File) : Prop :=
  List.Forall (fun f => options f = None) files.

Definition withoutFlags (files : list File) : Prop :=
  List.Forall (fun f => match options f with
                        | Some o => flag o = None
                        | None => True
                        end) files.

(** What every record of a walk looks like: both paths begin with [./],
    the data is a buffer and there are no write options. *)
Definition walkedShape (f : File) : bool :=
  String.prefix "./" (parentPath f) && String.prefix "./" (path f)
  && match data f with VBuffer _ => true | _ => false end
  && match options f with None => true | Some _ => false end.

(** ** The [Host] and [Docker] interfaces (types.ts)

    [HostEntry] is the interface [Host]; its fields and the optional
    credentials of [Docker] carry a prefix, since [name], [username] and
    [password] name other fields here. *)

Record HostEntry := {
  host_name : string;
  host_ip : string;
  host_username : string;
  host_password : string
}.

Record Docker := {
  images : list string;
  registryUrl : option string;
  docker_username : option string;
  docker_password : option string
}.

(** ** Own properties of an ordinary object

    The keys of an object come in this order: the array indices, ascending,
    then the other strings in the order they were created. *)

Definition digitValue (c : ascii) : option N :=
  let n := N_of_ascii c in
  if ((48 <=? n) && (n <=? 57))%N then Some (n - 48)%N else None.

Fixpoint decimal (acc : N) (s : string) : option N :=
  match s with
  | EmptyString => Some acc
  | String c rest =>
      match digitValue c with
      | Some d => decimal (10 * acc + d)%N rest
      | None => None
      end
  end.

(** An array index: the canonical decimal form of an integer below 2^32 - 1. *)
Definition arrayIndex (key : string) : option N :=
  match key with
  | EmptyString => None
  | String c rest =>
      if Ascii.eqb c "0" && negb (String.eqb rest "") then None
      else
        match decimal 0%N key with
        | Some n => if (n <? 4294967295)%N then Some n else None
        | None => None
        end
  end.

Fixpoint getOwn (key : string) (props : list (string * Value)) : option Value :=
  match props with
  | [] => None
  | (k, v) :: rest => if String.eqb k key then Some v else getOwn key rest
  end.

Fixpoint replaceOwn (key : string) (v : Value) (props : list (string * Value))
  : list (string * Value) :=
  match props with
  | [] => []
  | (k, w) :: rest =>
      if String.eqb k key then (k, v) :: rest else (k, w) :: replaceOwn key v rest
  end.

(** A new index goes in front of the first key that is no index or a larger
    one. *)
Fixpoint insertIndex (n : N) (key : string) (v : Value) (props : list (string * Value))
  : list (string * Value) :=
  match props with
  | [] => [(key, v)]
  | (k, w) :: rest =>
      match arrayIndex k with
      | Some m => if (m <? n)%N then (k, w) :: insertIndex n key v rest
                  else (key, v) :: props
      | None => (key, v) :: props
      end
  end.

(** [object[key] = v] on an object created by [{}], for an object [v]:
    [__proto__] is the accessor of [Object.prototype], whose setter changes
    the prototype and creates no property. *)
Definition setProperty (key : string) (v : Value) (props : list (string * Value))
  : list (string * Value) :=
  if String.eqb key "__proto__" then props
  else
    match getOwn key props with
    | Some _ => replaceOwn key v props
    | None =>
        match arrayIndex key with
        | Some n => insertIndex n key v props
        | None => props ++ [(key, v)]
        end
    end.

(** ** ansible/inventory.js

    The default export, on a context of the types that index.ts passes:
    [hostsCfg] is a [Host[]] and [dockerCfg] a [Docker]. *)

Record Context := {
  dockerCfg : Docker;
  hostsCfg : list HostEntry
}.

Definition hostVars (h : HostEntry) : Value :=
  VObject [ ("ansible_host", VString (host_ip h));
            ("ansible_user", VString (host_username h));
            ("ansible_password", VString (host_password h)) ].

(** The [forEach] over [ctx.hostsCfg]. *)
Definition inventoryHosts (hosts : list HostEntry) : list (string * Value) :=
  List.fold_left (fun acc h => setProperty (host_name h) (hostVars h) acc) hosts [].

Definition inventory (ctx : Context) : Value :=
  VObject
    [ ("all",
       VObject
         [ ("vars",
            VObject [ ("docker_images", VArray (List.map VString (images (dockerCfg ctx)))) ]);
           ("hosts", VObject (inventoryHosts (hostsCfg ctx))) ]) ].

(** The last host of the list that is called [nm]. *)
Fixpoint lastNamed (nm : string) (hosts : list HostEntry) : option HostEntry :=
  match hosts with
  | [] => None
  | h :: rest =>
      match lastNamed nm rest with
      | Some h' => Some h'
      | None => if String.eqb (host_name h) nm then Some h else None
      end
  end.

(** ** [createAnsibleInventory] *)

(** How a call of foreign code ends: with a value, or with a thrown [Error],
    kept as its message. *)
Inductive Completion (A : Type) :=
| Returns (a : A)
| Throws (message : string).
Arguments Returns {A} a.
Arguments Throws {A} message.

(** The default export of a module: a function, with what a call of it
    does, or any other value ([undefined] when the module has none). *)
Inductive Export :=
| Callable (body : Value -> Completion Value)
| NotCallable (v : Value).

(** What the function takes from the runtime: the loader behind [import()],
    which gives the default export of the module it finds, and
    [JSON.stringify(v, null, 2)], whose result is [undefined] ([None])
    where a value has no JSON text. *)
Class Runtime := {
  importModule : string -> Completion Export;
  JSON_stringify : Value -> Completion (option string)
}.

Inductive InventoryError :=
| InvalidPath
    (* 'Invalid pathToInventory: must be a non-empty string' *)
| ImportFailed (pathToInventory message : string)
    (* `Failed to import module from path "...": ...` *)
| NoDefaultFunction
    (* 'Imported module does not have a default export function' *)
| InvalidContext
    (* 'Invalid context object (ctx): must be a non-null object' *)
| FunctionFailed (message : string)
    (* `Error running inventory function: ...` *)
| InvalidObject
    (* 'The default export function did not return a valid object' *)
| StringifyFailed (message : string)
    (* `Failed to stringify inventory object: ...` *)
| NotAString.
    (* the TypeError of [Buffer.from(undefined, 'utf-8')] *)

(** The calls made to the runtime, in the order they are made. *)
Inductive Event :=
| Imported (pathToInventory : string)
| Called (ctx : Value)
| Stringified (v : Value).

(** [s.trim() === '']: every character is white space or a line terminator
    (TAB, LF, VT, FF, CR, SP, then U+00A0, U+1680, U+2000 to U+200A, U+2028,
    U+2029, U+202F, U+205F, U+3000 and U+FEFF in UTF-8). *)
Definition wideSpace (b1 b2 b3 : N) : bool :=
  ((b1 =? 0xe1) && (b2 =? 0x9a) && (b3 =? 0x80)
   || (b1 =? 0xe2) && (b2 =? 0x80)
      && ((0x80 <=? b3) && (b3 <=? 0x8a) || (b3 =? 0xa8) || (b3 =? 0xa9) || (b3 =? 0xaf))
   || (b1 =? 0xe2) && (b2 =? 0x81) && (b3 =? 0x9f)
   || (b1 =? 0xe3) && (b2 =? 0x80) && (b3 =? 0x80)
   || (b1 =? 0xef) && (b2 =? 0xbb) && (b3 =? 0xbf))%N.

Fixpoint blank (s : string) : bool :=
  match s with
  | EmptyString => true
  | String c1 rest1 =>
      let b1 := N_of_ascii c1 in
      if ((9 <=? b1) && (b1 <=? 13) || (b1 =? 32))%N then blank rest1
      else
        match rest1 with
        | String c2 rest2 =>
            let b2 := N_of_ascii c2 in
            if ((b1 =? 0xc2) && (b2 =? 0xa0))%N then blank rest2
            else
              match rest2 with
              | String c3 rest3 =>
                  if wideSpace b1 b2 (N_of_ascii c3) then blank rest3 else false
              | EmptyString => false
              end
        | EmptyString => false
        end
  end.

Definition inventoryFile (inventoryJson : string) : File :=
  {| name := "inventory.json";
     parentPath := "./";
     path := "./inventory.json";
     data := VBuffer (utf8 inventoryJson);
     options := None |}.

Definition createAnsibleInventory `{Runtime} (pathToInventory ctx : Value)
  : list Event * (InventoryError + File) :=
  match pathToInventory with
  | VString p =>
      if blank p then ([], inl InvalidPath)
      else
        match importModule p with
        | Throws message => ([Imported p], inl (ImportFailed p message))
        | Returns (NotCallable _) => ([Imported p], inl NoDefaultFunction)
        | Returns (Callable body) =>
            if negb (isObject ctx) then ([Imported p], inl InvalidContext)
            else
              match body ctx with
              | Throws message => ([Imported p; Called ctx], inl (FunctionFailed message))
              | Returns inventoryObj =>
                  if negb (isObject inventoryObj)
                  then ([Imported p; Called ctx], inl InvalidObject)
                  else
                    ([Imported p; Called ctx; Stringified inventoryObj],
                     match JSON_stringify inventoryObj with
                     | Throws message => inl (StringifyFailed message)
                     | Returns None => inl NotAString
                     | Returns (Some inventoryJson) => inr (inventoryFile inventoryJson)
                     end)
              end
        end
  | _ => ([], inl InvalidPath)
  end.

(** ** config.ts

    The values are those the outputs resolve to. Of the initialization of a
    virtual machine, the two parts that are read. *)

Record IpAddress := { address : option string }.

Record IpConfig := {
  ipv4 : option IpAddress;
  ipv6 : option IpAddress
}.

Record UserAccount := {
  keys : option (list string);
  password : option string;
  username : option string
}.

Record Initialization := {
  ipConfigs : option (list IpConfig);
  userAccount : option UserAccount
}.

Inductive ConfigError :=
| NoAddress
    (* "No IPv4 or IPv6 address found in ipConfigs." *)
| NoUser.
    (* "Missing userAccount or username in VM initialization." *)

(** [publicKeys]: the configured keys, then the generated one. *)
Definition publicKeys (cfgKeys : list string) (genKey : string) : list string :=
  cfgKeys ++ [genKey].

(** [vmArgs.initialization]: [init] is [undefined] when the stack gives no
    initialization. *)
Definition initialization (init : option Initialization) (publicKeys : list string)
  : Initialization :=
  let account :=
    match init with
    | Some i => userAccount i
    | None => None
    end in
  {| ipConfigs := match init with Some i => ipConfigs i | None => None end;
     userAccount :=
       Some {| keys := Some publicKeys;
               password := match account with Some a => password a | None => None end;
               username := match account with Some a => username a | None => None end |} |}.

(** [Boolean(s)] for a string that may be [undefined]. *)
Definition truthy (s : option string) : bool :=
  match s with
  | Some s => negb (String.eqb s "")
  | None => false
  end.

(** [cfg.ipv4?.address || cfg.ipv6?.address]. *)
Definition addressOf (cfg : IpConfig) : option string :=
  let first := match ipv4 cfg with Some a => address a | None => None end in
  if truthy first then first
  else match ipv6 cfg with Some a => address a | None => None end.

Definition vmIp (init : Initialization) : ConfigError + string :=
  let ip :=
    match ipConfigs init with
    | Some cfgs => List.find truthy (List.map addressOf cfgs)
    | None => None
    end in
  match ip with
  | Some (Some ip) =>
      if String.eqb ip "" then inl NoAddress
      else inr (match Path.split ip with first :: _ => first | [] => "" end)
  | _ => inl NoAddress
  end.

Record Account := {
  account_keys : list string;
  account_username : string;
  account_password : string
}.

Definition vmUserAccount (init : Initialization) : ConfigError + Account :=
  match userAccount init with
  | None => inl NoUser
  | Some user =>
      if truthy (username user) then
        inr {| account_keys := default [] (keys user);
               account_username := default "" (username user);
               account_password := default "" (password user) |}
      else inl NoUser
  end.

(** [hostsConf]: the one host of the inventory. *)
Definition hostsConf (vmName ip : string) (account : Account) : list HostEntry :=
  [ {| host_name := vmName;
       host_ip := ip;
       host_username := account_username account;
       host_password := account_password account |} ].

(** ** index.ts: the workspace of the playbooks *)

(** The object literal [{ dockerCfg, hostsCfg }]; the properties of each
    part are in the order of its interface. *)
Definition optionalProperty (key : string) (v : option string) : list (string * Value) :=
  match v with
  | Some s => [(key, VString s)]
  | None => []
  end.

Definition dockerValue (d : Docker) : Value :=
  VObject
    ([("images", VArray (List.map VString (images d)))]
     ++ optionalProperty "registryUrl" (registryUrl d)
     ++ optionalProperty "username" (docker_username d)
     ++ optionalProperty "password" (docker_password d)).

Definition hostValue (h : HostEntry) : Value :=
  VObject [ ("name", VString (host_name h));
            ("ip", VString (host_ip h));
            ("username", VString (host_username h));
            ("password", VString (host_password h)) ].

Definition contextValue (ctx : Context) : Value :=
  VObject [ ("dockerCfg", dockerValue (dockerCfg ctx));
            ("hostsCfg", VArray (List.map hostValue (hostsCfg ctx))) ].

(** [writeFiles("./workspace", [...])] with the two keys; 0o644 is 420 and
    0o600 is 384. *)
Definition keyFiles (publicKey privateKey : string) : list File :=
  [ {| name := "id_rsa.pub";
       parentPath := "./";
       path := "./id_rsa.pub";
       data := VBuffer (utf8 publicKey);
       options := Some {| mode := Some 420; flag := None |} |};
    {| name := "id_rsa";
       parentPath := "./";
       path := "./id_rsa";
       data := VBuffer (utf8 privateKey);
       options := Some {| mode := Some 384; flag := None |} |} ].

Definition keysWorkspace `{Host} (publicKey privateKey : string) : IO Buffer :=
  writeFiles "./workspace" (keyFiles publicKey privateKey).

Inductive StepError :=
| FromFiles (e : Error)
| FromInventory (e : InventoryError).

(** [writeFiles("./workspace/ansible", [...(await readFiles("./ansible")),
    await createAnsibleInventory("./ansible/inventory.js", ctx)])]; [None]
    when the walk runs out of fuel. *)
Definition ansibleWorkspace `{Host} `{Runtime} (fuel : nat) (ctx : Context) (disk : Inode)
  : option (Inode * (StepError + Buffer)) :=
  match readFiles fuel "./ansible" disk with
  | None => None
  | Some (Throw e) => Some (disk, inl (FromFiles e))
  | Some (Ok walked) =>
      match snd (createAnsibleInventory (VString "./ansible/inventory.js") (contextValue ctx)) with
      | inl e => Some (disk, inl (FromInventory e))
      | inr generated =>
          match writeFiles "./workspace/ansible" (walked ++ [generated]) disk with
          | (disk', Ok digest) => Some (disk', inr digest)
          | (disk', Throw e) => Some (disk', inl (FromFiles e))
          end
      end
  end.

(** ** A runtime for the examples

    [JSON.stringify(v, null, 2)] for values whose numbers are below 10^21 in
    absolute value and that have no method [toJSON]: a property whose value
    is [undefined] or a function is left out of an object and is [null] in
    an array, a buffer is the object that [Buffer.prototype.toJSON] gives.
    The loader knows one module, inventory.js, with the function above on
    the contexts of index.ts. *)

Definition doubleQuote : string := String (ascii_of_N 34) EmptyString.

Definition hexDigit (n : N) : string :=
  String.substring (N.to_nat n) 1 "0123456789abcdef".

(** One character of [QuoteJSONString]. *)
Definition escapeJSON (c : ascii) : string :=
  let n := N_of_ascii c in
  if (n =? 8)%N then "\b"
  else if (n =? 9)%N then "\t"
  else if (n =? 10)%N then "\n"
  else if (n =? 12)%N then "\f"
  else if (n =? 13)%N then "\r"
  else if (n =? 34)%N then ("\" ++ doubleQuote)%string
  else if (n =? 92)%N then "\\"
  else if (n <? 32)%N then ("\u00" ++ hexDigit (n / 16) ++ hexDigit (n mod 16))%string
  else String c EmptyString.

Fixpoint escapeAll (s : string) : string :=
  match s with
  | EmptyString => EmptyString
  | String c rest => (escapeJSON c ++ escapeAll rest)%string
  end.

Definition quoteJSON (s : string) : string :=
  (doubleQuote ++ escapeAll s ++ doubleQuote)%string.

Definition decimalOf (z : Z) : string := NilZero.string_of_int (Z.to_int z).

(** The text of an array or an object from the texts of its parts. *)
Definition bracketed (opening closing indent : string) (parts : list string) : string :=
  match parts with
  | [] => (opening ++ closing)%string
  | _ =>
      let inner := (indent ++ "  ")%string in
      (opening ++ newline ++ inner
       ++ String.concat ("," ++ newline ++ inner) parts
       ++ newline ++ indent ++ closing)%string
  end.

Definition memberJSON (key text : string) : string :=
  (quoteJSON key ++ ": " ++ text)%string.

Fixpoint jsonText (indent : string) (v : Value) {struct v} : option string :=
  let inner := (indent ++ "  ")%string in
  match v with
  | VUndefined | VFunction => None
  | VNull => Some "null"
  | VBool b => Some (if b then "true" else "false")
  | VNumber z => Some (decimalOf z)
  | VString s => Some (quoteJSON s)
  | VBuffer b =>
      Some (bracketed "{" "}" indent
              [ memberJSON "type" (quoteJSON "Buffer");
                memberJSON "data"
                  (bracketed "[" "]" inner (List.map (fun x => decimalOf (byteToZ x)) b)) ])
  | VArray elems =>
      Some (bracketed "[" "]" indent
              ((fix each (elems : list Value) : list string :=
                  match elems with
                  | [] => []
                  | e :: rest => default "null" (jsonText inner e) :: each rest
                  end) elems))
  | VObject props =>
      Some (bracketed "{" "}" indent
              ((fix each (props : list (string * Value)) : list string :=
                  match props with
                  | [] => []
                  | (k, w) :: rest =>
                      match jsonText inner w with
                      | Some text => memberJSON k text :: each rest
                      | None => each rest
                      end
                  end) props))
  end.

(** The context a value of the shape of [contextValue] stands for. *)
Definition stringOf (v : option Value) : option string :=
  match v with
  | Some (VString s) => Some s
  | _ => None
  end.

Fixpoint stringsOf (elems : list Value) : option (list string) :=
  match elems with
  | [] => Some []
  | VString s :: rest => option_map (cons s) (stringsOf rest)
  | _ :: _ => None
  end.

Definition hostOf (v : Value) : option HostEntry :=
  match v with
  | VObject props =>
      match stringOf (getOwn "name" props), stringOf (getOwn "ip" props),
            stringOf (getOwn "username" props), stringOf (getOwn "password" props) with
      | Some n, Some i, Some u, Some p =>
          Some {| host_name := n; host_ip := i; host_username := u; host_password := p |}
      | _, _, _, _ => None
      end
  | _ => None
  end.

Fixpoint hostsOf (elems : list Value) : option (list HostEntry) :=
  match elems with
  | [] => Some []
  | e :: rest =>
      match hostOf e, hostsOf rest with
      | Some h, Some hs => Some (h :: hs)
      | _, _ => None
      end
  end.

Definition dockerOf (v : Value) : option Docker :=
  match v with
  | VObject props =>
      match getOwn "images" props with
      | Some (VArray elems) =>
          option_map
            (fun names =>
               {| images := names;
                  registryUrl := stringOf (getOwn "registryUrl" props);
                  docker_username := stringOf (getOwn "username" props);
                  docker_password := stringOf (getOwn "password" props) |})
            (stringsOf elems)
      | _ => None
      end
  | _ => None
  end.

Definition contextOf (v : Value) : option Context :=
  match v with
  | VObject props =>
      match getOwn "dockerCfg" props, getOwn "hostsCfg" props with
      | Some d, Some (VArray hs) =>
          match dockerOf d, hostsOf hs with
          | Some docker, Some hosts => Some {| dockerCfg := docker; hostsCfg := hosts |}
          | _, _ => None
          end
      | _, _ => None
      end
  | _ => None
  end.

Definition exampleRuntime : Runtime :=
  {| importModule := fun p =>
       if String.eqb p "./ansible/inventory.js" then
         Returns (Callable (fun ctx =>
           match contextOf ctx with
           | Some c => Returns (inventory c)
           | None => Throws "TypeError"
           end))
       else Throws "Cannot find module";
     JSON_stringify := fun v => Returns (jsonText "" v) |}.

(** A stack with one machine and one image. *)
Definition exampleInitialization : Initialization :=
  {| ipConfigs :=
       Some [ {| ipv4 := None; ipv6 := None |};
              {| ipv4 := Some {| address := Some "192.168.2.3/24" |}; ipv6 := None |} ];
     userAccount :=
       Some {| keys := Some ["ssh-rsa OLD"]; password := None; username := Some "deploy" |} |}.

Definition exampleContext : Context :=
  {| dockerCfg := {| images := ["nginx:latest"]; registryUrl := None;
                     docker_username := None; docker_password := None |};
     hostsCfg := hostsConf "vm1" "192.168.2.3"
                   {| account_keys := []; account_username := "deploy";
                      account_password := "" |} |}.

(** [/home/user/ansible] with a playbook, a role and an [inventory.json] of
    its own. *)
Definition ansibleTree : list (string * Inode) :=
  [("playbook.yml", RegularFile (utf8 "- hosts: all"));
   ("inventory.json", RegularFile (utf8 "{}"));
   ("roles", Directory [("main.yml", RegularFile (utf8 "- debug:"))])].

Definition ansibleDisk : Inode :=
  Directory [("home", Directory [("user", Directory [("ansible", Directory ansibleTree)])])].

Definition exampleHosts : list HostEntry :=
  [ {| host_name := "web"; host_ip := "10.0.0.2"; host_username := "deploy";
       host_password := "" |};
    {| host_name := "db"; host_ip := "10.0.0.3"; host_username := "deploy";
       host_password := "" |} ].

(** [fileA] with its content as an array of numbers, another [path] and a
    mode. *)
Definition arrayA : File :=
  {| name := "a.txt";
     parentPath := "./";
     path := "./elsewhere";
     data := VArray [VNumber 104; VNumber 101; VNumber 108; VNumber 108; VNumber 111];
     options := Some {| mode := Some 420; flag := None |} |}.

(** * Properties *)

(** The standard test vectors of SHA-256, one and two blocks long. *)
Example sha256_abc :
  SHA256.digest (utf8 "abc") =
  [ xba; x78; x16; xbf; x8f; x01; xcf; xea; x41; x41; x40; xde; x5d; xae; x22; x23;
    xb0; x03; x61; xa3; x96; x17; x7a; x9c; xb4; x10; xff; x61; xf2; x00; x15; xad ].
Proof. vm_compute. reflexivity. Qed.

Example sha256_two_blocks :
  SHA256.digest (utf8 "abcdbcdecdefdefgefghfghighijhijkijkljklmklmnlmnomnopnopq") =
  [ x24; x8d; x6a; x61; xd2; x06; x38; xb8; xe5; xc0; x26; x93; x0c; x3e; x60; x39;
    xa3; x3c; xe4; x59; x64; xff; x21; x67; xf6; xec; xed; xd4; x19; xdb; x06; xc1 ].
Proof. vm_compute. reflexivity. Qed.

(** The digest of the end-to-end scenario: SHA-256 of
    "./:a.txt:hello\n./sub:b.txt:world\n", whatever the input order. *)
Example computeMetaHash_scenario :
  computeMetaHash (H:=exampleHost) [fileB; fileA] =
  Ok [ x7f; x40; x5e; x7f; x61; xa5; xee; xff; x73; xdb; xe9; x0b; x7f; x3f; xe2; xf7;
       xb1; xd7; x2f; xee; xf4; x46; xe6; x64; x80; xe4; x3a; x50; x9e; xc7; x77; xdf ].
Proof. vm_compute. reflexivity. Qed.

(** ** Sorting with a consistent comparator *)

Section SortFacts.
Context {A : Type} (cmp : A -> A -> Z).
Hypothesis cmp_antisym : forall a b, Z.sgn (cmp a b) = - Z.sgn (cmp b a).
Hypothesis cmp_trans : forall a b c, cmp a b <= 0 -> cmp b c <= 0 -> cmp a c <= 0.

Definition le_cmp (a b : A) : Prop := cmp a b <= 0.

Lemma le_cmp_total a b : le_cmp a b \/ le_cmp b a.
Proof. unfold le_cmp. pose proof (cmp_antisym a b). lia. Qed.

Lemma insertSorted_perm x l : Permutation (insertSorted cmp x l) (x :: l).
Proof.
  induction l as [|y l IH]; simpl; [reflexivity|].
  destruct (cmp x y <=? 0); [reflexivity|].
  rewrite IH. apply perm_swap.
Qed.

Lemma Array_sort_perm l : Permutation (Array_sort cmp l) l.
Proof.
  induction l as [|x l IH]; simpl; [reflexivity|].
  rewrite insertSorted_perm. now constructor.
Qed.




End SortFacts.

(** Sorting commutes with a projection the comparator factors through. *)
Lemma Array_sort_map {A B} (f : A -> B) (cmpA : A -> A -> Z) (cmpB : B -> B -> Z) :
  (forall x y, cmpA x y = cmpB (f x) (f y)) ->
  forall l, List.map f (Array_sort cmpA l) = Array_sort cmpB (List.map f l).
Proof.
  intros Hf. induction l as [|x l IH]; simpl; [reflexivity|].
  rewrite <- IH. generalize (Array_sort cmpA l). clear IH.
  induction l0 as [|y l0 IH]; simpl; [reflexivity|].
  rewrite <- Hf. destruct (cmpA x y <=? 0); simpl; [reflexivity|]. now rewrite IH.
Qed.

(** ** The code-unit comparator is consistent *)



(** ** C1: order independence of [computeMetaHash] *)

Section OrderIndependence.
Context `{Host}.

Lemma hashInput_fields (l1 : list File) :
  forall l2, List.map hashedFields l1 = List.map hashedFields l2 ->
             hashInput l1 = hashInput l2.
Proof.
  induction l1 as [|a l1 IH]; intros [|b l2] E; simpl in E; try discriminate; [reflexivity|].
  injection E as Ep En Ed El. simpl. unfold hashUpdates.
  now rewrite Ep, En, Ed, (IH l2 El).
Qed.

Lemma sorted_fields (l : list File) :
  List.map hashedFields (Array_sort compareFiles l)
  = Array_sort compareFields (List.map hashedFields l).
Proof. apply Array_sort_map. reflexivity. Qed.


End OrderIndependence.




(** ** C2: [checkFolderExists] *)

Lemma checkFolderExists_run `{Host} (p : string) (disk : Inode) :
  checkFolderExists p disk =
    (disk,
     match locate p disk with
     | inr n => Ok (isDirectory (kindOf n))
     | inl ENOENT => Ok false
     | inl code => Throw (FsError code "stat" p)
     end).
Proof.
  unfold checkFolderExists, tryCatch, bind, fs_stat, ret, throw.
  destruct (locate p disk) as [[]|[]]; reflexivity.
Qed.

(** C2, as amended. [checkFolderExists] answers [true] for a directory and
    [false] both when nothing is at the path and when what is there is not a
    directory (a regular file included); it throws exactly when [stat] fails
    with a code other than ENOENT, passing that error on; and it leaves the
    disk as it is. *)
Theorem checkFolderExists_cases `{Host} (p : string) (disk : Inode) :
  let found := locate p disk in
  (forall entries, found = inr (Directory entries) ->
                   checkFolderExists p disk = (disk, Ok true))
  /\ (forall content, found = inr (RegularFile content) ->
                      checkFolderExists p disk = (disk, Ok false))
  /\ (found = inr Special -> checkFolderExists p disk = (disk, Ok false))
  /\ (found = inl ENOENT -> checkFolderExists p disk = (disk, Ok false))
  /\ (forall code, found = inl code -> code <> ENOENT ->
                   checkFolderExists p disk = (disk, Throw (FsError code "stat" p)))
  /\ fst (checkFolderExists p disk) = disk.
Proof.
  intros found. subst found. rewrite checkFolderExists_run.
  repeat split; try (intros; match goal with E : _ = _ |- _ => now rewrite E end).
  intros code E Hne. rewrite E. now destruct code.
Qed.

(** C2 as stated fails: [notes.txt] exists and is a regular file, and the
    answer is [false], the same as for a missing path, not an exception. *)
Lemma checkFolderExists_regular_file :
  locate (H:=exampleHost) "notes.txt" diskWithNotes = inr (RegularFile (utf8 "x"))
  /\ checkFolderExists (H:=exampleHost) "notes.txt" diskWithNotes = (diskWithNotes, Ok false)
  /\ checkFolderExists (H:=exampleHost) "missing" diskWithNotes = (diskWithNotes, Ok false).
Proof. repeat split. Qed.

(** With a trailing slash the same name is asked for as a directory, and
    [stat] fails with ENOTDIR, which [checkFolderExists] lets through. *)
Example checkFolderExists_trailing_slash :
  checkFolderExists (H:=exampleHost) "notes.txt/" diskWithNotes
  = (diskWithNotes, Throw (FsError ENOTDIR "stat" "notes.txt/")).
Proof. reflexivity. Qed.

(** ** C3: [stripBasePath] *)

Lemma stripBasePath_throws_iff `{Host} (fullPath basePath : string) :
  isThrow (stripBasePath fullPath basePath) = String.prefix ".." (Path.relative basePath fullPath).
Proof. unfold stripBasePath. now destruct (String.prefix _ _). Qed.

Lemma dropCommon_app (base rest : list string) :
  Path.dropCommon base (base ++ rest) = ([], rest).
Proof.
  induction base as [|b base IH]; simpl; [now destruct rest|].
  now rewrite String.eqb_refl.
Qed.

Lemma dropCommon_nil (base : list string) :
  forall full down, Path.dropCommon base full = ([], down) -> full = base ++ down.
Proof.
  induction base as [|b base IH]; intros full down E; simpl in E.
  - destruct full; injection E as <-; reflexivity.
  - destruct full as [|f full]; [discriminate|].
    destruct (String.eqb b f) eqn:Ebf; [|discriminate].
    apply String.eqb_eq in Ebf. subst f. simpl. f_equal. now apply IH.
Qed.

Lemma prefix_dotdot_unsplit (d : string) (ds : list string) :
  String.prefix ".." (Path.unsplit (d :: ds)) = String.prefix ".." d.
Proof.
  unfold Path.unsplit. cbn [String.concat]. destruct ds as [|d2 ds]; [reflexivity|].
  generalize (String.concat "/" (d2 :: ds)). intros r.
  destruct d as [|c1 [|c2 d]]; cbv [String.append]; cbn -[ascii_dec].
  - reflexivity.
  - destruct (ascii_dec "." c1); reflexivity.
  - destruct (ascii_dec "." c1); [|reflexivity].
    destruct (ascii_dec "." c2); [|reflexivity].
    now destruct d.
Qed.

Lemma prefix_dotdot_up (up down : list string) :
  up <> [] ->
  String.prefix ".." (Path.unsplit (List.map (fun _ => "..") up ++ down)) = true.
Proof.
  destruct up as [|u up]; [congruence|]. intros _. simpl List.map. simpl app.
  now rewrite prefix_dotdot_unsplit.
Qed.

(** When [stripBasePath] throws: when [fullPath] is not under [basePath],
    and also when it is and the first segment below the base begins with two
    dots. *)
Lemma stripBasePath_throws_when `{Host} (fullPath basePath : string) :
  isThrow (stripBasePath fullPath basePath) = true
  <-> (forall rest, ~ under fullPath basePath rest)
      \/ (exists d rest, under fullPath basePath (d :: rest) /\ String.prefix ".." d = true).
Proof.
  rewrite stripBasePath_throws_iff. unfold under, Path.relative.
  destruct (String.eqb basePath fullPath) eqn:Esame.
  - apply String.eqb_eq in Esame. subst fullPath. simpl. split; [discriminate|].
    intros [Hnot|(d & rest & Hu & _)].
    + exfalso. apply (Hnot []). now rewrite app_nil_r.
    + exfalso. apply (f_equal (@List.length string)) in Hu.
      rewrite length_app in Hu. simpl in Hu. lia.
  - destruct (Path.dropCommon (Path.resolveSegments basePath) (Path.resolveSegments fullPath))
      as [up down] eqn:Edrop.
    destruct up as [|u up].
    + apply dropCommon_nil in Edrop. simpl. split.
      * intros Hp. right. destruct down as [|d down]; [discriminate Hp|].
        rewrite prefix_dotdot_unsplit in Hp. eauto.
      * intros [Hnot|(d & rest & Hu & Hp)].
        -- exfalso. apply (Hnot down). exact Edrop.
        -- rewrite Edrop in Hu. apply app_inv_head in Hu. subst down.
           now rewrite prefix_dotdot_unsplit.
    + split; [|intros _; now apply prefix_dotdot_up].
      intros _. left. intros rest Hu. rewrite Hu, dropCommon_app in Edrop. discriminate.
Qed.

(** C3 at the failing input. [/a/b/..c] lies directly under [/a/b]: its
    segments are those of the base followed by the single name [..c], and the
    relative path is that name. [stripBasePath] throws all the same, its test
    being on the first two characters: in general it throws when the path is
    not under the base and also when it is and the first segment below the
    base begins with two dots. The two paths of the spec behave as the claim
    says. *)
Theorem stripBasePath_dotdot_name `{Host} :
  under "/a/b/..c" "/a/b" ["..c"]
  /\ Path.relative "/a/b" "/a/b/..c" = "..c"
  /\ stripBasePath "/a/b/..c" "/a/b" = Throw (NotUnderBase "/a/b/..c" "/a/b")
  /\ stripBasePath "/a/b/../../etc/passwd" "/a/b"
     = Throw (NotUnderBase "/a/b/../../etc/passwd" "/a/b")
  /\ stripBasePath "/a/b/c.txt" "/a/b" = Ok "c.txt"
  /\ forall fullPath basePath,
       isThrow (stripBasePath fullPath basePath) = true
       <-> (forall rest, ~ under fullPath basePath rest)
           \/ (exists d rest, under fullPath basePath (d :: rest)
                              /\ String.prefix ".." d = true).
Proof.
  repeat split; try apply stripBasePath_throws_when.
Qed.

(** ** C4: [normalizeBuffer] *)





(** ** C5: what the hash is fed *)





Section Injectivity.
Context `{Host}.





End Injectivity.




(** ** The directory tree *)

Lemma entryOf_setEntry_eq (nm : string) (node : Inode) (es : list (string * Inode)) :
  Tree.entryOf nm (Tree.setEntry nm node es) = Some node.
Proof.
  induction es as [|[k n] es IH]; simpl.
  - now rewrite String.eqb_refl.
  - destruct (String.eqb k nm) eqn:E; simpl; rewrite E; [reflexivity|exact IH].
Qed.

Lemma entryOf_setEntry_ne (nm other : string) (node : Inode) (es : list (string * Inode)) :
  other <> nm ->
  Tree.entryOf other (Tree.setEntry nm node es) = Tree.entryOf other es.
Proof.
  intros Hne. induction es as [|[k n] es IH]; simpl.
  - destruct (String.eqb nm other) eqn:E; [|reflexivity].
    apply String.eqb_eq in E. congruence.
  - destruct (String.eqb k nm) eqn:E; simpl.
    + apply String.eqb_eq in E. subst k.
      destruct (String.eqb nm other) eqn:E'; [|reflexivity].
      apply String.eqb_eq in E'. congruence.
    + now rewrite IH.
Qed.

Lemma preserved_refl (disk : Inode) : preserved disk disk.
Proof. intros segs n Hw. destruct n; eauto. Qed.

Lemma preserved_entry (nm : string) (es : list (string * Inode)) (child : Inode) :
  preserved (default (Directory []) (Tree.entryOf nm es)) child ->
  preserved (Directory es) (Directory (Tree.setEntry nm child es)).
Proof.
  intros Hchild [|t q] m Hw; simpl in Hw.
  - injection Hw as <-. simpl. eauto.
  - destruct (Tree.entryOf t es) as [c|] eqn:Et; [|discriminate].
    simpl. destruct (String.eqb t nm) eqn:E.
    + apply String.eqb_eq in E. subst t.
      rewrite entryOf_setEntry_eq. apply Hchild. now rewrite Et.
    + apply String.eqb_neq in E.
      rewrite (entryOf_setEntry_ne nm t child es E), Et.
      destruct m; eauto.
Qed.

Lemma mkdirp_preserved (segs : list string) :
  forall disk disk', Tree.mkdirp segs disk = inr disk' -> preserved disk disk'.
Proof.
  induction segs as [|s rest IH]; intros disk disk' Hm; simpl in Hm.
  - destruct disk; try discriminate. injection Hm as <-. apply preserved_refl.
  - destruct disk as [|es|]; try discriminate.
    destruct (Tree.mkdirp rest (default (Directory []) (Tree.entryOf s es))) as [|child] eqn:Hc;
      [discriminate|].
    injection Hm as <-. apply preserved_entry. now apply IH.
Qed.

Lemma makeDirectories_preserved `{Host} (p : string) (disk disk' : Inode) :
  makeDirectories p disk = inr disk' -> preserved disk disk'.
Proof.
  unfold makeDirectories. destruct (String.eqb p ""); [discriminate|].
  apply mkdirp_preserved.
Qed.

(** ** C6 and C7: [writeFiles] *)

Section WriteFiles.
Context `{Host}.


Lemma normalizeBuffer_throws (v : Value) (e : Error) :
  normalizeBuffer v = Throw e -> e = UnsupportedData.
Proof. destruct v; simpl; intros E; try discriminate E; now injection E. Qed.

Lemma afterCheck_failure (targetDir : string) (file : File) (present : bool)
    (disk disk' : Inode) (e : Error) :
  afterCheck targetDir file present disk = (disk', Throw e) ->
  preserved disk disk'
  /\ (e = UnsupportedData
      \/ (exists code syscall, e = FsError code syscall targetDir)
      \/ (exists code syscall,
            e = FsError code syscall (Path.join targetDir (name file)))).
Proof.
  unfold afterCheck, bind, liftResult, fs_writeFile.
  assert (Hmk : exists made r,
             (if negb present then fs_mkdir_recursive targetDir else ret tt) disk = (made, r)
             /\ preserved disk made
             /\ (forall e0, r = Throw e0 -> exists code syscall, e0 = FsError code syscall targetDir)).
  { destruct present; simpl.
    - exists disk, (Ok tt). repeat split; [apply preserved_refl|discriminate].
    - unfold fs_mkdir_recursive.
      destruct (makeDirectories targetDir disk) as [code|made] eqn:Hm.
      + exists disk, (Throw (FsError code "mkdir" targetDir)).
        repeat split; [apply preserved_refl|]. intros e0 E. injection E as <-. eauto.
      + exists made, (Ok tt).
        repeat split; [eapply makeDirectories_preserved; eassumption|discriminate]. }
  destruct Hmk as (made & r & -> & Hpres & Hthrow).
  destruct r as [[]|e0].
  - destruct (normalizeBuffer (data file)) as [content|e1] eqn:Hn.
    + destruct (writeContent _ content made) as [code|stored]; intros E; [|discriminate E].
      injection E as <- <-. split; [exact Hpres|]. right. right. eauto.
    + intros E. injection E as <- <-. split; [exact Hpres|].
      left. eapply normalizeBuffer_throws; eassumption.
  - intros E. injection E as <- <-. split; [exact Hpres|]. right. left. now apply Hthrow.
Qed.

(** A failing [writeOne] has at most created directories, and its
    exception is that of the failing step. *)
Lemma writeOne_failure (workDir : string) (file : File) (disk disk' : Inode) (e : Error) :
  writeOne workDir file disk = (disk', Throw e) ->
  preserved disk disk'
  /\ (e = UnsupportedData
      \/ (exists code syscall,
            e = FsError code syscall (Path.join workDir (parentPath file)))
      \/ (exists code syscall,
            e = FsError code syscall
                  (Path.join (Path.join workDir (parentPath file)) (name file)))).
Proof.
  unfold writeOne. set (targetDir := Path.join workDir (parentPath file)).
  fold (afterCheck targetDir file).
  unfold bind at 1. rewrite checkFolderExists_run.
  destruct (locate targetDir disk) as [code|n].
  - destruct code; try (intros E; injection E as <- <-;
                         split; [apply preserved_refl|right; left; eauto]).
    apply afterCheck_failure.
  - apply afterCheck_failure.
Qed.
Lemma afterCheck_normalizes (targetDir : string) (file : File) (present : bool)
    (disk disk' : Inode) :
  afterCheck targetDir file present disk = (disk', Ok tt) ->
  exists content, normalizeBuffer (data file) = Ok content.
Proof.
  unfold afterCheck, bind, liftResult.
  destruct ((if negb present then fs_mkdir_recursive targetDir else ret tt) disk)
    as [made [[]|e0]]; [|discriminate].
  destruct (normalizeBuffer (data file)) as [content|e1]; [eauto|discriminate].
Qed.

Lemma writeOne_normalizes (workDir : string) (file : File) (disk disk' : Inode) :
  writeOne workDir file disk = (disk', Ok tt) ->
  exists content, normalizeBuffer (data file) = Ok content.
Proof.
  unfold writeOne. set (targetDir := Path.join workDir (parentPath file)).
  fold (afterCheck targetDir file).
  unfold bind at 1. rewrite checkFolderExists_run.
  destruct (locate targetDir disk) as [code|n].
  - destruct code; try discriminate. apply afterCheck_normalizes.
  - apply afterCheck_normalizes.
Qed.

Lemma forOf_writeOne_normalizes (workDir : string) (files : list File) :
  forall disk disk',
    forOf (writeOne workDir) files disk = (disk', Ok tt) ->
    List.Forall (fun f => exists content, normalizeBuffer (data f) = Ok content) files.
Proof.
  induction files as [|f files IH]; intros disk disk' Hrun; [constructor|].
  simpl in Hrun. unfold bind in Hrun.
  destruct (writeOne workDir f disk) as [d [[]|e]] eqn:Hf; [|discriminate].
  constructor; [eapply writeOne_normalizes; eassumption|eapply IH; eassumption].
Qed.

Lemma hashInput_total (files : list File) :
  List.Forall (fun f => exists content, normalizeBuffer (data f) = Ok content) files ->
  exists fed, hashInput files = Ok fed.
Proof.
  induction 1 as [|f files [content Hf] _ [more IH]]; simpl; [eauto|].
  unfold hashUpdates. rewrite Hf, IH. simpl. eauto.
Qed.

Lemma computeMetaHash_total (files : list File) :
  List.Forall (fun f => exists content, normalizeBuffer (data f) = Ok content) files ->
  exists digest, computeMetaHash files = Ok digest.
Proof.
  intros Hall. unfold computeMetaHash, metaHashInput.
  destruct (hashInput_total (Array_sort compareFiles files)) as [fed Hfed].
  - eapply Permutation_Forall; [symmetry; apply Array_sort_perm|exact Hall].
  - rewrite Hfed. simpl. eauto.
Qed.

Lemma writeFiles_unfold (workDir : string) (files : list File) (disk : Inode) :
  writeFiles workDir files disk
  = ((ensureWorkDir workDir ;; forOf (writeOne workDir) files) ;;
     liftResult (computeMetaHash files)) disk.
Proof.
  unfold writeFiles, bind.
  destruct (ensureWorkDir workDir disk) as [d1 [[]|e1]]; reflexivity.
Qed.

Lemma writeFiles_result (workDir : string) (files : list File)
    (disk disk' : Inode) (digest : Buffer) :
  writeFiles workDir files disk = (disk', Ok digest) ->
  computeMetaHash files = Ok digest.
Proof.
  rewrite writeFiles_unfold. unfold bind at 1, liftResult.
  destruct ((ensureWorkDir workDir ;; forOf (writeOne workDir) files) disk)
    as [d [[]|e]]; [|discriminate].
  intros E. now injection E.
Qed.
End WriteFiles.




(** C7. When the work directory is ensured and every record is written
    without error, [writeFiles] returns a digest, and that digest is
    [computeMetaHash] of the records it was given: it is the same for any
    directory and any disk on which the writes succeed. *)
Theorem writeFiles_returns_metaHash `{Host}
    (workDir : string) (files : list File) (disk disk' : Inode) :
  (ensureWorkDir workDir ;; forOf (writeOne workDir) files) disk = (disk', Ok tt) ->
  exists digest,
    writeFiles workDir files disk = (disk', Ok digest)
    /\ computeMetaHash files = Ok digest
    /\ forall workDir2 disk2 disk2' digest2,
         writeFiles workDir2 files disk2 = (disk2', Ok digest2) -> digest2 = digest.
Proof.
  intros Hrun.
  assert (Hloop : exists d1, forOf (writeOne workDir) files d1 = (disk', Ok tt)).
  { unfold bind in Hrun. destruct (ensureWorkDir workDir disk) as [d1 [[]|e1]]; [|discriminate].
    now exists d1. }
  destruct Hloop as [d1 Hloop].
  destruct (computeMetaHash_total files) as [digest Hdigest].
  { eapply forOf_writeOne_normalizes; eassumption. }
  exists digest. split; [|split; [exact Hdigest|]].
  - rewrite writeFiles_unfold. unfold bind at 1. now rewrite Hrun, Hdigest.
  - intros w2 d2 d2' g2 Hrun2. apply writeFiles_result in Hrun2. congruence.
Qed.

(** C7 on the two records of the end-to-end scenario. *)
Lemma writeFiles_returns_metaHash_witness :
  exists disk' digest,
    writeFiles (H:=exampleHost) "./w" [fileA; fileB] emptyDisk = (disk', Ok digest)
    /\ computeMetaHash (H:=exampleHost) [fileA; fileB] = Ok digest
    /\ forall workDir2 disk2 disk2' digest2,
         writeFiles (H:=exampleHost) workDir2 [fileA; fileB] disk2 = (disk2', Ok digest2) ->
         digest2 = digest.
Proof.
  destruct (writeFiles_returns_metaHash (H:=exampleHost) "./w" [fileA; fileB] emptyDisk
              (fst (writeFiles (H:=exampleHost) "./w" [fileA; fileB] emptyDisk)))
    as (digest & Hrun & Hhash & Hsame).
  - vm_compute. reflexivity.
  - eexists. exists digest. split; [exact Hrun|]. split; [exact Hhash|exact Hsame].
Defined.

(** ** C8 and C9: [readFiles] *)

Section ReadFiles.
Context `{Host}.

Lemma stripBasePath_self (dir : string) : stripBasePath dir dir = Ok ".".
Proof.
  unfold stripBasePath, Path.relative. now rewrite String.eqb_refl.
Qed.

Lemma forAwait_keeps (visit : Dirent -> option (result (list File))) (entries : list Dirent) :
  forall acc files,
    forAwait visit entries acc = Some (Ok files) ->
    forall f, In f acc -> In f files.
Proof.
  induction entries as [|entry rest IH]; intros acc files Hrun f Hf; simpl in Hrun.
  - injection Hrun as <-. exact Hf.
  - destruct (visit entry) as [[pushed|e]|]; try discriminate.
    apply (IH _ _ Hrun). apply in_or_app. now left.
Qed.

Lemma forAwait_visits (visit : Dirent -> option (result (list File))) (entries : list Dirent) :
  forall acc files entry,
    forAwait visit entries acc = Some (Ok files) ->
    In entry entries ->
    exists pushed, visit entry = Some (Ok pushed) /\ forall f, In f pushed -> In f files.
Proof.
  induction entries as [|first rest IH]; intros acc files entry Hrun Hin; simpl in Hrun.
  - destruct Hin.
  - destruct (visit first) as [[pushed|e]|] eqn:Hv; try discriminate.
    destruct Hin as [<-|Hin].
    + exists pushed. split; [exact Hv|].
      intros f Hf. apply (forAwait_keeps _ _ _ _ Hrun). apply in_or_app. now right.
    + apply (IH _ _ _ Hrun Hin).
Qed.

Lemma fileRecord_fields (entryName dir fullPath baseDir : string) (disk : Inode) (f : File) :
  snd (fileRecord entryName dir fullPath baseDir disk) = Ok f ->
  exists relativeParent relativePath,
    stripBasePath dir baseDir = Ok relativeParent
    /\ stripBasePath fullPath baseDir = Ok relativePath
    /\ name f = entryName
    /\ parentPath f = ("./" ++ relativeParent)%string
    /\ path f = ("./" ++ relativePath)%string.
Proof.
  unfold fileRecord, bind, liftResult, ret.
  destruct (stripBasePath dir baseDir) as [relativeParent|]; simpl; [|discriminate].
  destruct (stripBasePath fullPath baseDir) as [relativePath|]; simpl; [|discriminate].
  destruct (fs_readFile fullPath disk) as [d [content|]]; simpl; [|discriminate].
  intros E. injection E as <-. exists relativeParent, relativePath. now repeat split.
Qed.
End ReadFiles.

(** The end-to-end scenario, written in either order and read back: the
    same two (path, content) pairs, in the order the directory yields them. *)
Example readFiles_after_writeFiles_scenario :
  forall files, In files [[fileA; fileB]; [fileB; fileA]] ->
    exists out,
      readFiles (H:=exampleHost) 3 "./w"
        (fst (writeFiles (H:=exampleHost) "./w" files emptyDisk)) = Some (Ok out)
      /\ Permutation (List.map (fun f => (path f, data f)) out)
                     (List.map (fun f => (path f, data f)) files).
Proof.
  intros files [<-|[<-|[]]]; eexists; (split; [vm_compute; reflexivity|]);
    apply Permutation_refl.
Qed.

(** C8 at the failing input. The single record [..c], with [parentPath]
    "./", is written into the fresh directory [./w] without error, and the
    walk of [./w] then throws: [stripBasePath] takes the name for a step out
    of the base. For names that do not begin with two dots the round trip
    holds ([writeFiles_readFiles_round_trip], at the end). *)
Theorem readFiles_after_writeFiles_dotdot_name :
  exists disk digest,
    writeFiles (H:=exampleHost) "./w" [dotDotFile] emptyDisk = (disk, Ok digest)
    /\ Tree.walk ["home"; "user"; "w"; "..c"] disk = inr (RegularFile (utf8 "x"))
    /\ readFiles (H:=exampleHost) 2 "./w" disk = Some (Throw (NotUnderBase "w/..c" "./w")).
Proof. eexists. eexists. repeat split; vm_compute; reflexivity. Qed.

(** The records of the walk of the scenario: the file in [sub] gets "./sub",
    the one at the root "./.". *)
Example readFiles_scenario_records :
  readFiles (H:=exampleHost) 3 "./w"
    (fst (writeFiles (H:=exampleHost) "./w" [fileA; fileB] emptyDisk))
  = Some (Ok [ mkFile "./." "a.txt" "./a.txt" (VBuffer (utf8 "hello"));
               mkFile "./sub" "b.txt" "./sub/b.txt" (VBuffer (utf8 "world")) ]).
Proof. vm_compute. reflexivity. Qed.

(** C9 at the walk root. Every regular file found directly in the directory
    given to [readFiles] gets a record whose [parentPath] is "./." (and not
    "./"): the relative path of the root to itself is empty, which
    [posix.normalize] turns into ".", where the pattern that strips "./" does
    not apply. *)
Theorem readFiles_root_parentPath `{Host}
    (fuel : nat) (dir : string) (disk : Inode) (files : list File)
    (entries : list Dirent) (entry : Dirent) :
  readFiles fuel dir disk = Some (Ok files) ->
  snd (fs_opendir dir disk) = Ok entries ->
  In entry entries ->
  dirent_kind entry = KFile ->
  exists f, In f files /\ name f = dirent_name entry /\ parentPath f = "./.".
Proof.
  intros Hrun Hdir Hin Hkind.
  destruct fuel as [|fuel]; [discriminate|].
  unfold readFiles in Hrun. simpl in Hrun. rewrite Hdir in Hrun.
  destruct (forAwait_visits _ _ _ _ _ Hrun Hin) as (pushed & Hv & Hsub).
  unfold visitEntry in Hv. rewrite Hkind in Hv.
  injection Hv as Hv. unfold rmap, rbind in Hv.
  destruct (snd (fileRecord _ _ _ _ _)) as [f|] eqn:Hf; [|discriminate].
  injection Hv as <-.
  apply fileRecord_fields in Hf as (rp & rl & Hrp & _ & Hname & Hparent & _).
  rewrite stripBasePath_self in Hrp. injection Hrp as <-.
  exists f. repeat split; [apply Hsub; now left|exact Hname|exact Hparent].
Qed.

(** C9 on the directory written from [fileA] and [fileB]: [a.txt] is at the
    root of the walk. *)
Lemma readFiles_root_parentPath_witness :
  let disk := fst (writeFiles (H:=exampleHost) "./w" [fileA; fileB] emptyDisk) in
  exists files,
    readFiles (H:=exampleHost) 3 "./w" disk = Some (Ok files)
    /\ exists f, In f files /\ name f = "a.txt" /\ parentPath f = "./.".
Proof.
  intros disk. eexists. split; [vm_compute; reflexivity|].
  apply (readFiles_root_parentPath (H:=exampleHost) 3 "./w" disk _
           [ {| dirent_name := "a.txt"; dirent_kind := KFile |};
             {| dirent_name := "sub"; dirent_kind := KDirectory |} ]
           {| dirent_name := "a.txt"; dirent_kind := KFile |}).
  - vm_compute. reflexivity.
  - vm_compute. reflexivity.
  - now left.
  - reflexivity.
Defined.

(** ** The round trip of [writeFiles] and [readFiles]

    For records whose segments are tame, that is plain names that do not
    begin with two dots, the walk gives back what was written. *)

Local Close Scope Z_scope.

Lemma split_nonempty (s : string) : Path.split s <> [].
Proof.
  destruct s as [|c s]; simpl; [discriminate|].
  destruct (Path.isSlash c); [discriminate|]. destruct (Path.split s); discriminate.
Qed.

Lemma split_cons_slash (s : string) : Path.split (String "/" s) = "" :: Path.split s.
Proof. reflexivity. Qed.

Lemma split_app_slash (a b : string) :
  Path.split (a ++ String "/" b) = Path.split a ++ Path.split b.
Proof.
  induction a as [|c a IH]; cbv [String.append]; fold String.append.
  - reflexivity.
  - simpl. rewrite IH. destruct (Path.isSlash c); [reflexivity|].
    pose proof (split_nonempty a) as Hne.
    destruct (Path.split a) as [|seg rest]; [congruence|]. reflexivity.
Qed.

Lemma split_slashFree (s : string) : slashFree s = true -> Path.split s = [s].
Proof.
  induction s as [|c s IH]; simpl; [reflexivity|].
  intros Hs. apply andb_prop in Hs as [Hc Hs].
  apply negb_true_iff in Hc. rewrite Hc, (IH Hs). reflexivity.
Qed.

Lemma split_all_slashFree (s : string) : Forall (fun seg => slashFree seg = true) (Path.split s).
Proof.
  induction s as [|c s IH]; simpl; [repeat constructor|].
  destruct (Path.isSlash c) eqn:Ec; [constructor; [reflexivity|exact IH]|].
  destruct (Path.split s) as [|seg rest]; [repeat constructor; simpl; now rewrite Ec|].
  inversion IH; subst. constructor; [simpl; now rewrite Ec|assumption].
Qed.

Lemma unsplit_cons (d d2 : string) (ds : list string) :
  Path.unsplit (d :: d2 :: ds) = (d ++ String "/" (Path.unsplit (d2 :: ds)))%string.
Proof. reflexivity. Qed.

Lemma split_unsplit (segs : list string) :
  Forall (fun seg => slashFree seg = true) segs -> segs <> [] ->
  Path.split (Path.unsplit segs) = segs.
Proof.
  induction segs as [|d segs IH]; intros Hall Hne; [congruence|].
  inversion Hall as [|? ? Hd Hrest]; subst.
  destruct segs as [|d2 segs].
  - now apply split_slashFree.
  - rewrite unsplit_cons, split_app_slash, (split_slashFree d Hd), IH; auto; discriminate.
Qed.

Lemma plain_keepable (l : list string) :
  Forall (fun seg => plainSegment seg = true) l -> Forall (fun seg => keepable seg = true) l.
Proof.
  apply List.Forall_impl. intros seg Hp. unfold plainSegment in Hp.
  now apply andb_prop in Hp as [_ Hp].
Qed.

Lemma plain_slashFree (l : list string) :
  Forall (fun seg => plainSegment seg = true) l -> Forall (fun seg => slashFree seg = true) l.
Proof.
  apply List.Forall_impl. intros seg Hp. unfold plainSegment in Hp.
  now apply andb_prop in Hp as [Hp _].
Qed.

Lemma keepable_cases (seg : string) :
  keepable seg = true ->
  String.eqb seg "" = false /\ String.eqb seg "." = false /\ String.eqb seg ".." = false.
Proof.
  unfold keepable. intros Hk.
  apply andb_prop in Hk as [Hk H3]. apply andb_prop in Hk as [H1 H2].
  now rewrite negb_true_iff in H1, H2, H3.
Qed.

Section Normalize.
Variable above : bool.

Lemma normalizeSegments_app (l1 : list string) :
  forall stack l2,
    Path.normalizeSegments above stack (l1 ++ l2)
    = Path.normalizeSegments above (rev (Path.normalizeSegments above stack l1)) l2.
Proof.
  induction l1 as [|seg l1 IH]; intros stack l2; simpl.
  - now rewrite rev_involutive.
  - destruct (String.eqb seg "" || String.eqb seg "."); [apply IH|].
    destruct (String.eqb seg ".."); [|apply IH].
    destruct stack as [|top below]; [apply IH|].
    destruct (String.eqb top ".."); apply IH.
Qed.

Lemma normalizeSegments_keepable (segs : list string) :
  forall stack,
    Forall (fun seg => keepable seg = true) segs ->
    Path.normalizeSegments above stack segs = rev stack ++ segs.
Proof.
  induction segs as [|seg segs IH]; intros stack Hall; simpl.
  - now rewrite app_nil_r.
  - inversion Hall as [|? ? Hseg Hrest]; subst.
    destruct (keepable_cases seg Hseg) as (-> & -> & ->).
    simpl. rewrite (IH _ Hrest). simpl. now rewrite <- app_assoc.
Qed.

Lemma normalizeSegments_slashFree (segs : list string) :
  forall stack,
    Forall (fun seg => slashFree seg = true) stack ->
    Forall (fun seg => slashFree seg = true) segs ->
    Forall (fun seg => slashFree seg = true) (Path.normalizeSegments above stack segs).
Proof.
  induction segs as [|seg segs IH]; intros stack Hst Hsegs; simpl.
  - now apply Forall_rev.
  - inversion Hsegs as [|? ? Hseg Hrest]; subst.
    destruct (String.eqb seg "" || String.eqb seg "."); [now apply IH|].
    destruct (String.eqb seg "..").
    + destruct stack as [|top below].
      * apply IH; [|assumption]. destruct above; repeat constructor; assumption.
      * inversion Hst; subst. destruct (String.eqb top "..").
        -- apply IH; [|assumption]. destruct above; [constructor|]; assumption.
        -- now apply IH.
    + apply IH; [|assumption]. now constructor.
Qed.

(** Nothing that comes out is empty. *)
Lemma normalizeSegments_nonempty (segs : list string) :
  forall stack,
    Forall (fun seg => String.eqb seg "" = false) stack ->
    Forall (fun seg => String.eqb seg "" = false) (Path.normalizeSegments above stack segs).
Proof.
  induction segs as [|seg segs IH]; intros stack Hst; simpl.
  - now apply Forall_rev.
  - destruct (String.eqb seg "") eqn:E1; simpl; [now apply IH|].
    destruct (String.eqb seg "."); [now apply IH|].
    destruct (String.eqb seg "..").
    + destruct stack as [|top below].
      * apply IH. destruct above; repeat constructor; assumption.
      * inversion Hst; subst. destruct (String.eqb top "..").
        -- apply IH. destruct above; [constructor|]; assumption.
        -- now apply IH.
    + apply IH. now constructor.
Qed.
End Normalize.

Lemma normalizeSegments_plain (above : bool) (segs stack : list string) :
  Forall (fun seg => plainSegment seg = true) segs ->
  Path.normalizeSegments above stack segs = rev stack ++ segs.
Proof. intros Hall. apply normalizeSegments_keepable. now apply plain_keepable. Qed.

(** The segments [normalizeSegments false] returns are plain when those it
    starts from are and the input has no slash. *)
Lemma normalizeSegments_false_plain (segs : list string) :
  forall stack,
    Forall (fun seg => plainSegment seg = true) stack ->
    Forall (fun seg => slashFree seg = true) segs ->
    Forall (fun seg => plainSegment seg = true) (Path.normalizeSegments false stack segs).
Proof.
  induction segs as [|seg segs IH]; intros stack Hst Hsegs; simpl.
  - now apply Forall_rev.
  - inversion Hsegs as [|? ? Hseg Hrest]; subst.
    destruct (String.eqb seg "") eqn:E1; simpl; [now apply IH|].
    destruct (String.eqb seg ".") eqn:E2; simpl; [now apply IH|].
    destruct (String.eqb seg "..") eqn:E3.
    + destruct stack as [|top below]; [now apply IH|].
      inversion Hst; subst.
      destruct (String.eqb top ".."); now apply IH.
    + apply IH; [|assumption]. constructor; [|assumption].
      unfold plainSegment, keepable. now rewrite Hseg, E1, E2, E3.
Qed.

Lemma skipn_tl {A} (k : nat) : forall l : list A, List.tl (skipn k l) = skipn (S k) l.
Proof. induction k as [|k IH]; intros [|x l]; simpl; auto. Qed.

(** Climbing [k] levels from a stack without "..". *)
Lemma normalizeSegments_pops (k : nat) :
  forall stack l,
    Forall (fun seg => keepable seg = true) stack ->
    Path.normalizeSegments false stack (repeat ".." k ++ l)
    = Path.normalizeSegments false (skipn k stack) l.
Proof.
  induction k as [|k IH]; intros stack l Hst; [reflexivity|].
  simpl repeat. simpl app. simpl Path.normalizeSegments.
  destruct stack as [|top below].
  - rewrite (IH [] l Hst). now destruct k.
  - inversion Hst as [|? ? Htop Hbelow]; subst.
    destruct (keepable_cases top Htop) as (_ & _ & ->).
    now rewrite (IH below l Hbelow).
Qed.

(** Normalizing a relative path first, keeping the steps above its start,
    and resolving the result against a directory gives what resolving the
    path itself gives. *)
Lemma normalizeSegments_true_false (l : list string) :
  forall kept k stack,
    Forall (fun seg => keepable seg = true) kept ->
    Forall (fun seg => keepable seg = true) stack ->
    Path.normalizeSegments false stack
      (Path.normalizeSegments true (kept ++ repeat ".." k) l)
    = Path.normalizeSegments false (kept ++ skipn k stack) l.
Proof.
  induction l as [|seg l IH]; intros kept k stack Hkept Hst.
  - simpl. rewrite rev_app_distr, rev_repeat, normalizeSegments_pops by assumption.
    rewrite normalizeSegments_keepable by now apply Forall_rev.
    now rewrite rev_app_distr.
  - simpl.
    destruct (String.eqb seg "") eqn:E1; simpl; [now apply IH|].
    destruct (String.eqb seg ".") eqn:E2; simpl; [now apply IH|].
    destruct (String.eqb seg "..") eqn:E3.
    + destruct kept as [|top below].
      * apply String.eqb_eq in E3. subst seg. simpl app.
        transitivity (Path.normalizeSegments false stack
                        (Path.normalizeSegments true ([] ++ repeat ".." (S k)) l)).
        { f_equal. destruct k; reflexivity. }
        rewrite (IH [] (S k) stack Hkept Hst). simpl app. rewrite <- skipn_tl.
        destruct (skipn k stack) as [|s rest] eqn:Esk; [reflexivity|].
        assert (Hs : keepable s = true).
        { assert (Hin : In s (skipn k stack)) by (rewrite Esk; now left).
          rewrite List.Forall_forall in Hst. apply Hst.
          rewrite <- (firstn_skipn k stack). apply in_or_app. now right. }
        destruct (keepable_cases s Hs) as (_ & _ & ->). reflexivity.
      * inversion Hkept as [|? ? Htop Hbelow]; subst.
        destruct (keepable_cases top Htop) as (_ & _ & Etop).
        simpl. rewrite Etop. now apply IH.
    + change (seg :: kept ++ repeat ".." k) with ((seg :: kept) ++ repeat ".." k).
      change (seg :: kept ++ skipn k stack) with ((seg :: kept) ++ skipn k stack).
      apply IH; [|assumption]. constructor; [|assumption].
      unfold keepable. now rewrite E1, E2, E3.
Qed.

(** ** Resolution of paths *)

Lemma startsWithSlash_app (a b : string) :
  a <> "" -> Path.startsWithSlash (a ++ b) = Path.startsWithSlash a.
Proof. destruct a; [congruence|reflexivity]. Qed.

Lemma append_nonempty (a b : string) : a <> "" -> String.eqb (a ++ b) "" = false.
Proof. destruct a; [congruence|reflexivity]. Qed.

Lemma eqb_empty_false (a : string) : String.eqb a "" = false -> a <> "".
Proof. intros E ->. discriminate E. Qed.

Lemma slash_append (b : string) : ("/" ++ b)%string = String "/" b.
Proof. reflexivity. Qed.

Lemma append_empty_r (a : string) : (a ++ "")%string = a.
Proof. induction a as [|c a IH]; cbv [String.append]; fold String.append; [reflexivity|now rewrite IH]. Qed.

Lemma plain_nonempty (l : list string) :
  Forall (fun seg => plainSegment seg = true) l -> Forall (fun seg => String.eqb seg "" = false) l.
Proof.
  intros Hl. apply plain_keepable in Hl. revert Hl. apply List.Forall_impl.
  intros seg Hk. now destruct (keepable_cases seg Hk).
Qed.

Lemma unsplit_empty (l : list string) :
  Path.unsplit l = "" -> Forall (fun seg => String.eqb seg "" = false) l -> l = [].
Proof.
  destruct l as [|d [|d2 l]]; intros E Hne; [reflexivity| |].
  - change (d = "") in E. subst d. inversion Hne; subst. discriminate.
  - rewrite unsplit_cons in E. inversion Hne; subst.
    destruct d; [discriminate|discriminate E].
Qed.

Lemma unsplit_relative (l : list string) :
  Forall (fun seg => slashFree seg = true) l ->
  Forall (fun seg => String.eqb seg "" = false) l ->
  Path.startsWithSlash (Path.unsplit l) = false.
Proof.
  destruct l as [|d l]; intros Hsf Hne; [reflexivity|].
  inversion Hsf as [|? ? Hd _]; subst. inversion Hne as [|? ? Hd' _]; subst.
  destruct d as [|c d]; [discriminate|].
  simpl in Hd. apply andb_prop in Hd as [Hc _]. apply negb_true_iff in Hc.
  destruct l; [exact Hc|]. rewrite unsplit_cons. exact Hc.
Qed.

Section Resolve.
Context `{Host}.

Lemma resolveSegments_absolute (p : string) :
  Path.startsWithSlash p = true ->
  Path.resolveSegments p = Path.normalizeSegments false [] (Path.split p).
Proof. unfold Path.resolveSegments. now intros ->. Qed.

Lemma resolveSegments_relative (p : string) :
  Path.startsWithSlash p = false ->
  Path.resolveSegments p
  = Path.normalizeSegments false (rev (Path.resolveSegments "")) (Path.split p).
Proof.
  intros Hrel. unfold Path.resolveSegments. rewrite Hrel.
  change (Path.startsWithSlash "") with false. cbv iota.
  change (String.eqb "" "") with true. cbv iota.
  destruct (String.eqb p "") eqn:Ep.
  - apply String.eqb_eq in Ep. subst p.
    change (Path.split "") with [""].
    change (Path.normalizeSegments false (rev (Path.normalizeSegments false [] (Path.split cwd))) [""])
      with (rev (rev (Path.normalizeSegments false [] (Path.split cwd)))).
    now rewrite rev_involutive.
  - rewrite slash_append, split_app_slash. apply normalizeSegments_app.
Qed.

Lemma resolveSegments_plain (p : string) :
  Forall (fun seg => plainSegment seg = true) (Path.resolveSegments p).
Proof.
  unfold Path.resolveSegments.
  apply normalizeSegments_false_plain; [constructor|apply split_all_slashFree].
Qed.

Lemma resolveSegments_keepable (p : string) :
  Forall (fun seg => keepable seg = true) (Path.resolveSegments p).
Proof. apply plain_keepable, resolveSegments_plain. Qed.

Lemma resolveSegments_concat (a b : string) :
  a <> "" ->
  Path.resolveSegments (a ++ "/" ++ b)
  = Path.normalizeSegments false (rev (Path.resolveSegments a)) (Path.split b).
Proof.
  intros Ha. destruct (Path.startsWithSlash a) eqn:Eabs.
  - rewrite (resolveSegments_absolute a Eabs).
    rewrite (resolveSegments_absolute (a ++ "/" ++ b))
      by now rewrite startsWithSlash_app.
    rewrite slash_append, split_app_slash. apply normalizeSegments_app.
  - rewrite (resolveSegments_relative a Eabs).
    rewrite (resolveSegments_relative (a ++ "/" ++ b))
      by now rewrite startsWithSlash_app.
    rewrite slash_append, split_app_slash. apply normalizeSegments_app.
Qed.

Lemma resolveSegments_dot : Path.resolveSegments "." = Path.resolveSegments "".
Proof.
  rewrite (resolveSegments_relative ".") by reflexivity.
  change (Path.normalizeSegments false (rev (Path.resolveSegments "")) (Path.split "."))
    with (rev (rev (Path.resolveSegments ""))).
  apply rev_involutive.
Qed.

Lemma resolveSegments_dotslash : Path.resolveSegments "./" = Path.resolveSegments "".
Proof.
  rewrite (resolveSegments_relative "./") by reflexivity.
  change (Path.normalizeSegments false (rev (Path.resolveSegments "")) (Path.split "./"))
    with (rev (rev (Path.resolveSegments ""))).
  apply rev_involutive.
Qed.

Lemma resolveSegments_normalize (y : string) :
  Path.resolveSegments (Path.normalize y) = Path.resolveSegments y.
Proof.
  unfold Path.normalize.
  destruct (String.eqb y "") eqn:Ey.
  { apply String.eqb_eq in Ey. subst y. apply resolveSegments_dot. }
  unfold Path.normalizeString.
  destruct (Path.startsWithSlash y) eqn:Eabs; cbv [negb].
  - (* absolute *)
    rewrite (resolveSegments_absolute y Eabs).
    pose proof (normalizeSegments_false_plain (Path.split y) [] (List.Forall_nil _)
                  (split_all_slashFree y)) as Hplain.
    set (L := Path.normalizeSegments false [] (Path.split y)) in *.
    destruct (String.eqb (Path.unsplit L) "") eqn:Ep.
    + apply String.eqb_eq in Ep. apply unsplit_empty in Ep; [|now apply plain_nonempty].
      now rewrite Ep.
    + assert (HL : L <> []) by (intros E; rewrite E in Ep; discriminate Ep).
      rewrite resolveSegments_absolute by reflexivity.
      rewrite slash_append, split_cons_slash.
      change (Path.normalizeSegments false [] ("" :: ?l))
        with (Path.normalizeSegments false [] l).
      destruct (Path.endsWithSlash y).
      * rewrite split_app_slash, split_unsplit by (auto using plain_slashFree).
        rewrite normalizeSegments_app, (normalizeSegments_plain false L []) by assumption.
        simpl. apply rev_involutive.
      * rewrite append_empty_r, split_unsplit by (auto using plain_slashFree).
        now rewrite (normalizeSegments_plain false L []).
  - (* relative *)
    rewrite (resolveSegments_relative y Eabs).
    pose proof (normalizeSegments_true_false (Path.split y) [] 0
                  (rev (Path.resolveSegments "")) (List.Forall_nil _)
                  (Forall_rev (resolveSegments_keepable ""))) as Htf.
    change ([] ++ repeat ".." 0) with (@nil string) in Htf.
    change ([] ++ skipn 0 (rev (Path.resolveSegments "")))
      with (rev (Path.resolveSegments "")) in Htf.
    rewrite <- Htf. clear Htf.
    pose proof (normalizeSegments_slashFree true (Path.split y) [] (List.Forall_nil _)
                  (split_all_slashFree y)) as Hsf.
    pose proof (normalizeSegments_nonempty true (Path.split y) [] (List.Forall_nil _)) as Hne.
    set (L := Path.normalizeSegments true [] (Path.split y)) in *.
    destruct (String.eqb (Path.unsplit L) "") eqn:Ep.
    + apply String.eqb_eq in Ep. apply unsplit_empty in Ep; [|assumption].
      rewrite Ep.
      change (Path.normalizeSegments false (rev (Path.resolveSegments "")) [])
        with (rev (rev (Path.resolveSegments ""))).
      rewrite rev_involutive.
      destruct (Path.endsWithSlash y); [apply resolveSegments_dotslash|apply resolveSegments_dot].
    + assert (HL : L <> []) by (intros E; rewrite E in Ep; discriminate Ep).
      change ("" ++ ?x)%string with x.
      assert (Hrel : forall t, Path.startsWithSlash (Path.unsplit L ++ t) = false).
      { intros t. rewrite startsWithSlash_app by now apply eqb_empty_false.
        now apply unsplit_relative. }
      rewrite resolveSegments_relative by apply Hrel.
      destruct (Path.endsWithSlash y).
      * rewrite split_app_slash, split_unsplit by assumption.
        rewrite normalizeSegments_app. simpl. now rewrite rev_involutive.
      * now rewrite append_empty_r, split_unsplit by assumption.
Qed.
End Resolve.

Lemma endsWithSlash_cons (c : ascii) (s : string) :
  s <> "" -> Path.endsWithSlash (String c s) = Path.endsWithSlash s.
Proof. destruct s; [congruence|reflexivity]. Qed.

Lemma endsWithSlash_app (a t : string) :
  t <> "" -> Path.endsWithSlash (a ++ t) = Path.endsWithSlash t.
Proof.
  intros Ht. induction a as [|c a IH]; cbv [String.append]; fold String.append; [reflexivity|].
  rewrite endsWithSlash_cons; [exact IH|]. destruct a; [exact Ht|discriminate].
Qed.

Lemma endsWithSlash_slashFree (s : string) : slashFree s = true -> Path.endsWithSlash s = false.
Proof.
  induction s as [|c s IH]; [reflexivity|]. simpl slashFree. intros Hs.
  apply andb_prop in Hs as [Hc Hs]. apply negb_true_iff in Hc.
  destruct s as [|c2 s]; [exact Hc|]. rewrite endsWithSlash_cons by discriminate. now apply IH.
Qed.

Lemma unsplit_nonempty (l : list string) :
  l <> [] -> Forall (fun seg => String.eqb seg "" = false) l -> Path.unsplit l <> "".
Proof.
  intros Hl Hne E. apply Hl. now apply unsplit_empty.
Qed.

Lemma endsWithSlash_unsplit (l : list string) :
  Forall (fun seg => slashFree seg = true) l ->
  Forall (fun seg => String.eqb seg "" = false) l ->
  Path.endsWithSlash (Path.unsplit l) = false.
Proof.
  induction l as [|d l IH]; intros Hsf Hne; [reflexivity|].
  inversion Hsf; subst. inversion Hne; subst.
  destruct l as [|d2 l]; [now apply endsWithSlash_slashFree|].
  rewrite unsplit_cons, endsWithSlash_app by discriminate.
  rewrite endsWithSlash_cons by (apply unsplit_nonempty; [discriminate|assumption]).
  now apply IH.
Qed.

Lemma append_cons_assoc (d u t : string) (c : ascii) :
  ((d ++ String c u) ++ t)%string = (d ++ String c (u ++ t))%string.
Proof.
  induction d as [|c1 d IH]; cbv [String.append]; fold String.append; [reflexivity|].
  now rewrite IH.
Qed.

Lemma unsplit_snoc (l : list string) (nm : string) :
  l <> [] -> Path.unsplit (l ++ [nm]) = (Path.unsplit l ++ String "/" nm)%string.
Proof.
  induction l as [|d l IH]; intros Hl; [congruence|].
  destruct l as [|d2 l]; [reflexivity|].
  change (Path.unsplit ((d :: d2 :: l) ++ [nm]))
    with (d ++ String "/" (Path.unsplit ((d2 :: l) ++ [nm])))%string.
  rewrite IH by discriminate.
  rewrite unsplit_cons. now rewrite append_cons_assoc.
Qed.

(** [posix.normalize] leaves a relative path made of plain segments as it is. *)
Lemma normalize_plain (l : list string) :
  Forall (fun seg => plainSegment seg = true) l -> l <> [] ->
  Path.normalize (Path.unsplit l) = Path.unsplit l.
Proof.
  intros Hplain Hl.
  pose proof (plain_slashFree l Hplain) as Hsf.
  pose proof (plain_nonempty l Hplain) as Hne.
  pose proof (unsplit_nonempty l Hl Hne) as Hu.
  unfold Path.normalize, Path.normalizeString.
  destruct (String.eqb (Path.unsplit l) "") eqn:E; [apply String.eqb_eq in E; congruence|].
  rewrite (unsplit_relative l Hsf Hne), (endsWithSlash_unsplit l Hsf Hne). cbv [negb].
  rewrite (split_unsplit l Hsf Hl), (normalizeSegments_plain true l [] Hplain).
  change (rev [] ++ l) with l. rewrite E.
  change ("" ++ ?x)%string with x. apply append_empty_r.
Qed.

Lemma normalize_nonempty (y : string) : Path.normalize y <> "".
Proof.
  unfold Path.normalize.
  destruct (String.eqb y ""); [discriminate|].
  destruct (String.eqb (Path.normalizeString y (negb (Path.startsWithSlash y))) "") eqn:Ep.
  - destruct (Path.startsWithSlash y); [discriminate|].
    destruct (Path.endsWithSlash y); discriminate.
  - apply eqb_empty_false in Ep.
    destruct (Path.startsWithSlash y); [discriminate|].
    change ("" ++ ?x)%string with x.
    destruct (Path.normalizeString y (negb false)); [congruence|discriminate].
Qed.

Lemma join_nonempty (a b : string) : Path.join a b <> "".
Proof.
  unfold Path.join.
  destruct (List.filter _ [a; b]); [discriminate|apply normalize_nonempty].
Qed.

Lemma stripDotSlash_plain (d : string) (rest : list string) :
  plainSegment d = true -> stripDotSlash (Path.unsplit (d :: rest)) = Path.unsplit (d :: rest).
Proof.
  intros Hd. unfold plainSegment in Hd. apply andb_prop in Hd as [Hsf Hk].
  destruct (keepable_cases d Hk) as (Hne & Hdot & _).
  destruct d as [|c1 [|c2 d]]; [discriminate| |].
  - destruct rest as [|d2 rest]; [reflexivity|].
    rewrite unsplit_cons. cbv [String.append]. unfold stripDotSlash.
    destruct (Ascii.eqb c1 ".") eqn:Ec; [|reflexivity].
    apply Ascii.eqb_eq in Ec. subst c1. discriminate Hdot.
  - simpl in Hsf. apply andb_prop in Hsf as [_ Hsf]. apply andb_prop in Hsf as [Hc2 _].
    apply negb_true_iff in Hc2.
    destruct rest as [|d2 rest].
    + change (Path.unsplit [String c1 (String c2 d)]) with (String c1 (String c2 d)).
      unfold stripDotSlash. rewrite Hc2. now rewrite andb_false_r.
    + rewrite unsplit_cons. cbv [String.append]; fold String.append.
      unfold stripDotSlash. rewrite Hc2. now rewrite andb_false_r.
Qed.

Section Paths.
Context `{Host}.

Lemma resolveSegments_join (a b : string) :
  a <> "" ->
  Path.resolveSegments (Path.join a b)
  = Path.normalizeSegments false (rev (Path.resolveSegments a)) (Path.split b).
Proof.
  intros Ha. unfold Path.join. cbn [List.filter].
  destruct (String.eqb a "") eqn:Ea; [apply String.eqb_eq in Ea; congruence|].
  cbv [negb]. destruct (String.eqb b "") eqn:Eb; cbv [negb].
  - apply String.eqb_eq in Eb. subst b.
    change (Path.unsplit [a]) with a. rewrite resolveSegments_normalize.
    change (Path.normalizeSegments false (rev (Path.resolveSegments a)) (Path.split ""))
      with (rev (rev (Path.resolveSegments a))).
    now rewrite rev_involutive.
  - change (Path.unsplit [a; b]) with (a ++ "/" ++ b)%string.
    rewrite resolveSegments_normalize. now apply resolveSegments_concat.
Qed.

(** Joining an entry name to a directory path adds one segment. *)
Lemma resolveSegments_join_name (a nm : string) :
  a <> "" -> plainSegment nm = true ->
  Path.resolveSegments (Path.join a nm) = Path.resolveSegments a ++ [nm].
Proof.
  intros Ha Hnm. rewrite resolveSegments_join by assumption.
  unfold plainSegment in Hnm. apply andb_prop in Hnm as [Hsf Hk].
  rewrite (split_slashFree nm Hsf).
  rewrite normalizeSegments_keepable by (repeat constructor; assumption).
  now rewrite rev_involutive.
Qed.

(** Joining a relative directory path that does not climb adds its segments. *)
Lemma resolveSegments_join_dir (a parent : string) :
  a <> "" ->
  Forall (fun seg => keepable seg = true)
         (Path.normalizeSegments true [] (Path.split parent)) ->
  Path.resolveSegments (Path.join a parent)
  = Path.resolveSegments a ++ Path.normalizeSegments true [] (Path.split parent).
Proof.
  intros Ha Hk. rewrite resolveSegments_join by assumption.
  pose proof (normalizeSegments_true_false (Path.split parent) [] 0
                (rev (Path.resolveSegments a)) (List.Forall_nil _)
                (Forall_rev (resolveSegments_keepable a))) as Htf.
  change ([] ++ repeat ".." 0) with (@nil string) in Htf.
  change ([] ++ skipn 0 (rev (Path.resolveSegments a)))
    with (rev (Path.resolveSegments a)) in Htf.
  rewrite <- Htf. rewrite normalizeSegments_keepable by assumption.
  now rewrite rev_involutive.
Qed.

Lemma endsWithSlash_join_name (a nm : string) :
  a <> "" -> plainSegment nm = true -> Path.endsWithSlash (Path.join a nm) = false.
Proof.
  intros Ha Hnm. pose proof Hnm as Hnm'.
  unfold plainSegment in Hnm'. apply andb_prop in Hnm' as [Hsf Hk].
  destruct (keepable_cases nm Hk) as (Hne & _ & _).
  unfold Path.join. cbn [List.filter].
  destruct (String.eqb a "") eqn:Ea; [apply String.eqb_eq in Ea; congruence|].
  rewrite Hne. cbv [negb].
  change (Path.unsplit [a; nm]) with (a ++ String "/" nm)%string.
  unfold Path.normalize, Path.normalizeString.
  rewrite append_nonempty by assumption.
  rewrite (endsWithSlash_app a (String "/" nm)) by discriminate.
  rewrite endsWithSlash_cons by now apply eqb_empty_false.
  rewrite (endsWithSlash_slashFree nm Hsf).
  rewrite split_app_slash, (split_slashFree nm Hsf), normalizeSegments_app.
  rewrite (normalizeSegments_keepable _ [nm]) by (repeat constructor; assumption).
  rewrite rev_involutive.
  set (above := negb (Path.startsWithSlash (a ++ String "/" nm))).
  pose proof (normalizeSegments_slashFree above (Path.split a) [] (List.Forall_nil _)
                (split_all_slashFree a)) as HLsf.
  pose proof (normalizeSegments_nonempty above (Path.split a) [] (List.Forall_nil _)) as HLne.
  set (L := Path.normalizeSegments above [] (Path.split a)) in *.
  assert (Hsf' : Forall (fun seg => slashFree seg = true) (L ++ [nm])).
  { apply Forall_app. split; [assumption|]. now repeat constructor. }
  assert (Hne' : Forall (fun seg => String.eqb seg "" = false) (L ++ [nm])).
  { apply Forall_app. split; [assumption|]. now repeat constructor. }
  assert (Hu : Path.unsplit (L ++ [nm]) <> "").
  { apply unsplit_nonempty; [now destruct L|assumption]. }
  destruct (String.eqb (Path.unsplit (L ++ [nm])) "") eqn:Eu;
    [apply String.eqb_eq in Eu; congruence|].
  rewrite append_empty_r.
  destruct (Path.startsWithSlash (a ++ String "/" nm)).
  - rewrite slash_append, endsWithSlash_cons by assumption.
    now apply endsWithSlash_unsplit.
  - change ("" ++ ?x)%string with x. now apply endsWithSlash_unsplit.
Qed.

(** [stripBasePath] on a path under the base whose segments below the base
    are plain and do not begin with two dots. *)
Lemma stripBasePath_under (fullPath basePath : string) (down : list string) :
  under fullPath basePath down ->
  Forall (fun seg => tameSegment seg = true) down ->
  stripBasePath fullPath basePath
  = Ok (match down with [] => "." | _ => Path.unsplit down end).
Proof.
  unfold under. intros Hu Htame.
  assert (Hroot : forall s, s = "" ->
            (if String.prefix ".." s then Throw (NotUnderBase fullPath basePath)
             else Ok (stripDotSlash (Path.normalize s))) = Ok ".").
  { intros s ->. reflexivity. }
  unfold stripBasePath, Path.relative.
  destruct (String.eqb basePath fullPath) eqn:Esame.
  - apply String.eqb_eq in Esame. subst fullPath.
    assert (down = []) as ->.
    { apply (app_inv_head (Path.resolveSegments basePath)). now rewrite app_nil_r. }
    now apply Hroot.
  - rewrite Hu, dropCommon_app. cbn [List.map app].
    destruct down as [|d rest]; [now apply Hroot|].
    inversion Htame as [|? ? Hd Hrest]; subst.
    unfold tameSegment in Hd. apply andb_prop in Hd as [Hplain Hpre].
    apply negb_true_iff in Hpre.
    rewrite prefix_dotdot_unsplit, Hpre.
    assert (Hall : Forall (fun seg => plainSegment seg = true) (d :: rest)).
    { constructor; [assumption|]. revert Hrest. apply List.Forall_impl.
      intros seg Hs. unfold tameSegment in Hs. now apply andb_prop in Hs as [Hs _]. }
    rewrite normalize_plain by (try assumption; discriminate).
    now rewrite stripDotSlash_plain.
Qed.
End Paths.

Lemma recordsUnder_cons (ds : list string) (k : string) (child : Inode) (rest : list (string * Inode)) :
  recordsUnder ds (Directory ((k, child) :: rest))
  = match child with
    | RegularFile content => [recordOf ds k content]
    | Directory _ => recordsUnder (ds ++ [k]) child
    | Special => []
    end ++ recordsUnder ds (Directory rest).
Proof. reflexivity. Qed.

Lemma tidy_cons (k : string) (child : Inode) (rest : list (string * Inode)) :
  tidy (Directory ((k, child) :: rest))
  <-> ~ In k (List.map fst rest) /\ tameSegment k = true /\ tidy child /\ tidy (Directory rest).
Proof.
  simpl. split.
  - intros [Hnd (Hk & Hc & Hall)]. inversion Hnd; subst. repeat split; assumption.
  - intros (Hnin & Hk & Hc & Hnd & Hall). repeat split; try assumption. now constructor.
Qed.

Lemma height_cons (k : string) (child : Inode) (rest : list (string * Inode)) :
  height (Directory ((k, child) :: rest))
  = S (Nat.max (height child) (Nat.pred (height (Directory rest)))).
Proof. reflexivity. Qed.

Lemma walk_app (p : list string) :
  forall q n,
    Tree.walk (p ++ q) n
    = match Tree.walk p n with
      | inr m => Tree.walk q m
      | inl code => inl code
      end.
Proof.
  induction p as [|s p IH]; intros q n; [reflexivity|].
  simpl. destruct n as [|es|]; try reflexivity.
  destruct (Tree.entryOf s es); [apply IH|reflexivity].
Qed.

Lemma tame_plain (s : string) : tameSegment s = true -> plainSegment s = true.
Proof. unfold tameSegment. intros Hs. now apply andb_prop in Hs as [Hs _]. Qed.

Section ReadSide.
Context `{Host}.
Variables (baseDir : string) (disk : Inode).

(** The loop over the entries [es] of the directory [dir], which is [ds]
    below the base. *)
Lemma forAwait_entries (fuel : nat) (dir : string) (ds : list string) :
  (forall sub ds' es',
      sub <> "" -> under sub baseDir ds' ->
      Forall (fun seg => tameSegment seg = true) ds' ->
      Tree.walk (Path.resolveSegments sub) disk = inr (Directory es') ->
      tidy (Directory es') -> height (Directory es') <= fuel ->
      readFilesFrom fuel sub baseDir disk = Some (Ok (recordsUnder ds' (Directory es')))) ->
  dir <> "" -> under dir baseDir ds ->
  Forall (fun seg => tameSegment seg = true) ds ->
  forall es acc,
    (forall k child, In (k, child) es ->
       Tree.walk (Path.resolveSegments dir ++ [k]) disk = inr child) ->
    tidy (Directory es) -> height (Directory es) <= S fuel ->
    forAwait (visitEntry (fun sub => readFilesFrom fuel sub baseDir disk) dir baseDir disk)
      (List.map (fun e => {| dirent_name := fst e; dirent_kind := kindOf (snd e) |}) es) acc
    = Some (Ok (acc ++ recordsUnder ds (Directory es))).
Proof.
  intros IH Hdir Hunder Hds.
  induction es as [|[k child] es IHes]; intros acc Hwalk Htidy Hheight.
  - simpl. now rewrite app_nil_r.
  - apply tidy_cons in Htidy as (Hnin & Hk & Hchild & Hrest).
    rewrite height_cons in Hheight.
    assert (Hplain : plainSegment k = true) by now apply tame_plain.
    assert (Hfull : Path.resolveSegments (Path.join dir k) = Path.resolveSegments dir ++ [k])
      by now apply resolveSegments_join_name.
    assert (Hunder' : under (Path.join dir k) baseDir (ds ++ [k])).
    { unfold under in *. now rewrite Hfull, Hunder, <- app_assoc. }
    assert (Hds' : Forall (fun seg => tameSegment seg = true) (ds ++ [k])).
    { apply Forall_app. split; [assumption|now repeat constructor]. }
    assert (Hhere : Tree.walk (Path.resolveSegments (Path.join dir k)) disk = inr child).
    { rewrite Hfull. apply Hwalk. now left. }
    rewrite recordsUnder_cons. cbn [List.map forAwait fst snd].
    unfold visitEntry at 1. cbn [dirent_name dirent_kind].
    assert (Hnext : forall pushed,
               forAwait (visitEntry (fun sub => readFilesFrom fuel sub baseDir disk) dir baseDir disk)
                 (List.map (fun e => {| dirent_name := fst e; dirent_kind := kindOf (snd e) |}) es)
                 (acc ++ pushed)
               = Some (Ok (acc ++ pushed ++ recordsUnder ds (Directory es)))).
    { intros pushed. rewrite app_assoc. apply IHes.
      - intros k' c' Hin. apply Hwalk. now right.
      - assumption.
      - destruct (height (Directory es)); simpl in *; lia. }
    destruct child as [content|es'|]; cbn [kindOf].
    + (* a regular file *)
      unfold fileRecord, bind, liftResult, ret.
      rewrite (stripBasePath_under dir baseDir ds Hunder Hds).
      rewrite (stripBasePath_under (Path.join dir k) baseDir (ds ++ [k]) Hunder' Hds').
      unfold fs_readFile, locate.
      destruct (String.eqb (Path.join dir k) "") eqn:Ej;
        [apply String.eqb_eq in Ej; now apply join_nonempty in Ej|].
      rewrite Hhere, (endsWithSlash_join_name dir k Hdir Hplain).
      cbn [andb snd rmap rbind].
      replace (match ds ++ [k] with [] => "." | _ :: _ => Path.unsplit (ds ++ [k]) end)
        with (Path.unsplit (ds ++ [k])) by now destruct ds.
      apply (Hnext [recordOf ds k content]).
    + (* a directory *)
      rewrite (IH (Path.join dir k) (ds ++ [k]) es'); try assumption.
      * apply Hnext.
      * apply join_nonempty.
      * lia.
    + destruct Hchild.
Qed.
End ReadSide.

Lemma entryOf_In (es : list (string * Inode)) (k : string) (child : Inode) :
  List.NoDup (List.map fst es) -> In (k, child) es -> Tree.entryOf k es = Some child.
Proof.
  induction es as [|[k' c'] es IH]; intros Hnd Hin; [destruct Hin|].
  simpl in Hnd. inversion Hnd as [|? ? Hnin Hnd']; subst.
  simpl. destruct Hin as [E|Hin].
  - injection E as -> ->. now rewrite String.eqb_refl.
  - destruct (String.eqb k' k) eqn:Ek; [|now apply IH].
    apply String.eqb_eq in Ek. subst k'. exfalso. apply Hnin.
    apply in_map_iff. now exists (k, child).
Qed.

Section ReadTree.
Context `{Host}.
Variables (baseDir : string) (disk : Inode).

(** Enough fuel gives the records of the tree. *)
Lemma readFilesFrom_records (fuel : nat) :
  forall sub ds es,
    sub <> "" -> under sub baseDir ds ->
    Forall (fun seg => tameSegment seg = true) ds ->
    Tree.walk (Path.resolveSegments sub) disk = inr (Directory es) ->
    tidy (Directory es) -> height (Directory es) <= fuel ->
    readFilesFrom fuel sub baseDir disk = Some (Ok (recordsUnder ds (Directory es))).
Proof.
  induction fuel as [|fuel IH]; intros sub ds es Hsub Hunder Hds Hwalk Htidy Hheight.
  - simpl in Hheight. lia.
  - cbn [readFilesFrom]. unfold fs_opendir, locate.
    destruct (String.eqb sub "") eqn:Es; [apply String.eqb_eq in Es; congruence|].
    rewrite Hwalk. cbn [kindOf isDirectory negb]. rewrite andb_false_r. cbn [snd].
    rewrite (forAwait_entries baseDir disk fuel sub ds IH Hsub Hunder Hds es []); try assumption.
    + reflexivity.
    + intros k child Hin. rewrite walk_app, Hwalk. cbn [Tree.walk].
      destruct Htidy as [Hnd _]. now rewrite (entryOf_In es k child Hnd Hin).
Qed.
End ReadTree.

Lemma recordsUnder_entry (ds : list string) (k : string) (child : Inode)
    (rest : list (string * Inode)) :
  recordsUnder ds (Directory ((k, child) :: rest))
  = contribution ds k child ++ recordsUnder ds (Directory rest).
Proof. reflexivity. Qed.

Lemma recordsUnder_snoc (ds : list string) (es : list (string * Inode)) (k : string) (child : Inode) :
  recordsUnder ds (Directory (es ++ [(k, child)]))
  = recordsUnder ds (Directory es) ++ contribution ds k child.
Proof.
  induction es as [|[k' c'] es IH].
  - rewrite app_nil_l, recordsUnder_entry. simpl. now rewrite app_nil_r.
  - change (((k', c') :: es) ++ [(k, child)]) with ((k', c') :: (es ++ [(k, child)])).
    rewrite !recordsUnder_entry, IH. now rewrite app_assoc.
Qed.

Lemma setEntry_fresh (s : string) (node : Inode) (es : list (string * Inode)) :
  Tree.entryOf s es = None -> Tree.setEntry s node es = es ++ [(s, node)].
Proof.
  induction es as [|[k n] es IH]; simpl; [reflexivity|].
  destruct (String.eqb k s); [discriminate|]. intros E. now rewrite IH.
Qed.

Lemma setEntry_same (s : string) (child : Inode) (es : list (string * Inode)) :
  Tree.entryOf s es = Some child -> Tree.setEntry s child es = es.
Proof.
  induction es as [|[k n] es IH]; simpl; [discriminate|].
  destruct (String.eqb k s); [now intros [= ->]|]. intros E. now rewrite IH.
Qed.

Lemma entryOf_none_keys (s : string) (es : list (string * Inode)) :
  Tree.entryOf s es = None -> ~ In s (List.map fst es).
Proof.
  induction es as [|[k n] es IH]; simpl; [tauto|].
  destruct (String.eqb k s) eqn:E; [discriminate|].
  apply String.eqb_neq in E. intros Hn [Hk|Hin]; [congruence|now apply IH].
Qed.

Lemma setEntry_keys_some (s : string) (child node : Inode) (es : list (string * Inode)) :
  Tree.entryOf s es = Some child ->
  List.map fst (Tree.setEntry s node es) = List.map fst es.
Proof.
  induction es as [|[k n] es IH]; simpl; [discriminate|].
  destruct (String.eqb k s); [reflexivity|]. intros E. simpl. now rewrite IH.
Qed.

(** Replacing the child of an existing entry: the records change as those of
    the child do. *)
Lemma records_setEntry (ds : list string) (s : string) (child child' : Inode) (extra : list File)
    (es : list (string * Inode)) :
  Tree.entryOf s es = Some child ->
  Permutation (contribution ds s child') (extra ++ contribution ds s child) ->
  Permutation (recordsUnder ds (Directory (Tree.setEntry s child' es)))
              (extra ++ recordsUnder ds (Directory es)).
Proof.
  intros Hentry Hperm. induction es as [|[k n] es IH]; [discriminate|].
  simpl in Hentry. cbn [Tree.setEntry]. destruct (String.eqb k s) eqn:E.
  - injection Hentry as ->. apply String.eqb_eq in E. subst k.
    rewrite !recordsUnder_entry, Hperm. now rewrite app_assoc.
  - rewrite !recordsUnder_entry, (IH Hentry).
    rewrite !app_assoc. apply Permutation_app_tail, Permutation_app_comm.
Qed.

Lemma tidy_all (es : list (string * Inode)) :
  tidy (Directory es)
  <-> List.NoDup (List.map fst es)
      /\ forall k child, In (k, child) es -> tameSegment k = true /\ tidy child.
Proof.
  induction es as [|[k c] es IH].
  - simpl. split; [intros _; split; [constructor|intros ? ? []]|intros _; split; [constructor|exact I]].
  - rewrite tidy_cons, IH. simpl. split.
    + intros (Hnin & Hk & Hc & Hnd & Hall). split; [now constructor|].
      intros k' c' [E|Hin]; [injection E as <- <-; tauto|now apply Hall].
    + intros [Hnd Hall]. inversion Hnd; subst.
      split; [assumption|]. split; [apply (Hall k c); now left|].
      split; [apply (Hall k c); now left|]. split; [assumption|].
      intros k' c' Hin. apply Hall. now right.
Qed.

Lemma In_setEntry (s : string) (node : Inode) (es : list (string * Inode)) (k : string) (c : Inode) :
  In (k, c) (Tree.setEntry s node es) -> (k, c) = (s, node) \/ In (k, c) es.
Proof.
  induction es as [|[k' n'] es IH]; simpl.
  - intros [E|[]]. now left.
  - destruct (String.eqb k' s) eqn:E; simpl.
    + apply String.eqb_eq in E. subst k'. intros [E'|Hin]; [left; congruence|right; now right].
    + intros [E'|Hin]; [right; now left|]. destruct (IH Hin); [now left|right; now right].
Qed.

Lemma tidy_setEntry (s : string) (node : Inode) (es : list (string * Inode)) :
  tidy (Directory es) -> tameSegment s = true -> tidy node ->
  tidy (Directory (Tree.setEntry s node es)).
Proof.
  rewrite !tidy_all. intros [Hnd Hall] Hs Hnode. split.
  - destruct (Tree.entryOf s es) as [child|] eqn:E.
    + now rewrite (setEntry_keys_some s child node es E).
    + rewrite (setEntry_fresh s node es E), map_app. simpl.
      eapply Permutation_NoDup; [apply Permutation_cons_append|].
      constructor; [now apply entryOf_none_keys|exact Hnd].
  - intros k c Hin. apply In_setEntry in Hin as [E|Hin]; [injection E as -> ->; tauto|].
    now apply Hall.
Qed.

Lemma entryOf_In' (s : string) (child : Inode) (es : list (string * Inode)) :
  Tree.entryOf s es = Some child -> In (s, child) es.
Proof.
  induction es as [|[k n] es IH]; simpl; [discriminate|].
  destruct (String.eqb k s) eqn:E.
  - apply String.eqb_eq in E. subst k. intros [= ->]. now left.
  - intros Hs. right. now apply IH.
Qed.

Lemma tidy_child (s : string) (child : Inode) (es : list (string * Inode)) :
  tidy (Directory es) -> Tree.entryOf s es = Some child -> tameSegment s = true /\ tidy child.
Proof.
  rewrite tidy_all. intros [_ Hall] E. apply Hall. now apply entryOf_In'.
Qed.

Lemma mkdirp_existing (p : list string) :
  forall n es, Tree.walk p n = inr (Directory es) -> Tree.mkdirp p n = inr n.
Proof.
  induction p as [|s p IH]; intros n es' Hw; simpl in *.
  - injection Hw as ->. reflexivity.
  - destruct n as [|es|]; try discriminate.
    destruct (Tree.entryOf s es) as [child|] eqn:E; [|discriminate].
    simpl. rewrite (IH child es' Hw). now rewrite (setEntry_same s child es E).
Qed.

Lemma mkdirp_under (W : list string) :
  forall disk m p made,
    Tree.walk W disk = inr m -> Tree.mkdirp (W ++ p) disk = inr made ->
    exists m1, Tree.mkdirp p m = inr m1 /\ Tree.walk W made = inr m1.
Proof.
  induction W as [|s W IH]; intros disk m p made Hw Hm; simpl in *.
  - injection Hw as ->. eauto.
  - destruct disk as [|es|]; try discriminate.
    destruct (Tree.entryOf s es) as [child|] eqn:E; [|discriminate].
    simpl in Hm.
    destruct (Tree.mkdirp (W ++ p) child) as [|c1] eqn:Hc; [discriminate|].
    injection Hm as <-.
    destruct (IH child m p c1 Hw Hc) as (m1 & Hm1 & Hw1).
    exists m1. split; [exact Hm1|]. simpl. now rewrite entryOf_setEntry_eq.
Qed.

Lemma store_under (W : list string) (content : Buffer) :
  forall disk m p disk',
    Tree.walk W disk = inr m -> Tree.store (W ++ p) content disk = inr disk' ->
    exists m2, Tree.store p content m = inr m2 /\ Tree.walk W disk' = inr m2.
Proof.
  induction W as [|s W IH]; intros disk m p disk' Hw Hs; simpl in *.
  - injection Hw as ->. eauto.
  - destruct disk as [|es|]; try discriminate.
    destruct (Tree.entryOf s es) as [child|] eqn:E; [|discriminate].
    destruct (Tree.store (W ++ p) content child) as [|c1] eqn:Hc; [discriminate|].
    injection Hs as <-.
    destruct (IH child m p c1 Hw Hc) as (m2 & Hm2 & Hw2).
    exists m2. split; [exact Hm2|]. simpl. now rewrite entryOf_setEntry_eq.
Qed.

(** [mkdir -p] adds directories and no file. *)
Lemma mkdirp_effect (p : list string) :
  forall m m1,
    tidy m -> Forall (fun seg => tameSegment seg = true) p ->
    Tree.mkdirp p m = inr m1 ->
    tidy m1
    /\ (exists es, m = Directory es) /\ (exists es1, m1 = Directory es1)
    /\ forall ds, Permutation (recordsUnder ds m1) (recordsUnder ds m).
Proof.
  induction p as [|s p IH]; intros m m1 Htidy Hp Hm; simpl in Hm.
  - destruct m as [|es|]; try discriminate. injection Hm as <-.
    split; [assumption|]. split; [eauto|]. split; [eauto|]. reflexivity.
  - destruct m as [|es|]; try discriminate.
    inversion Hp as [|? ? Hs Hrest]; subst.
    destruct (Tree.mkdirp p (default (Directory []) (Tree.entryOf s es))) as [|child1] eqn:Hc;
      [discriminate|].
    injection Hm as <-.
    destruct (Tree.entryOf s es) as [child|] eqn:E; simpl in Hc.
    + destruct (tidy_child s child es Htidy E) as [_ Hchild].
      destruct (IH child child1 Hchild Hrest Hc) as (Ht1 & [es0 ->] & [es1 ->] & Hperm).
      split; [now apply tidy_setEntry|]. split; [eauto|]. split; [eauto|].
      intros ds. apply (records_setEntry ds s (Directory es0) (Directory es1) [] es E).
      apply Hperm.
    + assert (Hempty : tidy (Directory [])) by (simpl; split; [constructor|exact I]).
      destruct (IH (Directory []) child1 Hempty Hrest Hc) as (Ht1 & _ & [es1 ->] & Hperm).
      split; [now apply tidy_setEntry|]. split; [eauto|]. split; [eauto|].
      intros ds. rewrite (setEntry_fresh s (Directory es1) es E), recordsUnder_snoc.
      unfold contribution. rewrite (Hperm (ds ++ [s])). simpl. now rewrite app_nil_r.
Qed.

(** Writing a file that is not there yet adds its record. *)
Lemma store_effect (content : Buffer) (nm : string) (ds : list string) :
  forall m m2 pre,
    tidy m -> Forall (fun seg => tameSegment seg = true) ds -> tameSegment nm = true ->
    Tree.store (ds ++ [nm]) content m = inr m2 ->
    (forall old, Tree.walk (ds ++ [nm]) m <> inr (RegularFile old)) ->
    tidy m2
    /\ (exists es2, m2 = Directory es2)
    /\ Permutation (recordsUnder pre m2) (recordOf (pre ++ ds) nm content :: recordsUnder pre m).
Proof.
  induction ds as [|s ds IH]; intros m m2 pre Htidy Hds Hnm Hs Hfresh.
  - simpl in Hs, Hfresh. destruct m as [|es|]; try discriminate.
    destruct (Tree.entryOf nm es) as [child|] eqn:E.
    + destruct (tidy_child nm child es Htidy E) as [_ Hchild].
      destruct child as [old| |]; [|discriminate|destruct Hchild].
      exfalso. now apply (Hfresh old).
    + injection Hs as <-.
      split; [apply tidy_setEntry; [assumption|assumption|exact I]|]. split; [eauto|].
      rewrite (setEntry_fresh nm (RegularFile content) es E), recordsUnder_snoc.
      rewrite app_nil_r. simpl contribution. apply Permutation_sym, Permutation_cons_append.
  - inversion Hds as [|? ? Hseg Hrest]; subst.
    change ((s :: ds) ++ [nm]) with (s :: (ds ++ [nm])) in *.
    simpl in Hs, Hfresh. destruct m as [|es|]; try discriminate.
    destruct (Tree.entryOf s es) as [child|] eqn:E.
    + destruct (Tree.store (ds ++ [nm]) content child) as [|child'] eqn:Hc; [discriminate|].
      injection Hs as <-.
      destruct (tidy_child s child es Htidy E) as [_ Hchild].
      destruct (IH child child' (pre ++ [s]) Hchild Hrest Hnm Hc Hfresh)
        as (Ht & [es' ->] & Hperm).
      assert (Hdir : exists es0, child = Directory es0).
      { destruct child as [|es0|]; [|eauto|destruct Hchild].
        destruct ds; discriminate Hc. }
      destruct Hdir as [es0 ->].
      split; [now apply tidy_setEntry|]. split; [eauto|].
      apply (records_setEntry pre s (Directory es0) (Directory es')
               [recordOf (pre ++ s :: ds) nm content] es E).
      unfold contribution. rewrite Hperm. now rewrite <- app_assoc.
    + destruct (ds ++ [nm]) eqn:Eds; [now destruct ds|discriminate].
Qed.

Lemma contribution_In (pre : list string) (es : list (string * Inode)) (k : string) (child : Inode) :
  In (k, child) es ->
  forall r, In r (contribution pre k child) -> In r (recordsUnder pre (Directory es)).
Proof.
  induction es as [|[k' c'] es IH]; intros Hin r Hr; [destruct Hin|].
  rewrite recordsUnder_entry. apply in_or_app.
  destruct Hin as [E|Hin]; [injection E as -> ->; now left|right; now apply IH].
Qed.

Lemma walk_record (content : Buffer) (nm : string) (ds : list string) :
  forall m pre,
    Tree.walk (ds ++ [nm]) m = inr (RegularFile content) ->
    In (recordOf (pre ++ ds) nm content) (recordsUnder pre m).
Proof.
  induction ds as [|s ds IH]; intros m pre Hw.
  - simpl in Hw. destruct m as [|es|]; try discriminate.
    destruct (Tree.entryOf nm es) as [child|] eqn:E; [|discriminate].
    injection Hw as ->. apply entryOf_In' in E.
    apply (contribution_In pre es nm (RegularFile content) E).
    rewrite app_nil_r. now left.
  - change ((s :: ds) ++ [nm]) with (s :: (ds ++ [nm])) in Hw.
    simpl in Hw. destruct m as [|es|]; try discriminate.
    destruct (Tree.entryOf s es) as [child|] eqn:E; [|discriminate].
    apply entryOf_In' in E. apply (contribution_In pre es s child E).
    destruct child as [|es'|]; [destruct ds; discriminate Hw| |destruct ds; discriminate Hw].
    unfold contribution.
    replace (pre ++ s :: ds) with ((pre ++ [s]) ++ ds) by now rewrite <- app_assoc.
    now apply IH.
Qed.

Lemma unsplit_inj (l1 l2 : list string) :
  Forall (fun seg => slashFree seg = true) l1 -> Forall (fun seg => slashFree seg = true) l2 ->
  l1 <> [] -> l2 <> [] -> Path.unsplit l1 = Path.unsplit l2 -> l1 = l2.
Proof.
  intros H1 H2 N1 N2 E.
  rewrite <- (split_unsplit l1 H1 N1), <- (split_unsplit l2 H2 N2). now rewrite E.
Qed.

Lemma tame_slashFree (s : string) : tameSegment s = true -> slashFree s = true.
Proof.
  intros Hs. apply tame_plain in Hs. unfold plainSegment in Hs.
  now apply andb_prop in Hs as [Hs _].
Qed.

Lemma tame_keepable (s : string) : tameSegment s = true -> keepable s = true.
Proof.
  intros Hs. apply tame_plain in Hs. unfold plainSegment in Hs.
  now apply andb_prop in Hs as [_ Hs].
Qed.

Lemma tameRecord_segments (f : File) :
  tameRecord f = true ->
  Forall (fun seg => tameSegment seg = true) (dirSegments f) /\ tameSegment (name f) = true.
Proof.
  unfold tameRecord. intros Hf. apply andb_prop in Hf as [Hd Hn].
  split; [|exact Hn]. rewrite forallb_forall in Hd. now apply List.Forall_forall.
Qed.

Lemma tameRecord_target (f : File) :
  tameRecord f = true ->
  Forall (fun seg => slashFree seg = true) (targetSegments f).
Proof.
  intros Hf. destruct (tameRecord_segments f Hf) as [Hd Hn].
  unfold targetSegments. apply Forall_app. split.
  - revert Hd. apply List.Forall_impl. intros seg. apply tame_slashFree.
  - repeat constructor. now apply tame_slashFree.
Qed.

Section WriteSide.
Context `{Host}.

Lemma locate_walk (p : string) (disk n : Inode) :
  locate p disk = inr n -> Tree.walk (Path.resolveSegments p) disk = inr n.
Proof.
  unfold locate. destruct (String.eqb p ""); [discriminate|].
  destruct (Tree.walk (Path.resolveSegments p) disk) as [|m]; [discriminate|].
  destruct (Path.endsWithSlash p && negb (isDirectory (kindOf m))); [discriminate|].
  now intros [= ->].
Qed.

Lemma makeDirectories_mkdirp (p : string) (disk made : Inode) :
  makeDirectories p disk = inr made -> Tree.mkdirp (Path.resolveSegments p) disk = inr made.
Proof. unfold makeDirectories. now destruct (String.eqb p ""). Qed.

Lemma writeContent_store (p : string) (content : Buffer) (disk disk' : Inode) :
  writeContent p content disk = inr disk' ->
  Tree.store (Path.resolveSegments p) content disk = inr disk'.
Proof.
  unfold writeContent. destruct (String.eqb p ""); [discriminate|].
  destruct (Tree.store (Path.resolveSegments p) content disk) as [|d]; [discriminate|].
  destruct (Path.endsWithSlash p); [|now intros [= ->]].
  destruct (Tree.walk (Path.resolveSegments p) disk); discriminate.
Qed.

Lemma afterCheck_success (targetDir : string) (file : File) (present : bool)
    (disk disk' : Inode) :
  afterCheck targetDir file present disk = (disk', Ok tt) ->
  exists made content,
    (if present then made = disk else makeDirectories targetDir disk = inr made)
    /\ normalizeBuffer (data file) = Ok content
    /\ writeContent (Path.join targetDir (name file)) content made = inr disk'.
Proof.
  unfold afterCheck, bind, liftResult, fs_writeFile.
  destruct present; simpl.
  - destruct (normalizeBuffer (data file)) as [content|]; [|discriminate].
    destruct (writeContent _ content disk) as [|d] eqn:Hw; [discriminate|].
    intros [= <-]. eauto.
  - unfold fs_mkdir_recursive.
    destruct (makeDirectories targetDir disk) as [|made] eqn:Hm; [discriminate|].
    destruct (normalizeBuffer (data file)) as [content|]; [|discriminate].
    destruct (writeContent _ content made) as [|d] eqn:Hw; [discriminate|].
    intros [= <-]. eauto.
Qed.

(** A successful [writeOne]: the directory of the record is made, or is
    there, and its content is stored at its target. *)
Lemma writeOne_steps (workDir : string) (f : File) (disk disk' : Inode) :
  workDir <> "" -> tameRecord f = true ->
  writeOne workDir f disk = (disk', Ok tt) ->
  exists made,
    Tree.mkdirp (Path.resolveSegments workDir ++ dirSegments f) disk = inr made
    /\ normalizeBuffer (data f) = Ok (writtenContent f)
    /\ Tree.store (Path.resolveSegments workDir ++ targetSegments f) (writtenContent f) made
       = inr disk'.
Proof.
  intros Hw Hf Hrun. destruct (tameRecord_segments f Hf) as [Hd Hn].
  assert (Hdir : Path.resolveSegments (Path.join workDir (parentPath f))
                 = Path.resolveSegments workDir ++ dirSegments f).
  { apply resolveSegments_join_dir; [assumption|].
    revert Hd. apply List.Forall_impl. intros seg. apply tame_keepable. }
  assert (Htarget : Path.resolveSegments
                      (Path.join (Path.join workDir (parentPath f)) (name f))
                    = Path.resolveSegments workDir ++ targetSegments f).
  { rewrite resolveSegments_join_name; [|apply join_nonempty|now apply tame_plain].
    rewrite Hdir. unfold targetSegments. now rewrite app_assoc. }
  unfold writeOne in Hrun. set (targetDir := Path.join workDir (parentPath f)) in *.
  fold (afterCheck targetDir f) in Hrun.
  unfold bind at 1 in Hrun. rewrite checkFolderExists_run in Hrun.
  assert (Hgo : forall present,
             (present = true -> exists es, Tree.walk (Path.resolveSegments targetDir) disk
                                           = inr (Directory es)) ->
             afterCheck targetDir f present disk = (disk', Ok tt) ->
             exists made,
               Tree.mkdirp (Path.resolveSegments workDir ++ dirSegments f) disk = inr made
               /\ normalizeBuffer (data f) = Ok (writtenContent f)
               /\ Tree.store (Path.resolveSegments workDir ++ targetSegments f)
                    (writtenContent f) made = inr disk').
  { intros present Hpresent Hafter.
    apply afterCheck_success in Hafter as (made & content & Hmade & Hnorm & Hstore).
    apply writeContent_store in Hstore. rewrite Htarget in Hstore.
    unfold writtenContent. rewrite Hnorm. exists made. split; [|now split].
    rewrite <- Hdir. destruct present.
    - subst made. destruct (Hpresent eq_refl) as [es Hes]. now apply (mkdirp_existing _ _ es).
    - now apply makeDirectories_mkdirp. }
  destruct (locate targetDir disk) as [code|n] eqn:Hloc.
  - destruct code; try discriminate Hrun. apply (Hgo false); [discriminate|exact Hrun].
  - apply (Hgo (isDirectory (kindOf n))); [|exact Hrun].
    intros Hd'. apply locate_walk in Hloc. destruct n; try discriminate Hd'. eauto.
Qed.
End WriteSide.

Section RoundTrip.
Context `{Host}.

Lemma written_step (workDir : string) (f : File) (done : list File) (disk disk' : Inode) :
  workDir <> "" ->
  written workDir disk done ->
  Forall (fun g => tameRecord g = true) done ->
  tameRecord f = true ->
  ~ In (targetSegments f) (List.map targetSegments done) ->
  writeOne workDir f disk = (disk', Ok tt) ->
  written workDir disk' (done ++ [f]).
Proof.
  intros Hw (es & Hwalk & Htidy & Hperm) Hdone Hf Hnew Hrun.
  destruct (tameRecord_segments f Hf) as [Hd Hn].
  destruct (writeOne_steps workDir f disk disk' Hw Hf Hrun) as (made & Hmk & _ & Hst).
  destruct (mkdirp_under _ _ _ _ _ Hwalk Hmk) as (m1 & Hmk1 & Hwalk1).
  destruct (mkdirp_effect _ _ _ Htidy Hd Hmk1) as (Htidy1 & _ & [es1 ->] & Hperm1).
  destruct (store_under _ _ _ _ _ _ Hwalk1 Hst) as (m2 & Hst2 & Hwalk2).
  unfold targetSegments in Hst2.
  destruct (store_effect (writtenContent f) (name f) (dirSegments f) (Directory es1) m2 []
              Htidy1 Hd Hn Hst2) as (Htidy2 & [es2 ->] & Hperm2).
  { intros old Hold.
    apply (walk_record old (name f) (dirSegments f) (Directory es1) []) in Hold.
    apply (Permutation_in _ (Hperm1 [])) in Hold.
    apply (in_map pathAndData) in Hold.
    apply (Permutation_in _ Hperm) in Hold.
    apply in_map_iff in Hold as (g & Hg & Hin).
    apply Hnew. apply in_map_iff. exists g. split; [|exact Hin].
    unfold expectedPair, pathAndData, recordOf in Hg. cbn [path data] in Hg.
    injection Hg as Hpath _.
    rewrite List.Forall_forall in Hdone.
    apply unsplit_inj.
    - apply tameRecord_target. now apply Hdone.
    - now apply tameRecord_target.
    - unfold targetSegments. now destruct (dirSegments g).
    - unfold targetSegments. now destruct (dirSegments f).
    - exact Hpath. }
  exists es2. split; [exact Hwalk2|]. split; [exact Htidy2|].
  rewrite Hperm2, map_app. cbn [List.map].
  rewrite (Hperm1 []), Hperm.
  apply Permutation_cons_append.
Qed.

Lemma written_loop (workDir : string) (files : list File) :
  workDir <> "" ->
  forall done disk disk',
    written workDir disk done ->
    Forall (fun g => tameRecord g = true) (done ++ files) ->
    List.NoDup (List.map targetSegments (done ++ files)) ->
    forOf (writeOne workDir) files disk = (disk', Ok tt) ->
    written workDir disk' (done ++ files).
Proof.
  intros Hw. induction files as [|f files IH]; intros done disk disk' Hinv Htame Hnd Hrun.
  - simpl in Hrun. injection Hrun as <-. now rewrite app_nil_r.
  - simpl in Hrun. unfold bind in Hrun.
    destruct (writeOne workDir f disk) as [d [[]|e]] eqn:Hf; [|discriminate].
    replace (done ++ f :: files) with ((done ++ [f]) ++ files) in *
      by now rewrite <- app_assoc.
    apply (IH (done ++ [f]) d disk'); try assumption.
    apply Forall_app in Htame as [Htame _]. apply Forall_app in Htame as [Hdone Hfs].
    inversion Hfs; subst.
    rewrite map_app in Hnd. apply NoDup_app_remove_r in Hnd.
    rewrite map_app in Hnd. simpl in Hnd.
    apply (written_step workDir f done disk d); try assumption.
    apply NoDup_remove_2 in Hnd. now rewrite app_nil_r in Hnd.
Qed.

(** Writing tame records with distinct targets into an empty directory and
    walking it gives back their (path, content) pairs. *)
Theorem writeFiles_readFiles_round_trip (workDir : string) (files : list File)
    (disk0 disk1 : Inode) (digest : Buffer) :
  Tree.walk (Path.resolveSegments workDir) disk0 = inr (Directory []) ->
  List.forallb tameRecord files = true ->
  List.NoDup (List.map targetSegments files) ->
  writeFiles workDir files disk0 = (disk1, Ok digest) ->
  exists out depth,
    (forall fuel, depth <= fuel -> readFiles fuel workDir disk1 = Some (Ok out))
    /\ Permutation (List.map pathAndData out) (List.map expectedPair files).
Proof.
  intros Hempty Htame Hnd Hrun.
  assert (Hw : workDir <> "").
  { intros ->. vm_compute in Hrun. discriminate Hrun. }
  rewrite writeFiles_unfold in Hrun. unfold bind at 1 in Hrun.
  destruct ((ensureWorkDir workDir;; forOf (writeOne workDir) files) disk0)
    as [d [[]|e]] eqn:Hloop; [|discriminate].
  unfold liftResult in Hrun. injection Hrun as -> _.
  unfold bind, ensureWorkDir in Hloop. unfold bind at 1 in Hloop.
  rewrite checkFolderExists_run in Hloop.
  unfold locate in Hloop.
  destruct (String.eqb workDir "") eqn:Ew; [apply String.eqb_eq in Ew; congruence|].
  rewrite Hempty in Hloop. cbn [kindOf isDirectory negb] in Hloop.
  rewrite andb_false_r in Hloop. cbn [negb ret] in Hloop.
  destruct (written_loop workDir files Hw [] disk0 disk1) as (es & Hwalk & Htidy & Hperm).
  - exists []. split; [exact Hempty|]. split; [|reflexivity].
    simpl. split; [constructor|exact I].
  - rewrite forallb_forall in Htame. now apply List.Forall_forall.
  - exact Hnd.
  - exact Hloop.
  - exists (recordsUnder [] (Directory es)), (height (Directory es)).
    split; [|exact Hperm].
    intros fuel Hfuel. unfold readFiles.
    apply readFilesFrom_records; try assumption.
    + unfold under. now rewrite app_nil_r.
    + constructor.
Qed.
End RoundTrip.

(** The round trip on the end-to-end scenario, in reverse order. *)
Example writeFiles_readFiles_scenario :
  exists out depth,
    (forall fuel, depth <= fuel ->
       readFiles (H:=exampleHost) fuel "./w"
         (fst (writeFiles (H:=exampleHost) "./w" [fileB; fileA] emptyWorkDisk)) = Some (Ok out))
    /\ Permutation (List.map pathAndData out)
                   (List.map (expectedPair (H:=exampleHost)) [fileB; fileA]).
Proof.
  eapply (writeFiles_readFiles_round_trip (H:=exampleHost) "./w" [fileB; fileA] emptyWorkDisk).
  - reflexivity.
  - reflexivity.
  - repeat constructor; simpl; intuition discriminate.
  - vm_compute. reflexivity.
Qed.

(** ** The helpers together, the inventory and the configuration *)

Lemma zipAdd_length (xs ys : list Z) :
  List.length (SHA256.zipAdd xs ys) = Nat.min (List.length xs) (List.length ys).
Proof.
  revert ys. induction xs as [|x xs IH]; intros [|y ys]; simpl; auto.
Qed.

Lemma compress_length (h block : list Z) :
  List.length h = 8 -> List.length (SHA256.compress h block) = 8.
Proof.
  intros Hh. unfold SHA256.compress. rewrite zipAdd_length, Hh. reflexivity.
Qed.

Lemma fold_compress_length (blocks : list (list Z)) :
  forall h, List.length h = 8 -> List.length (List.fold_left SHA256.compress blocks h) = 8.
Proof.
  induction blocks as [|b blocks IH]; intros h Hh; simpl; [exact Hh|].
  apply IH. now apply compress_length.
Qed.

Lemma concat_bigEndian_length (ws : list Z) :
  List.length (List.concat (List.map (SHA256.bigEndian 4) ws)) = 4 * List.length ws.
Proof.
  induction ws as [|w ws IH]; [reflexivity|].
  cbn [List.map List.concat]. rewrite List.length_app, IH.
  unfold SHA256.bigEndian. rewrite List.length_map, List.length_rev, List.length_seq.
  cbn [List.length]. lia.
Qed.

(** A SHA-256 digest has 32 octets. *)
Lemma digest_length (msg : Buffer) : List.length (SHA256.digest msg) = 32.
Proof.
  unfold SHA256.digest. rewrite length_map, concat_bigEndian_length.
  rewrite fold_compress_length; reflexivity.
Qed.

Section HashFacts.
Context `{Host}.

Lemma normalizeBuffer_object (v : Value) :
  isObject v = true -> exists content, normalizeBuffer v = Ok content.
Proof. destruct v; try discriminate; simpl; eauto. Qed.


Lemma computeMetaHash_objects (files : list File) :
  List.Forall (fun f => isObject (data f) = true) files ->
  exists digest, computeMetaHash files = Ok digest /\ List.length digest = 32.
Proof.
  intros Hall.
  destruct (computeMetaHash_total files) as [digest Hd].
  - revert Hall. apply List.Forall_impl. intros f. apply normalizeBuffer_object.
  - exists digest. split; [exact Hd|].
    unfold computeMetaHash in Hd. destruct (metaHashInput files); [|discriminate].
    simpl in Hd. injection Hd as <-. apply digest_length.
Qed.

(** X1: the digest of [computeMetaHash] depends on the [parentPath], the
    [name] and the normalized content of the records only: two lists whose
    records agree on these, one by one, have the same digest, whatever
    their [path] and [options] are and whichever of the three forms their
    [data] have. *)
Theorem computeMetaHash_reads_fields (l1 l2 : list File) :
  List.map hashedFields l1 = List.map hashedFields l2 ->
  computeMetaHash l1 = computeMetaHash l2.
Proof.
  intros Hfields. unfold computeMetaHash, metaHashInput. f_equal.
  apply hashInput_fields. rewrite !sorted_fields. now rewrite Hfields.
Qed.


End HashFacts.


Lemma computeMetaHash_reads_fields_witness :
  computeMetaHash (H:=exampleHost) [fileA] = computeMetaHash (H:=exampleHost) [arrayA].
Proof.
  apply (computeMetaHash_reads_fields (H:=exampleHost) [fileA] [arrayA]). reflexivity.
Defined.

Section WalkFacts.
Context `{Host}.

Lemma fileRecord_shape (entryName dir fullPath baseDir : string) (disk : Inode) (f : File) :
  snd (fileRecord entryName dir fullPath baseDir disk) = Ok f -> walkedShape f = true.
Proof.
  unfold fileRecord, bind, liftResult, ret.
  destruct (stripBasePath dir baseDir) as [relativeParent|]; simpl; [|discriminate].
  destruct (stripBasePath fullPath baseDir) as [relativePath|]; simpl; [|discriminate].
  destruct (fs_readFile fullPath disk) as [d [content|]]; simpl; [|discriminate].
  intros [= <-]. unfold walkedShape. cbn [parentPath path data options].
  cbv [String.append]. cbn. 
  destruct relativeParent, relativePath; reflexivity.
Qed.

Lemma forAwait_all (P : File -> Prop) (visit : Dirent -> option (result (list File)))
    (entries : list Dirent) :
  (forall entry pushed, visit entry = Some (Ok pushed) -> List.Forall P pushed) ->
  forall acc files,
    List.Forall P acc ->
    forAwait visit entries acc = Some (Ok files) ->
    List.Forall P files.
Proof.
  intros Hvisit. induction entries as [|entry rest IH]; intros acc files Hacc Hrun;
    simpl in Hrun.
  - now injection Hrun as <-.
  - destruct (visit entry) as [[pushed|e]|] eqn:Hv; try discriminate.
    apply (IH _ _ (proj2 (List.Forall_app _ _ _) (conj Hacc (Hvisit _ _ Hv))) Hrun).
Qed.

Lemma readFilesFrom_shape (fuel : nat) :
  forall sub baseDir disk files,
    readFilesFrom fuel sub baseDir disk = Some (Ok files) ->
    List.Forall (fun f => walkedShape f = true) files.
Proof.
  induction fuel as [|fuel IH]; intros sub baseDir disk files Hrun; [discriminate|].
  simpl in Hrun.
  destruct (snd (fs_opendir sub disk)) as [entries|e]; [|discriminate].
  eapply forAwait_all; [|constructor|exact Hrun].
  intros entry pushed. unfold visitEntry.
  destruct (dirent_kind entry).
  - unfold rmap, rbind.
    destruct (snd (fileRecord _ _ _ _ _)) as [f|] eqn:Hf; [|discriminate].
    intros [= <-]. constructor; [|constructor]. eapply fileRecord_shape; eauto.
  - apply IH.
  - intros [= <-]. constructor.
Qed.

(** X3: every record that [readFiles] returns, at any depth, has a
    [parentPath] and a [path] that begin with [./], a buffer as [data] and
    no [options]; so [computeMetaHash] of what a walk returns never throws
    and gives 32 octets. *)
Theorem readFiles_records_shape (fuel : nat) (dir : string) (disk : Inode) (files : list File) :
  readFiles fuel dir disk = Some (Ok files) ->
  List.Forall (fun f => walkedShape f = true) files
  /\ exists digest, computeMetaHash files = Ok digest /\ List.length digest = 32.
Proof.
  intros Hrun. apply readFilesFrom_shape in Hrun. split; [exact Hrun|].
  apply computeMetaHash_objects.
  revert Hrun. apply List.Forall_impl. intros f. unfold walkedShape.
  destruct (data f); try reflexivity; rewrite ?andb_false_r; discriminate.
Qed.


(** X5: [readFiles] of a path that is no directory, because nothing is
    there or because something else is, throws the error of [opendir] for
    that path and returns no record. *)
Theorem readFiles_not_a_directory (fuel : nat) (dir : string) (disk : Inode) :
  (forall es, locate dir disk <> inr (Directory es)) ->
  exists code, readFiles (S fuel) dir disk = Some (Throw (FsError code "opendir" dir)).
Proof.
  intros Hnot. unfold readFiles. simpl. unfold fs_opendir.
  destruct (locate dir disk) as [code|[content|es|]] eqn:Hloc; simpl; eauto.
  now destruct (Hnot es).
Qed.

End WalkFacts.


Lemma readFiles_records_shape_witness :
  exists files,
    readFiles (H:=exampleHost) 3 "./ansible" ansibleDisk = Some (Ok files)
    /\ List.Forall (fun f => walkedShape f = true) files
    /\ exists digest,
         computeMetaHash (H:=exampleHost) files = Ok digest /\ List.length digest = 32.
Proof.
  eexists. split; [vm_compute; reflexivity|].
  apply (readFiles_records_shape (H:=exampleHost) 3 "./ansible" ansibleDisk).
  vm_compute. reflexivity.
Defined.


Lemma readFiles_not_a_directory_witness :
  exists code,
    readFiles (H:=exampleHost) 1 "./notes.txt" diskWithNotes
    = Some (Throw (FsError code "opendir" "./notes.txt")).
Proof.
  apply (readFiles_not_a_directory (H:=exampleHost) 0 "./notes.txt" diskWithNotes).
  intros es. vm_compute. discriminate.
Defined.

(** A write leaves every other file, and every special node, as it is. *)
Lemma store_leaf (content : Buffer) (p : list string) :
  forall q n n' m,
    Tree.store p content n = inr n' ->
    Tree.walk q n = inr m -> isDirectory (kindOf m) = false ->
    q <> p ->
    Tree.walk q n' = inr m.
Proof.
  induction p as [|s rest IH]; intros q n n' m Hst Hw Hm Hne.
  - destruct q as [|t q']; [congruence|].
    simpl in Hst. destruct n; try discriminate; simpl in Hw; discriminate.
  - simpl in Hst. destruct n as [|es|]; try discriminate.
    destruct q as [|t q'].
    + simpl in Hw. injection Hw as <-. discriminate.
    + simpl in Hw.
      destruct (Tree.entryOf t es) as [ch|] eqn:Et; [|discriminate].
      destruct (String.eqb_spec t s) as [->|Hts].
      * rewrite Et in Hst.
        destruct (Tree.store rest content ch) as [e|ch'] eqn:Es; [discriminate|].
        injection Hst as <-. simpl. rewrite entryOf_setEntry_eq.
        eapply IH; eauto. congruence.
      * assert (Hother : forall node, Tree.entryOf t (Tree.setEntry s node es) = Some ch).
        { intros node. rewrite entryOf_setEntry_ne by exact Hts. exact Et. }
        destruct (Tree.entryOf s es) as [child|] eqn:Esn.
        -- destruct (Tree.store rest content child) as [e|ch'] eqn:Es; [discriminate|].
           injection Hst as <-. simpl. now rewrite Hother.
        -- destruct rest; [|discriminate].
           injection Hst as <-. simpl. now rewrite Hother.
Qed.

(** After a write the target is the file with the content written, or the
    special node that was there. *)
Lemma store_lookup (content : Buffer) (p : list string) :
  forall n n',
    Tree.store p content n = inr n' ->
    Tree.walk p n' = inr (RegularFile content)
    \/ (Tree.walk p n = inr Special /\ Tree.walk p n' = inr Special).
Proof.
  induction p as [|s rest IH]; intros n n' Hst.
  - simpl in Hst. destruct n; try discriminate; injection Hst as <-; simpl; auto.
  - simpl in Hst. destruct n as [|es|]; try discriminate.
    destruct (Tree.entryOf s es) as [child|] eqn:Es.
    + destruct (Tree.store rest content child) as [e|ch'] eqn:Est; [discriminate|].
      injection Hst as <-. simpl. rewrite entryOf_setEntry_eq, Es.
      now apply IH.
    + destruct rest; [|discriminate].
      injection Hst as <-. simpl. rewrite entryOf_setEntry_eq. now left.
Qed.

Lemma setEntry_itself (s : string) (es : list (string * Inode)) (n : Inode) :
  Tree.entryOf s es = Some n -> Tree.setEntry s n es = es.
Proof.
  induction es as [|[k c] es IH]; simpl; [discriminate|].
  destruct (String.eqb k s) eqn:E.
  - intros [= ->]. reflexivity.
  - intros Hn. now rewrite IH.
Qed.

(** Writing to a file the content it has, or to a special node, changes
    nothing. *)
Lemma store_same (content : Buffer) (p : list string) :
  forall n,
    Tree.walk p n = inr (RegularFile content) \/ Tree.walk p n = inr Special ->
    Tree.store p content n = inr n.
Proof.
  induction p as [|s rest IH]; intros n Hw.
  - simpl in Hw. destruct Hw as [[= ->]|[= ->]]; reflexivity.
  - simpl in Hw. destruct n as [|es|]; try (destruct Hw; discriminate).
    simpl. destruct (Tree.entryOf s es) as [child|] eqn:Es; [|destruct Hw; discriminate].
    rewrite (IH child Hw). now rewrite setEntry_itself.
Qed.

Lemma sameKinds_refl (disk : Inode) : sameKinds disk disk.
Proof. intros segs n Hn. eauto. Qed.

Lemma sameKinds_trans (a b c : Inode) : sameKinds a b -> sameKinds b c -> sameKinds a c.
Proof.
  intros Hab Hbc segs n Hn.
  destruct (Hab segs n Hn) as (n1 & H1 & K1).
  destruct (Hbc segs n1 H1) as (n2 & H2 & K2).
  exists n2. split; [exact H2|congruence].
Qed.

Lemma preserved_sameKinds (a b : Inode) : preserved a b -> sameKinds a b.
Proof.
  intros Hp segs n Hn. specialize (Hp segs n Hn).
  destruct n.
  - eauto.
  - destruct Hp as (es & Hes). eauto.
  - eauto.
Qed.

Lemma store_sameKinds (content : Buffer) (p : list string) :
  forall n n', Tree.store p content n = inr n' -> sameKinds n n'.
Proof.
  induction p as [|s rest IH]; intros n n' Hst q m Hw.
  - simpl in Hst. destruct n; try discriminate; injection Hst as <-.
    + destruct q; simpl in Hw; [injection Hw as <-|discriminate]. simpl. eauto.
    + eauto.
  - simpl in Hst. destruct n as [|es|]; try discriminate.
    destruct q as [|t q'].
    + simpl in Hw. injection Hw as <-.
      destruct (Tree.entryOf s es) as [child|].
      * destruct (Tree.store rest content child); [discriminate|].
        injection Hst as <-. simpl. eauto.
      * destruct rest; [|discriminate]. injection Hst as <-. simpl. eauto.
    + simpl in Hw.
      destruct (Tree.entryOf t es) as [ch|] eqn:Et; [|discriminate].
      destruct (String.eqb_spec t s) as [->|Hts].
      * rewrite Et in Hst.
        destruct (Tree.store rest content ch) as [e|ch'] eqn:Es; [discriminate|].
        injection Hst as <-. simpl. rewrite entryOf_setEntry_eq.
        eapply IH; eauto.
      * assert (Hother : forall node, Tree.entryOf t (Tree.setEntry s node es) = Some ch).
        { intros node. rewrite entryOf_setEntry_ne by exact Hts. exact Et. }
        destruct (Tree.entryOf s es) as [child|] eqn:Esn.
        -- destruct (Tree.store rest content child) as [e|ch'] eqn:Es; [discriminate|].
           injection Hst as <-. simpl. rewrite Hother. eauto.
        -- destruct rest; [|discriminate].
           injection Hst as <-. simpl. rewrite Hother. eauto.
Qed.

(** After [mkdir -p] the path is a directory. *)
Lemma mkdirp_lookup (p : list string) :
  forall n n', Tree.mkdirp p n = inr n' -> exists es, Tree.walk p n' = inr (Directory es).
Proof.
  induction p as [|s rest IH]; intros n n' Hmk.
  - simpl in Hmk. destruct n; try discriminate. injection Hmk as <-. simpl. eauto.
  - simpl in Hmk. destruct n as [|es|]; try discriminate.
    destruct (Tree.mkdirp rest (default (Directory []) (Tree.entryOf s es))) as [e|ch] eqn:Em;
      [discriminate|].
    injection Hmk as <-. simpl. rewrite entryOf_setEntry_eq. eapply IH; eauto.
Qed.

Section WriteEffects.
Context `{Host}.

Lemma writeContent_no_slash (p : string) (content : Buffer) (disk disk' : Inode) :
  writeContent p content disk = inr disk' ->
  p <> "" /\ Path.endsWithSlash p = false.
Proof.
  unfold writeContent. destruct (String.eqb_spec p ""); [discriminate|].
  destruct (Tree.store _ content disk); [discriminate|].
  destruct (Path.endsWithSlash p); [|auto].
  destruct (Tree.walk _ disk); discriminate.
Qed.

(** What a successful turn of the loop of [writeFiles] did. *)
Lemma writeOne_effect (workDir : string) (f : File) (disk disk' : Inode) :
  writeOne workDir f disk = (disk', Ok tt) ->
  exists made content,
    preserved disk made
    /\ (exists es, Tree.walk (targetDirOf workDir f) made = inr (Directory es))
    /\ normalizeBuffer (data f) = Ok content
    /\ Path.endsWithSlash (Path.join (Path.join workDir (parentPath f)) (name f)) = false
    /\ Tree.store (targetOf workDir f) content made = inr disk'.
Proof.
  intros Hrun. unfold writeOne in Hrun.
  set (targetDir := Path.join workDir (parentPath f)) in *.
  fold (afterCheck targetDir f) in Hrun.
  unfold bind at 1 in Hrun. rewrite checkFolderExists_run in Hrun.
  assert (Hgo : forall present,
             (present = true -> exists es, Tree.walk (Path.resolveSegments targetDir) disk
                                           = inr (Directory es)) ->
             afterCheck targetDir f present disk = (disk', Ok tt) ->
             exists made content,
               preserved disk made
               /\ (exists es, Tree.walk (targetDirOf workDir f) made = inr (Directory es))
               /\ normalizeBuffer (data f) = Ok content
               /\ Path.endsWithSlash (Path.join targetDir (name f)) = false
               /\ Tree.store (targetOf workDir f) content made = inr disk').
  { intros present Hpresent Hafter.
    apply afterCheck_success in Hafter as (made & content & Hmade & Hnorm & Hstore).
    destruct (writeContent_no_slash _ _ _ _ Hstore) as [_ Hslash].
    apply writeContent_store in Hstore.
    exists made, content. repeat split; try assumption.
    - destruct present; [subst made; apply preserved_refl|].
      now apply (makeDirectories_preserved targetDir).
    - destruct present; [subst made; now apply Hpresent|].
      apply makeDirectories_mkdirp in Hmade. now apply mkdirp_lookup in Hmade. }
  destruct (locate targetDir disk) as [code|n] eqn:Hloc.
  - destruct code; try discriminate Hrun. apply (Hgo false); [discriminate|exact Hrun].
  - apply (Hgo (isDirectory (kindOf n))); [|exact Hrun].
    intros Hd'. apply locate_walk in Hloc. destruct n; try discriminate Hd'. eauto.
Qed.

Lemma preserved_leaf (before after : Inode) (q : list string) (m : Inode) :
  preserved before after ->
  Tree.walk q before = inr m -> isDirectory (kindOf m) = false ->
  Tree.walk q after = inr m.
Proof.
  intros Hp Hw Hm. specialize (Hp q m Hw). destruct m; [assumption|discriminate|assumption].
Qed.

(** One turn of the loop, whatever its outcome, leaves every file that is not
    its target, and every special node, as it is. *)
Lemma writeOne_leaf (workDir : string) (f : File) (disk disk' : Inode) (r : result unit)
    (q : list string) (m : Inode) :
  writeOne workDir f disk = (disk', r) ->
  Tree.walk q disk = inr m -> isDirectory (kindOf m) = false ->
  (r = Ok tt -> targetOf workDir f <> q) ->
  Tree.walk q disk' = inr m.
Proof.
  intros Hrun Hw Hm Hne. destruct r as [[]|e].
  - apply writeOne_effect in Hrun as (made & content & Hpres & _ & _ & _ & Hstore).
    eapply store_leaf; [exact Hstore| |exact Hm|].
    + eapply preserved_leaf; eauto.
    + intros ->. now apply Hne.
  - apply writeOne_failure in Hrun as [Hpres _]. eapply preserved_leaf; eauto.
Qed.

Lemma writeOne_sameKinds (workDir : string) (f : File) (disk disk' : Inode) (r : result unit) :
  writeOne workDir f disk = (disk', r) -> sameKinds disk disk'.
Proof.
  intros Hrun. destruct r as [[]|e].
  - apply writeOne_effect in Hrun as (made & content & Hpres & _ & _ & _ & Hstore).
    eapply sameKinds_trans; [apply preserved_sameKinds; exact Hpres|].
    eapply store_sameKinds; eauto.
  - apply writeOne_failure in Hrun as [Hpres _]. now apply preserved_sameKinds.
Qed.

Lemma forOf_writeOne_leaf (workDir : string) (files : list File) (q : list string) (m : Inode) :
  isDirectory (kindOf m) = false ->
  (forall f, In f files -> targetOf workDir f <> q) ->
  forall disk disk' r,
    forOf (writeOne workDir) files disk = (disk', r) ->
    Tree.walk q disk = inr m ->
    Tree.walk q disk' = inr m.
Proof.
  intros Hm. induction files as [|f files IH]; intros Hne disk disk' r Hrun Hw.
  - simpl in Hrun. injection Hrun as <- _. exact Hw.
  - simpl in Hrun. unfold bind in Hrun.
    destruct (writeOne workDir f disk) as [d [[]|e]] eqn:Hf.
    + apply (IH (fun g Hg => Hne g (or_intror Hg)) d disk' r Hrun).
      eapply writeOne_leaf; eauto. intros _. apply Hne. now left.
    + injection Hrun as <- _. eapply writeOne_leaf; eauto.
Qed.

Lemma forOf_writeOne_sameKinds (workDir : string) (files : list File) :
  forall disk disk' r,
    forOf (writeOne workDir) files disk = (disk', r) -> sameKinds disk disk'.
Proof.
  induction files as [|f files IH]; intros disk disk' r Hrun.
  - simpl in Hrun. injection Hrun as <- _. apply sameKinds_refl.
  - simpl in Hrun. unfold bind in Hrun.
    destruct (writeOne workDir f disk) as [d [[]|e]] eqn:Hf.
    + eapply sameKinds_trans; [eapply writeOne_sameKinds; eauto|eapply IH; eauto].
    + injection Hrun as <- _. eapply writeOne_sameKinds; eauto.
Qed.

(** [ensureWorkDir]: the disk afterwards, and what success means. *)
Lemma ensureWorkDir_preserved (workDir : string) (disk disk' : Inode) (r : result unit) :
  ensureWorkDir workDir disk = (disk', r) -> preserved disk disk'.
Proof.
  unfold ensureWorkDir, bind. rewrite checkFolderExists_run.
  assert (Hmk : forall d r', fs_mkdir_recursive workDir disk = (d, r') -> preserved disk d).
  { unfold fs_mkdir_recursive. intros d r'.
    destruct (makeDirectories workDir disk) as [code|made] eqn:Hm; intros [= <- _].
    - apply preserved_refl.
    - now apply (makeDirectories_preserved workDir). }
  destruct (locate workDir disk) as [code|n].
  - destruct code; simpl; try (intros [= <- _]; apply preserved_refl); apply Hmk.
  - destruct (isDirectory (kindOf n)); simpl; [intros [= <- _]; apply preserved_refl|apply Hmk].
Qed.

Lemma ensureWorkDir_success (workDir : string) (disk disk' : Inode) :
  ensureWorkDir workDir disk = (disk', Ok tt) ->
  workDir <> "" /\ exists es, Tree.walk (Path.resolveSegments workDir) disk' = inr (Directory es).
Proof.
  unfold ensureWorkDir, bind. rewrite checkFolderExists_run.
  assert (Hmk : fs_mkdir_recursive workDir disk = (disk', Ok tt) ->
                workDir <> ""
                /\ exists es, Tree.walk (Path.resolveSegments workDir) disk' = inr (Directory es)).
  { unfold fs_mkdir_recursive, makeDirectories.
    destruct (String.eqb_spec workDir ""); [discriminate|].
    destruct (Tree.mkdirp _ disk) as [code|made] eqn:Hm; intros [= <-].
    split; [assumption|]. now apply mkdirp_lookup in Hm. }
  destruct (locate workDir disk) as [code|n] eqn:Hloc.
  - destruct code; simpl; try discriminate. apply Hmk.
  - destruct (isDirectory (kindOf n)) eqn:Hd; simpl; [|apply Hmk].
    intros [= <-]. split.
    + intros ->. unfold locate in Hloc. simpl in Hloc. discriminate.
    + apply locate_walk in Hloc. destruct n; try discriminate. eauto.
Qed.

(** The three steps of [writeFiles]. *)
Lemma writeFiles_steps (workDir : string) (files : list File) (disk disk' : Inode)
    (r : result Buffer) :
  writeFiles workDir files disk = (disk', r) ->
  exists d r1 r2,
    ensureWorkDir workDir disk = (d, r1)
    /\ ((r1 = Ok tt /\ forOf (writeOne workDir) files d = (disk', r2))
        \/ (d = disk' /\ exists e, r1 = Throw e /\ r = Throw e)).
Proof.
  unfold writeFiles, bind.
  destruct (ensureWorkDir workDir disk) as [d [[]|e]] eqn:He.
  - destruct (forOf (writeOne workDir) files d) as [d' [[]|e]] eqn:Hl.
    + unfold liftResult. intros [= <- <-]. exists d, (Ok tt), (Ok tt).
      split; [reflexivity|]. left. split; [reflexivity|exact Hl].
    + intros [= <- <-]. exists d, (Ok tt), (Throw e).
      split; [reflexivity|]. left. split; [reflexivity|exact Hl].
  - intros [= <- <-]. exists d, (Throw e), (Ok tt). split; [reflexivity|]. right. eauto.
Qed.

Lemma writeFiles_success (workDir : string) (files : list File) (disk disk' : Inode)
    (digest : Buffer) :
  writeFiles workDir files disk = (disk', Ok digest) ->
  exists d,
    ensureWorkDir workDir disk = (d, Ok tt)
    /\ forOf (writeOne workDir) files d = (disk', Ok tt).
Proof.
  unfold writeFiles, bind.
  destruct (ensureWorkDir workDir disk) as [d [[]|e]] eqn:He; [|discriminate].
  destruct (forOf (writeOne workDir) files d) as [d' [[]|e]] eqn:Hl; [|discriminate].
  unfold liftResult. intros [= <- _]. eauto.
Qed.

(** X6: whatever its outcome, [writeFiles] removes nothing and changes the
    kind of nothing: what was a regular file, a directory or a special node
    before the call is one after it, at the same path. *)
Theorem writeFiles_keeps_kinds (workDir : string) (files : list File) (disk : Inode) :
  sameKinds disk (fst (writeFiles workDir files disk)).
Proof.
  destruct (writeFiles workDir files disk) as [disk' r] eqn:Hrun. simpl.
  apply writeFiles_steps in Hrun as (d & r1 & r2 & He & [[-> Hl]|[-> _]]).
  - eapply sameKinds_trans.
    + apply preserved_sameKinds. eapply ensureWorkDir_preserved; eauto.
    + eapply forOf_writeOne_sameKinds; eauto.
  - apply preserved_sameKinds. eapply ensureWorkDir_preserved; eauto.
Qed.

(** X7: whatever its outcome, [writeFiles] leaves the content of every
    regular file that is the target of none of the records as it is. *)
Theorem writeFiles_keeps_other_files (workDir : string) (files : list File) (disk : Inode)
    (q : list string) (content : Buffer) :
  Tree.walk q disk = inr (RegularFile content) ->
  (forall f, In f files -> targetOf workDir f <> q) ->
  Tree.walk q (fst (writeFiles workDir files disk)) = inr (RegularFile content).
Proof.
  intros Hw Hne.
  destruct (writeFiles workDir files disk) as [disk' r] eqn:Hrun. simpl.
  apply writeFiles_steps in Hrun as (d & r1 & r2 & He & [[-> Hl]|[-> _]]).
  - eapply forOf_writeOne_leaf; [|exact Hne|exact Hl|]; [reflexivity|].
    eapply preserved_leaf; [eapply ensureWorkDir_preserved; eauto|exact Hw|reflexivity].
  - eapply preserved_leaf; [eapply ensureWorkDir_preserved; eauto|exact Hw|reflexivity].
Qed.

Lemma lastWriter_none (workDir : string) (target : list string) (files : list File) :
  lastWriter workDir target files = None ->
  forall f, In f files -> targetOf workDir f <> target.
Proof.
  induction files as [|g files IH]; simpl; [tauto|].
  destruct (lastWriter workDir target files); [discriminate|].
  destruct (List.list_eq_dec _ _ _); [discriminate|].
  intros _ f [<-|Hin]; [assumption|now apply IH].
Qed.

Lemma forOf_last_write (workDir : string) (files : list File) (target : list string) (g : File) :
  forall disk disk',
    forOf (writeOne workDir) files disk = (disk', Ok tt) ->
    lastWriter workDir target files = Some g ->
    targetOf workDir g = target
    /\ In g files
    /\ (Tree.walk target disk' = inr (RegularFile (writtenContent g))
        \/ Tree.walk target disk' = inr Special).
Proof.
  induction files as [|f files IH]; intros disk disk' Hrun Hlast; [discriminate|].
  simpl in Hrun. unfold bind in Hrun.
  destruct (writeOne workDir f disk) as [d [[]|e]] eqn:Hf; [|discriminate].
  simpl in Hlast.
  destruct (lastWriter workDir target files) as [g'|] eqn:Hrest.
  - injection Hlast as ->. destruct (IH d disk' Hrun eq_refl) as (Ht & Hin & Hc).
    split; [assumption|]. split; [now right|assumption].
  - destruct (List.list_eq_dec _ _ _) as [Heq|]; [|discriminate].
    injection Hlast as <-. split; [assumption|]. split; [now left|].
    apply writeOne_effect in Hf as (made & content & _ & _ & Hnorm & _ & Hstore).
    rewrite Heq in Hstore.
    assert (Hwc : writtenContent f = content) by (unfold writtenContent; now rewrite Hnorm).
    rewrite Hwc.
    pose proof (lastWriter_none _ _ _ Hrest) as Hne.
    destruct (store_lookup _ _ _ _ Hstore) as [Hfile|[_ Hsp]].
    + left. eapply forOf_writeOne_leaf; [|exact Hne|exact Hrun|exact Hfile]. reflexivity.
    + right. eapply forOf_writeOne_leaf; [|exact Hne|exact Hrun|exact Hsp]. reflexivity.
Qed.

(** X8: after a [writeFiles] that returns a digest, of records without
    flag, the target of a record holds the content of the last record of
    the list that was written to it (a special node that was at the target
    is still there). *)
Theorem writeFiles_last_write_wins (workDir : string) (files : list File)
    (disk disk' : Inode) (digest : Buffer) (target : list string) (g : File) :
  withoutFlags files ->
  writeFiles workDir files disk = (disk', Ok digest) ->
  lastWriter workDir target files = Some g ->
  Tree.walk target disk' = inr (RegularFile (writtenContent g))
  \/ Tree.walk target disk' = inr Special.
Proof.
  intros _ Hrun Hlast. apply writeFiles_success in Hrun as (d & _ & Hl).
  now destruct (forOf_last_write _ _ _ _ _ _ Hl Hlast) as (_ & _ & Hc).
Qed.

Lemma sameKinds_directory (before after : Inode) (p : list string) (es : list (string * Inode)) :
  sameKinds before after ->
  Tree.walk p before = inr (Directory es) ->
  exists es', Tree.walk p after = inr (Directory es').
Proof.
  intros Hk Hw. destruct (Hk p _ Hw) as (n' & Hn' & Hkind).
  destruct n'; try discriminate. eauto.
Qed.

Lemma locate_directory (p : string) (disk : Inode) (es : list (string * Inode)) :
  p <> "" ->
  Tree.walk (Path.resolveSegments p) disk = inr (Directory es) ->
  locate p disk = inr (Directory es).
Proof.
  intros Hp Hw. unfold locate.
  destruct (String.eqb_spec p ""); [contradiction|].
  rewrite Hw. simpl. now rewrite andb_false_r.
Qed.

Lemma writeOne_settled (workDir : string) (f : File) (disk : Inode) :
  settled workDir disk f -> writeOne workDir f disk = (disk, Ok tt).
Proof.
  intros [[es Hdir] (content & Hnorm & Hslash & Htarget)].
  unfold writeOne, bind at 1. rewrite checkFolderExists_run.
  rewrite (locate_directory _ _ es (join_nonempty _ _) Hdir).
  cbn [kindOf isDirectory negb]. unfold bind, ret, liftResult. rewrite Hnorm.
  unfold fs_writeFile, writeContent.
  destruct (String.eqb_spec (Path.join (Path.join workDir (parentPath f)) (name f)) "")
    as [Hempty|_]; [now apply join_nonempty in Hempty|].
  fold (targetOf workDir f). rewrite (store_same content _ disk Htarget).
  now rewrite Hslash.
Qed.

Lemma forOf_settled (workDir : string) (files : list File) :
  forall disk disk',
    List.NoDup (List.map (targetOf workDir) files) ->
    forOf (writeOne workDir) files disk = (disk', Ok tt) ->
    forall f, In f files -> settled workDir disk' f.
Proof.
  induction files as [|g files IH]; intros disk disk' Hnd Hrun f Hin; [destruct Hin|].
  simpl in Hrun. unfold bind in Hrun.
  destruct (writeOne workDir g disk) as [d [[]|e]] eqn:Hg; [|discriminate].
  simpl in Hnd. inversion Hnd as [|? ? Hfresh Hnd']; subst.
  destruct Hin as [<-|Hin]; [|now apply (IH d disk' Hnd' Hrun)].
  apply writeOne_effect in Hg as (made & content & _ & [es Hdir] & Hnorm & Hslash & Hstore).
  pose proof (forOf_writeOne_sameKinds _ _ _ _ _ Hrun) as Hlater.
  split.
  - destruct (sameKinds_directory _ _ _ _ (store_sameKinds _ _ _ _ Hstore) Hdir) as [es1 H1].
    now apply (sameKinds_directory _ _ _ _ Hlater H1).
  - exists content. split; [assumption|]. split; [assumption|].
    assert (Hne : forall h, In h files -> targetOf workDir h <> targetOf workDir g).
    { intros h Hh Heq. apply Hfresh. rewrite <- Heq. now apply in_map. }
    destruct (store_lookup _ _ _ _ Hstore) as [Hfile|[_ Hsp]].
    + left. eapply forOf_writeOne_leaf; [|exact Hne|exact Hrun|exact Hfile]. reflexivity.
    + right. eapply forOf_writeOne_leaf; [|exact Hne|exact Hrun|exact Hsp]. reflexivity.
Qed.

Lemma forOf_all_settled (workDir : string) (files : list File) (disk : Inode) :
  (forall f, In f files -> settled workDir disk f) ->
  forOf (writeOne workDir) files disk = (disk, Ok tt).
Proof.
  induction files as [|g files IH]; intros Hall; [reflexivity|].
  simpl. unfold bind. rewrite writeOne_settled by (apply Hall; now left).
  apply IH. intros f Hf. apply Hall. now right.
Qed.

Lemma ensureWorkDir_present (workDir : string) (disk : Inode) (es : list (string * Inode)) :
  workDir <> "" ->
  Tree.walk (Path.resolveSegments workDir) disk = inr (Directory es) ->
  ensureWorkDir workDir disk = (disk, Ok tt).
Proof.
  intros Hw Hdir. unfold ensureWorkDir, bind. rewrite checkFolderExists_run.
  now rewrite (locate_directory _ _ es Hw Hdir).
Qed.

(** X9: writing the same records again, onto the disk that a
    [writeFiles] returning a digest has left, changes nothing and returns
    the same digest, for records without write options no two of which
    have the same target. *)
Theorem writeFiles_again (workDir : string) (files : list File)
    (disk disk' : Inode) (digest : Buffer) :
  withoutOptions files ->
  List.NoDup (List.map (targetOf workDir) files) ->
  writeFiles workDir files disk = (disk', Ok digest) ->
  writeFiles workDir files disk' = (disk', Ok digest).
Proof.
  intros _ Hnd Hrun. pose proof (writeFiles_result _ _ _ _ _ Hrun) as Hhash.
  apply writeFiles_success in Hrun as (d & He & Hl).
  apply ensureWorkDir_success in He as [Hw [es Hdir]].
  destruct (sameKinds_directory _ _ _ _ (forOf_writeOne_sameKinds _ _ _ _ _ Hl) Hdir)
    as [es' Hdir'].
  unfold writeFiles, bind.
  rewrite (ensureWorkDir_present _ _ es' Hw Hdir').
  rewrite (forOf_all_settled _ _ _ (forOf_settled _ _ _ _ Hnd Hl)).
  unfold liftResult. now rewrite Hhash.
Qed.

(** X10: with the empty string as work directory [writeFiles] fails at
    once, with the ENOENT of [mkdir], and nothing is written. *)
Theorem writeFiles_empty_workDir (files : list File) (disk : Inode) :
  writeFiles "" files disk = (disk, Throw (FsError ENOENT "mkdir" "")).
Proof.
  unfold writeFiles, bind at 1. unfold ensureWorkDir, bind at 1.
  rewrite checkFolderExists_run. reflexivity.
Qed.

End WriteEffects.


Lemma writeFiles_keeps_other_files_witness :
  Tree.walk ["home"; "user"; "notes.txt"]
    (fst (writeFiles (H:=exampleHost) "./w" [fileA; fileB] diskWithNotes))
  = inr (RegularFile (utf8 "x")).
Proof.
  apply (writeFiles_keeps_other_files (H:=exampleHost) "./w" [fileA; fileB] diskWithNotes).
  - reflexivity.
  - intros f [<-|[<-|[]]]; vm_compute; discriminate.
Defined.

Lemma writeFiles_last_write_wins_witness :
  exists disk' digest,
    writeFiles (H:=exampleHost) "./w" [draft1; draft2] emptyWorkDisk = (disk', Ok digest)
    /\ (Tree.walk ["home"; "user"; "w"; "notes"] disk'
        = inr (RegularFile (writtenContent (H:=exampleHost) draft2))
        \/ Tree.walk ["home"; "user"; "w"; "notes"] disk' = inr Special).
Proof.
  eexists. eexists. split; [vm_compute; reflexivity|].
  eapply (writeFiles_last_write_wins (H:=exampleHost) "./w" [draft1; draft2] emptyWorkDisk
            _ _ ["home"; "user"; "w"; "notes"] draft2).
  - repeat constructor.
  - vm_compute. reflexivity.
  - vm_compute. reflexivity.
Defined.

Lemma writeFiles_again_witness :
  exists disk' digest,
    writeFiles (H:=exampleHost) "./w" [fileB; fileA] emptyDisk = (disk', Ok digest)
    /\ writeFiles (H:=exampleHost) "./w" [fileB; fileA] disk' = (disk', Ok digest).
Proof.
  eexists. eexists. split; [vm_compute; reflexivity|].
  apply (writeFiles_again (H:=exampleHost) "./w" [fileB; fileA] emptyDisk).
  - repeat constructor.
  - repeat constructor; simpl; intuition discriminate.
  - vm_compute. reflexivity.
Defined.

(** Induction on a tree whose directories hold lists of trees. *)
Lemma Inode_induction (P : Inode -> Prop) :
  (forall content, P (RegularFile content)) ->
  P Special ->
  (forall es, (forall k child, In (k, child) es -> P child) -> P (Directory es)) ->
  forall n, P n.
Proof.
  intros Hfile Hspecial Hdir. fix IH 1. intros [content|es|].
  - apply Hfile.
  - apply Hdir. induction es as [|[k0 c0] es IHes]; intros k child Hin.
    + destruct Hin.
    + destruct Hin as [Heq|Hin].
      * injection Heq as _ <-. apply IH.
      * exact (IHes k child Hin).
  - apply Hspecial.
Qed.

Lemma walk_skip (k : string) (child : Inode) (rest : list (string * Inode))
    (s : string) (segs : list string) (m : Inode) :
  ~ In k (List.map fst rest) ->
  Tree.walk (s :: segs) (Directory rest) = inr m ->
  Tree.walk (s :: segs) (Directory ((k, child) :: rest)) = inr m.
Proof.
  intros Hfresh Hw. simpl in *.
  destruct (Tree.entryOf s rest) as [c|] eqn:Es; [|discriminate].
  destruct (String.eqb_spec k s) as [->|Hne]; [|exact Hw].
  exfalso. apply Hfresh. apply entryOf_In' in Es.
  change s with (fst (s, c)). now apply in_map.
Qed.

(** Every record of a tidy tree is the record of one of its files. *)
Lemma recordsUnder_In (n : Inode) :
  forall pre g,
    tidy n -> In g (recordsUnder pre n) ->
    exists ds k content,
      g = recordOf (pre ++ ds) k content
      /\ Tree.walk (ds ++ [k]) n = inr (RegularFile content)
      /\ Forall (fun seg => tameSegment seg = true) ds
      /\ tameSegment k = true.
Proof.
  induction n as [content| |es IH] using Inode_induction; intros pre g Htidy Hin;
    try destruct Hin.
  induction es as [|[k child] rest IHrest]; [destruct Hin|].
  apply tidy_cons in Htidy as (Hfresh & Hk & Hchild & Hrest).
  rewrite recordsUnder_entry in Hin. apply in_app_or in Hin as [Hin|Hin].
  - unfold contribution in Hin. destruct child as [content|es'|].
    + destruct Hin as [<-|[]]. exists [], k, content.
      rewrite app_nil_r. repeat split; [|constructor|exact Hk].
      simpl. now rewrite String.eqb_refl.
    + destruct (IH k (Directory es') (or_introl eq_refl) (pre ++ [k]) g Hchild Hin)
        as (ds & k' & content & -> & Hw & Hds & Hk').
      exists (k :: ds), k', content. repeat split; [| |now constructor|exact Hk'].
      * now rewrite <- app_assoc.
      * simpl. rewrite String.eqb_refl. exact Hw.
    + destruct Hin.
  - destruct (IHrest (fun k' c' Hc => IH k' c' (or_intror Hc)) Hrest Hin)
      as (ds & k' & content & -> & Hw & Hds & Hk').
    exists ds, k', content. repeat split; try assumption.
    destruct ds as [|s ds]; simpl app in *; now apply walk_skip.
Qed.

Lemma walk_tame (ds : list string) (k : string) :
  forall n m,
    tidy n -> Tree.walk (ds ++ [k]) n = inr m ->
    Forall (fun seg => tameSegment seg = true) ds /\ tameSegment k = true.
Proof.
  induction ds as [|s ds IH]; intros n m Htidy Hw.
  - simpl in Hw. destruct n as [|es|]; try discriminate.
    destruct (Tree.entryOf k es) as [child|] eqn:E; [|discriminate].
    destruct (tidy_child _ _ _ Htidy E). split; [constructor|assumption].
  - change ((s :: ds) ++ [k]) with (s :: (ds ++ [k])) in Hw. simpl in Hw.
    destruct n as [|es|]; try discriminate.
    destruct (Tree.entryOf s es) as [child|] eqn:E; [|discriminate].
    destruct (tidy_child _ _ _ Htidy E) as [Hs Hchild].
    destruct (IH child m Hchild Hw). split; [now constructor|assumption].
Qed.

Lemma dirSegments_recordOf (ds : list string) (k : string) (content : Buffer) :
  Forall (fun seg => tameSegment seg = true) ds ->
  dirSegments (recordOf ds k content) = ds.
Proof.
  intros Hds. unfold dirSegments, recordOf. cbn [parentPath].
  change ("./" ++ relativeDir ds)%string with ("." ++ String "/" (relativeDir ds))%string.
  rewrite split_app_slash. destruct ds as [|d ds]; [reflexivity|].
  unfold relativeDir. rewrite split_unsplit.
  - change (Path.split ".") with ["."]. cbn [app].
    change (Path.normalizeSegments true [] ("." :: d :: ds))
      with (Path.normalizeSegments true [] (d :: ds)).
    rewrite normalizeSegments_plain; [reflexivity|].
    revert Hds. apply List.Forall_impl. intros seg. apply tame_plain.
  - revert Hds. apply List.Forall_impl. intros seg. apply tame_slashFree.
  - discriminate.
Qed.

Lemma tameRecord_recordOf (ds : list string) (k : string) (content : Buffer) :
  Forall (fun seg => tameSegment seg = true) ds -> tameSegment k = true ->
  tameRecord (recordOf ds k content) = true.
Proof.
  intros Hds Hk. unfold tameRecord. rewrite dirSegments_recordOf by assumption.
  cbn [recordOf name]. rewrite Hk, andb_true_r.
  apply forallb_forall. now apply List.Forall_forall.
Qed.

Section Copies.
Context `{Host}.

Lemma targetOf_tame (workDir : string) (f : File) :
  workDir <> "" -> tameRecord f = true ->
  targetOf workDir f = Path.resolveSegments workDir ++ targetSegments f.
Proof.
  intros Hw Hf. destruct (tameRecord_segments f Hf) as [Hd Hn]. unfold targetOf.
  rewrite resolveSegments_join_name; [|apply join_nonempty|now apply tame_plain].
  rewrite resolveSegments_join_dir; [|assumption|].
  - unfold targetSegments, dirSegments. now rewrite app_assoc.
  - revert Hd. apply List.Forall_impl. intros seg. apply tame_keepable.
Qed.

Lemma targetOf_recordOf (workDir : string) (ds : list string) (k : string) (content : Buffer) :
  workDir <> "" ->
  Forall (fun seg => tameSegment seg = true) ds -> tameSegment k = true ->
  targetOf workDir (recordOf ds k content) = Path.resolveSegments workDir ++ ds ++ [k].
Proof.
  intros Hw Hds Hk. rewrite targetOf_tame; [|assumption|now apply tameRecord_recordOf].
  unfold targetSegments. now rewrite dirSegments_recordOf.
Qed.

Lemma lastWriter_some (workDir : string) (target : list string) (files : list File) (f : File) :
  In f files -> targetOf workDir f = target ->
  exists g, lastWriter workDir target files = Some g.
Proof.
  induction files as [|f0 files IH]; intros Hin Ht; [destruct Hin|].
  simpl. destruct (lastWriter workDir target files) as [g|] eqn:Hl; [eauto|].
  destruct Hin as [->|Hin].
  - destruct (List.list_eq_dec _ _ _); [eauto|contradiction].
  - destruct (IH Hin Ht) as [g Hg]. discriminate.
Qed.

Lemma lastWriter_last (workDir : string) (files : list File) (f : File) :
  lastWriter workDir (targetOf workDir f) (files ++ [f]) = Some f.
Proof.
  induction files as [|f0 files IH]; simpl.
  - destruct (List.list_eq_dec _ _ _); [reflexivity|contradiction].
  - now rewrite IH.
Qed.

Lemma forAwait_mono (visit1 visit2 : Dirent -> option (result (list File)))
    (entries : list Dirent) :
  (forall entry r, visit1 entry = Some r -> visit2 entry = Some r) ->
  forall acc r, forAwait visit1 entries acc = Some r -> forAwait visit2 entries acc = Some r.
Proof.
  intros Hv. induction entries as [|entry rest IH]; intros acc r; simpl; [auto|].
  destruct (visit1 entry) as [[pushed|e]|] eqn:H1; try discriminate.
  - rewrite (Hv _ _ H1). apply IH.
  - now rewrite (Hv _ _ H1).
Qed.

(** A walk that ended ends the same way with more fuel. *)
Lemma readFilesFrom_more (fuel : nat) :
  forall more sub baseDir disk r,
    readFilesFrom fuel sub baseDir disk = Some r ->
    fuel <= more ->
    readFilesFrom more sub baseDir disk = Some r.
Proof.
  induction fuel as [|fuel IH]; intros more sub baseDir disk r Hrun Hle; [discriminate|].
  destruct more as [|more]; [lia|]. simpl in *.
  destruct (snd (fs_opendir sub disk)) as [entries|e]; [|exact Hrun].
  eapply forAwait_mono; [|exact Hrun].
  intros entry r'. unfold visitEntry. destruct (dirent_kind entry); auto.
  intros Hsub. apply (IH more _ _ _ _ Hsub). lia.
Qed.

(** The records of a walk of a tidy tree, whatever fuel it ended with. *)
Lemma readFiles_tidy (fuel : nat) (src : string) (disk : Inode)
    (es : list (string * Inode)) (walked : list File) :
  Tree.walk (Path.resolveSegments src) disk = inr (Directory es) ->
  tidy (Directory es) ->
  readFiles fuel src disk = Some (Ok walked) ->
  walked = recordsUnder [] (Directory es).
Proof.
  intros Hw Htidy Hrun.
  assert (Hsrc : src <> "").
  { intros ->. destruct fuel; [discriminate|]. unfold readFiles in Hrun. simpl in Hrun.
    unfold fs_opendir, locate in Hrun. simpl in Hrun. discriminate. }
  unfold readFiles in *.
  pose proof (readFilesFrom_more _ (Nat.max fuel (height (Directory es))) _ _ _ _ Hrun
                (Nat.le_max_l _ _)) as Hmore.
  rewrite (readFilesFrom_records src disk _ src [] es) in Hmore; try assumption.
  - now injection Hmore as <-.
  - unfold under. now rewrite app_nil_r.
  - constructor.
  - apply Nat.le_max_r.
Qed.

(** What a walk found is at its place under the work directory after
    [writeFiles], unless a later record went to the same place. *)
Lemma copies (src workDir : string) (fuel : nat) (disk disk' : Inode)
    (es : list (string * Inode)) (walked extra : list File) (digest : Buffer)
    (ds : list string) (k : string) (content : Buffer) :
  Tree.walk (Path.resolveSegments src) disk = inr (Directory es) ->
  tidy (Directory es) ->
  readFiles fuel src disk = Some (Ok walked) ->
  writeFiles workDir (walked ++ extra) disk = (disk', Ok digest) ->
  Tree.walk (ds ++ [k]) (Directory es) = inr (RegularFile content) ->
  (forall g, In g extra -> targetOf workDir g <> Path.resolveSegments workDir ++ ds ++ [k]) ->
  Tree.walk (Path.resolveSegments workDir ++ ds ++ [k]) disk' = inr (RegularFile content)
  \/ Tree.walk (Path.resolveSegments workDir ++ ds ++ [k]) disk' = inr Special.
Proof.
  intros Hsrc Htidy Hread Hrun Hfile Hextra.
  apply (readFiles_tidy _ _ _ _ _ Hsrc Htidy) in Hread. subst walked.
  apply writeFiles_success in Hrun as (d & He & Hl).
  apply ensureWorkDir_success in He as [Hw _].
  destruct (walk_tame _ _ _ _ Htidy Hfile) as [Hds Hk].
  set (target := Path.resolveSegments workDir ++ ds ++ [k]) in *.
  destruct (lastWriter_some workDir target
              (recordsUnder [] (Directory es) ++ extra) (recordOf ([] ++ ds) k content))
    as [g Hg].
  - apply in_or_app. left. now apply walk_record.
  - now apply targetOf_recordOf.
  - destruct (forOf_last_write _ _ _ _ _ _ Hl Hg) as (Ht & Hin & Hc).
    apply in_app_or in Hin as [Hin|Hin]; [|now apply Hextra in Hin].
    apply (recordsUnder_In _ [] g Htidy) in Hin
      as (ds' & k' & content' & -> & Hw' & Hds' & Hk').
    rewrite targetOf_recordOf in Ht by assumption.
    apply app_inv_head in Ht. cbn [app] in Ht. rewrite Ht in Hw'.
    rewrite Hfile in Hw'. injection Hw' as <-.
    exact Hc.
Qed.

(** What [stripBasePath] returns for a path under the base, when the first
    segment below the base does not begin with two dots. *)
Lemma stripBasePath_down (fullPath basePath : string) (down : list string) :
  under fullPath basePath down ->
  match down with
  | [] => True
  | d :: _ => String.prefix ".." d = false
  end ->
  stripBasePath fullPath basePath
  = Ok (match down with [] => "." | _ => Path.unsplit down end).
Proof.
  unfold under. intros Hu Hhead.
  assert (Hroot : forall s, s = "" ->
            (if String.prefix ".." s then Throw (NotUnderBase fullPath basePath)
             else Ok (stripDotSlash (Path.normalize s))) = Ok ".").
  { intros s ->. reflexivity. }
  assert (Hplain : Forall (fun seg => plainSegment seg = true) down).
  { pose proof (resolveSegments_plain fullPath) as Hall. rewrite Hu in Hall.
    now apply List.Forall_app in Hall as [_ Hall]. }
  unfold stripBasePath, Path.relative.
  destruct (String.eqb basePath fullPath) eqn:Esame.
  - apply String.eqb_eq in Esame. subst fullPath.
    assert (down = []) as ->.
    { apply (app_inv_head (Path.resolveSegments basePath)). now rewrite app_nil_r. }
    now apply Hroot.
  - rewrite Hu, dropCommon_app. cbn [List.map app].
    destruct down as [|d rest]; [now apply Hroot|].
    rewrite prefix_dotdot_unsplit, Hhead.
    rewrite normalize_plain by (try assumption; discriminate).
    inversion Hplain; subst. now rewrite stripDotSlash_plain.
Qed.

(** X11: [stripBasePath] returns exactly for the paths under the base whose
    first segment below the base does not begin with two dots; what it
    returns is [.] for the base itself, and otherwise the segments that
    lead from the base to the path, joined by slashes: no slash and no
    [./] in front. *)
Theorem stripBasePath_result (fullPath basePath result : string) :
  stripBasePath fullPath basePath = Ok result
  <-> exists down,
        under fullPath basePath down
        /\ match down with
           | [] => True
           | d :: _ => String.prefix ".." d = false
           end
        /\ result = match down with [] => "." | _ => Path.unsplit down end.
Proof.
  split.
  - intros Hok.
    assert (Hthrow : isThrow (stripBasePath fullPath basePath) = false) by now rewrite Hok.
    rewrite stripBasePath_throws_iff in Hthrow. unfold Path.relative in Hthrow.
    assert (Hdown : exists down,
               under fullPath basePath down
               /\ match down with
                  | [] => True
                  | d :: _ => String.prefix ".." d = false
                  end).
    { unfold under. destruct (String.eqb basePath fullPath) eqn:Esame.
      - apply String.eqb_eq in Esame. subst fullPath. exists [].
        split; [now rewrite app_nil_r|exact I].
      - destruct (Path.dropCommon (Path.resolveSegments basePath)
                    (Path.resolveSegments fullPath)) as [up down] eqn:Edrop.
        destruct up as [|u up].
        + apply dropCommon_nil in Edrop. exists down. split; [exact Edrop|].
          destruct down as [|d down]; [exact I|].
          simpl in Hthrow. now rewrite prefix_dotdot_unsplit in Hthrow.
        + rewrite prefix_dotdot_up in Hthrow by discriminate. discriminate. }
    destruct Hdown as (down & Hu & Hhead). exists down. split; [exact Hu|].
    split; [exact Hhead|].
    rewrite (stripBasePath_down _ _ _ Hu Hhead) in Hok. now injection Hok.
  - intros (down & Hu & Hhead & ->). now apply stripBasePath_down.
Qed.

(** X12: for a path that is the base, a slash, and tame segments joined by
    slashes, [stripBasePath] returns those segments joined by slashes. *)
Theorem stripBasePath_relative (basePath : string) (down : list string) :
  basePath <> "" -> down <> [] ->
  Forall (fun seg => tameSegment seg = true) down ->
  stripBasePath (basePath ++ "/" ++ Path.unsplit down) basePath = Ok (Path.unsplit down).
Proof.
  intros Hbase Hdown Htame.
  rewrite (stripBasePath_under _ basePath down); [now destruct down| |exact Htame].
  unfold under. rewrite resolveSegments_concat by exact Hbase.
  rewrite split_unsplit; [|revert Htame; apply List.Forall_impl; intros seg;
                           apply tame_slashFree|exact Hdown].
  rewrite normalizeSegments_plain; [now rewrite rev_involutive|].
  revert Htame. apply List.Forall_impl. intros seg. apply tame_plain.
Qed.


(** X14: a tidy directory that is walked and then written, with further
    records after those of the walk, is in the work directory afterwards:
    every regular file of it that none of the further records is written
    over is there, at the same place below the work directory and with the
    same content (a special node that was at that place is still there). *)
Theorem readFiles_then_writeFiles (src workDir : string) (fuel : nat) (disk disk' : Inode)
    (es : list (string * Inode)) (walked extra : list File) (digest : Buffer)
    (ds : list string) (k : string) (content : Buffer) :
  Tree.walk (Path.resolveSegments src) disk = inr (Directory es) ->
  tidy (Directory es) ->
  readFiles fuel src disk = Some (Ok walked) ->
  writeFiles workDir (walked ++ extra) disk = (disk', Ok digest) ->
  Tree.walk (ds ++ [k]) (Directory es) = inr (RegularFile content) ->
  (forall g, In g extra -> targetOf workDir g <> Path.resolveSegments workDir ++ ds ++ [k]) ->
  Tree.walk (Path.resolveSegments workDir ++ ds ++ [k]) disk' = inr (RegularFile content)
  \/ Tree.walk (Path.resolveSegments workDir ++ ds ++ [k]) disk' = inr Special.
Proof.
  apply copies.
Qed.

End Copies.


Lemma stripBasePath_relative_witness :
  stripBasePath (H:=exampleHost) "/a/b/sub/c.txt" "/a/b" = Ok "sub/c.txt".
Proof.
  apply (stripBasePath_relative (H:=exampleHost) "/a/b" ["sub"; "c.txt"]).
  - discriminate.
  - discriminate.
  - repeat constructor.
Defined.


Lemma readFiles_then_writeFiles_witness :
  exists walked disk' digest,
    readFiles (H:=exampleHost) 2 "./ansible" ansibleDisk = Some (Ok walked)
    /\ writeFiles (H:=exampleHost) "./copy" (walked ++ []) ansibleDisk = (disk', Ok digest)
    /\ (Tree.walk (Path.resolveSegments (H:=exampleHost) "./copy" ++ ["roles"] ++ ["main.yml"])
          disk'
        = inr (RegularFile (utf8 "- debug:"))
        \/ Tree.walk (Path.resolveSegments (H:=exampleHost) "./copy" ++ ["roles"] ++ ["main.yml"])
             disk'
           = inr Special).
Proof.
  eexists. eexists. eexists.
  split; [vm_compute; reflexivity|]. split; [vm_compute; reflexivity|].
  eapply (readFiles_then_writeFiles (H:=exampleHost) "./ansible" "./copy" 2 ansibleDisk _
            ansibleTree _ [] _ ["roles"] "main.yml" (utf8 "- debug:")).
  - reflexivity.
  - simpl. repeat split; repeat constructor; simpl; intuition discriminate.
  - vm_compute. reflexivity.
  - vm_compute. reflexivity.
  - reflexivity.
  - intros g [].
Defined.

(** *** Own properties *)

Lemma getOwn_replaceOwn (key k : string) (v : Value) (props : list (string * Value)) :
  getOwn k (replaceOwn key v props)
  = if String.eqb k key then option_map (fun _ => v) (getOwn key props) else getOwn k props.
Proof.
  induction props as [|[k0 w] props IH]; simpl.
  - now destruct (String.eqb k key).
  - destruct (String.eqb_spec k0 key) as [->|Hne]; simpl.
    + destruct (String.eqb_spec key k) as [->|Hk].
      * now rewrite String.eqb_refl.
      * destruct (String.eqb_spec k key); [congruence|reflexivity].
    + destruct (String.eqb_spec k0 k) as [->|Hk].
      * destruct (String.eqb_spec k key); [congruence|reflexivity].
      * exact IH.
Qed.

Lemma getOwn_insertIndex (n : N) (key k : string) (v : Value) (props : list (string * Value)) :
  getOwn key props = None ->
  getOwn k (insertIndex n key v props)
  = if String.eqb k key then Some v else getOwn k props.
Proof.
  induction props as [|[k0 w] props IH]; simpl; intros Hnone.
  - rewrite (String.eqb_sym key k). now destruct (String.eqb k key).
  - destruct (String.eqb_spec k0 key) as [->|Hne]; [discriminate|].
    assert (Hfront : getOwn k ((key, v) :: (k0, w) :: props)
                     = if String.eqb k key then Some v else getOwn k ((k0, w) :: props)).
    { simpl. rewrite (String.eqb_sym key k). reflexivity. }
    destruct (arrayIndex k0) as [m|]; [|exact Hfront].
    destruct (m <? n)%N; [|exact Hfront].
    simpl. rewrite (IH Hnone).
    destruct (String.eqb_spec k0 k) as [->|Hk]; [|reflexivity].
    destruct (String.eqb_spec k key); [congruence|reflexivity].
Qed.

Lemma getOwn_app (k : string) (l1 l2 : list (string * Value)) :
  getOwn k (l1 ++ l2) = match getOwn k l1 with Some v => Some v | None => getOwn k l2 end.
Proof.
  induction l1 as [|[k0 w] l1 IH]; simpl; [reflexivity|].
  now destruct (String.eqb k0 k).
Qed.

(** Reading a property after an assignment. *)
Lemma getOwn_setProperty (key k : string) (v : Value) (props : list (string * Value)) :
  getOwn k (setProperty key v props)
  = if String.eqb k key && negb (String.eqb key "__proto__") then Some v else getOwn k props.
Proof.
  unfold setProperty. destruct (String.eqb key "__proto__"); [now rewrite andb_false_r|].
  rewrite andb_true_r.
  destruct (getOwn key props) as [old|] eqn:Hold.
  - rewrite getOwn_replaceOwn, Hold. reflexivity.
  - destruct (arrayIndex key) as [n|].
    + now apply getOwn_insertIndex.
    + rewrite getOwn_app. simpl. rewrite (String.eqb_sym key k).
      destruct (String.eqb_spec k key) as [->|]; [now rewrite Hold|].
      now destruct (getOwn k props).
Qed.

Lemma getOwn_In (k : string) (props : list (string * Value)) :
  In k (List.map fst props) <-> getOwn k props <> None.
Proof.
  induction props as [|[k0 w] props IH]; simpl; [tauto|].
  destruct (String.eqb_spec k0 k) as [->|Hne].
  - split; [discriminate|auto].
  - rewrite <- IH. split; [intros [?|?]; [congruence|assumption]|auto].
Qed.

Lemma keys_replaceOwn (key : string) (v : Value) (props : list (string * Value)) :
  List.map fst (replaceOwn key v props) = List.map fst props.
Proof.
  induction props as [|[k0 w] props IH]; simpl; [reflexivity|].
  destruct (String.eqb k0 key); simpl; [reflexivity|now rewrite IH].
Qed.

Lemma keys_insertIndex (n : N) (key : string) (v : Value) (props : list (string * Value)) :
  Permutation (List.map fst (insertIndex n key v props)) (key :: List.map fst props).
Proof.
  induction props as [|[k0 w] props IH]; simpl; [reflexivity|].
  destruct (arrayIndex k0) as [m|]; [|reflexivity].
  destruct (m <? n)%N; [|reflexivity].
  simpl. rewrite IH. apply perm_swap.
Qed.

(** An assignment adds at most the key it names. *)
Lemma keys_setProperty (key : string) (v : Value) (props : list (string * Value)) :
  Permutation (List.map fst (setProperty key v props))
    (if String.eqb key "__proto__" then List.map fst props
     else match getOwn key props with
          | Some _ => List.map fst props
          | None => key :: List.map fst props
          end).
Proof.
  unfold setProperty. destruct (String.eqb key "__proto__"); [reflexivity|].
  destruct (getOwn key props) as [old|] eqn:Hold.
  - now rewrite keys_replaceOwn.
  - destruct (arrayIndex key) as [n|].
    + apply keys_insertIndex.
    + rewrite List.map_app. simpl. symmetry. apply Permutation_cons_append.
Qed.

Lemma setProperty_NoDup (key : string) (v : Value) (props : list (string * Value)) :
  List.NoDup (List.map fst props) -> List.NoDup (List.map fst (setProperty key v props)).
Proof.
  intros Hnd. eapply Permutation_NoDup; [symmetry; apply keys_setProperty|].
  destruct (String.eqb key "__proto__"); [exact Hnd|].
  destruct (getOwn key props) as [old|] eqn:Hold; [exact Hnd|].
  constructor; [|exact Hnd]. rewrite getOwn_In. now rewrite Hold.
Qed.

(** *** inventory.js *)

Lemma inventoryHosts_fold (k : string) (hosts : list HostEntry) :
  forall acc,
    getOwn k (List.fold_left (fun acc h => setProperty (host_name h) (hostVars h) acc) hosts acc)
    = if String.eqb k "__proto__" then getOwn k acc
      else match lastNamed k hosts with
           | Some h => Some (hostVars h)
           | None => getOwn k acc
           end.
Proof.
  induction hosts as [|h hosts IH]; intros acc; simpl.
  - now destruct (String.eqb k "__proto__").
  - rewrite IH. rewrite getOwn_setProperty.
    destruct (String.eqb_spec k "__proto__") as [->|Hk].
    + destruct (String.eqb_spec "__proto__" (host_name h)) as [<-|]; reflexivity.
    + destruct (lastNamed k hosts) as [h'|]; [reflexivity|].
      rewrite (String.eqb_sym (host_name h) k).
      destruct (String.eqb_spec k (host_name h)) as [->|Hne]; [|reflexivity].
      destruct (String.eqb_spec (host_name h) "__proto__"); [contradiction|reflexivity].
Qed.

Lemma inventoryHosts_NoDup (hosts : list HostEntry) :
  forall acc,
    List.NoDup (List.map fst acc) ->
    List.NoDup (List.map fst
      (List.fold_left (fun acc h => setProperty (host_name h) (hostVars h) acc) hosts acc)).
Proof.
  induction hosts as [|h hosts IH]; intros acc Hnd; simpl; [exact Hnd|].
  apply IH. now apply setProperty_NoDup.
Qed.

Lemma lastNamed_some (k : string) (hosts : list HostEntry) :
  (exists h, lastNamed k hosts = Some h) <-> (exists h, In h hosts /\ host_name h = k).
Proof.
  induction hosts as [|h0 hosts IH]; simpl.
  - split; intros [h Hh]; [discriminate|tauto].
  - destruct (lastNamed k hosts) as [h'|] eqn:Hl.
    + split; [intros _|eauto].
      destruct (proj1 IH (ex_intro _ h' eq_refl)) as (h & Hin & Hn). eauto.
    + destruct (String.eqb_spec (host_name h0) k) as [Heq|Hne].
      * split; eauto.
      * split; [intros [h Hh]; discriminate|].
        intros (h & [<-|Hin] & Hn); [contradiction|].
        apply IH. eauto.
Qed.

(** X15: the [hosts] object that inventory.js builds has, under every
    name, the variables of the last host of the list with that name; a host
    called [__proto__] is left out. *)
Theorem inventory_hosts_lookup (hosts : list HostEntry) (k : string) :
  getOwn k (inventoryHosts hosts)
  = if String.eqb k "__proto__" then None
    else option_map hostVars (lastNamed k hosts).
Proof.
  unfold inventoryHosts. rewrite inventoryHosts_fold. simpl.
  destruct (String.eqb k "__proto__"); [reflexivity|].
  now destruct (lastNamed k hosts).
Qed.

(** X16: the keys of the [hosts] object of inventory.js are the names of
    the hosts other than [__proto__], each once however many hosts have it. *)
Theorem inventory_hosts_keys (hosts : list HostEntry) :
  List.NoDup (List.map fst (inventoryHosts hosts))
  /\ forall k, In k (List.map fst (inventoryHosts hosts))
               <-> k <> "__proto__" /\ exists h, In h hosts /\ host_name h = k.
Proof.
  split.
  - apply inventoryHosts_NoDup. constructor.
  - intros k. rewrite getOwn_In. unfold inventoryHosts. rewrite inventoryHosts_fold. simpl.
    rewrite <- lastNamed_some.
    destruct (String.eqb_spec k "__proto__") as [->|Hk].
    + split; [congruence|tauto].
    + destruct (lastNamed k hosts) as [h|].
      * split; [eauto|discriminate].
      * split; [congruence|]. intros [_ [h Hh]]. discriminate.
Qed.

Lemma setProperty_append (key : string) (v : Value) (props : list (string * Value)) :
  key <> "__proto__" -> arrayIndex key = None -> ~ In key (List.map fst props) ->
  setProperty key v props = props ++ [(key, v)].
Proof.
  intros Hp Hi Hin. unfold setProperty.
  destruct (String.eqb_spec key "__proto__"); [contradiction|].
  destruct (getOwn key props) eqn:Hg.
  - exfalso. apply Hin. apply getOwn_In. now rewrite Hg.
  - now rewrite Hi.
Qed.

Lemma inventoryHosts_order (hosts : list HostEntry) :
  forall acc,
    List.Forall (fun h => host_name h <> "__proto__" /\ arrayIndex (host_name h) = None) hosts ->
    List.NoDup (List.map fst acc ++ List.map host_name hosts) ->
    List.fold_left (fun acc h => setProperty (host_name h) (hostVars h) acc) hosts acc
    = acc ++ List.map (fun h => (host_name h, hostVars h)) hosts.
Proof.
  induction hosts as [|h hosts IH]; intros acc Hall Hnd; simpl.
  - now rewrite app_nil_r.
  - inversion Hall as [|? ? [Hp Hi] Hrest]; subst.
    simpl in Hnd.
    rewrite setProperty_append; try assumption.
    + rewrite IH; [now rewrite <- app_assoc|exact Hrest|].
      rewrite List.map_app. simpl. now rewrite <- app_assoc.
    + apply NoDup_remove_2 in Hnd. intros Hin. apply Hnd. apply in_or_app. now left.
Qed.

(** X17: hosts whose names are distinct, and neither an array index nor
    [__proto__], are listed by inventory.js in the order of the
    configuration, each with its variables. *)
Theorem inventory_hosts_order (hosts : list HostEntry) :
  List.Forall (fun h => host_name h <> "__proto__" /\ arrayIndex (host_name h) = None) hosts ->
  List.NoDup (List.map host_name hosts) ->
  inventoryHosts hosts = List.map (fun h => (host_name h, hostVars h)) hosts.
Proof.
  intros Hall Hnd. unfold inventoryHosts. now rewrite inventoryHosts_order.
Qed.

Lemma inventory_hosts_order_witness :
  inventoryHosts exampleHosts
  = List.map (fun h => (host_name h, hostVars h)) exampleHosts.
Proof.
  apply (inventory_hosts_order exampleHosts).
  - repeat constructor; discriminate.
  - repeat constructor; simpl; intuition discriminate.
Defined.

(** X18: the inventory of the one host of [hostsConf]: the machine under
    its name, with the address, the user name and the password of the
    configuration; no host at all when the machine is called [__proto__]. *)
Theorem inventory_of_hostsConf (vmName ip : string) (account : Account) :
  inventoryHosts (hostsConf vmName ip account)
  = if String.eqb vmName "__proto__" then []
    else [ (vmName,
            VObject [ ("ansible_host", VString ip);
                      ("ansible_user", VString (account_username account));
                      ("ansible_password", VString (account_password account)) ]) ].
Proof.
  unfold inventoryHosts, hostsConf, hostVars. cbn [List.fold_left host_name host_ip
    host_username host_password].
  unfold setProperty. destruct (String.eqb vmName "__proto__"); [reflexivity|].
  cbn [getOwn]. now destruct (arrayIndex vmName).
Qed.

Section Inventory.
Context `{Runtime}.

(** X19: [createAnsibleInventory] returns a record exactly when the path
    is a string that is not blank, the module is loaded and its default
    export is a function, [ctx] is an object, the function returns an
    object and that object has a JSON text; the record is then
    [inventory.json] at the root, [./], with the UTF-8 octets of that text
    as its data and no options. *)
Theorem createAnsibleInventory_returns (pathToInventory ctx : Value) (f : File) :
  snd (createAnsibleInventory pathToInventory ctx) = inr f
  <-> exists p body inventoryObj inventoryJson,
        pathToInventory = VString p /\ blank p = false
        /\ importModule p = Returns (Callable body)
        /\ isObject ctx = true
        /\ body ctx = Returns inventoryObj
        /\ isObject inventoryObj = true
        /\ JSON_stringify inventoryObj = Returns (Some inventoryJson)
        /\ f = inventoryFile inventoryJson.
Proof.
  unfold createAnsibleInventory. split.
  - destruct pathToInventory as [| | | |p| | | |]; try discriminate.
    destruct (blank p) eqn:Hb; [discriminate|].
    destruct (importModule p) as [[body|v]|m] eqn:Hi; try discriminate.
    destruct (isObject ctx) eqn:Hc; [|discriminate]. simpl.
    destruct (body ctx) as [obj|m] eqn:Hr; [|discriminate].
    destruct (isObject obj) eqn:Ho; [|discriminate]. simpl.
    destruct (JSON_stringify obj) as [[json|]|m] eqn:Hj; try discriminate.
    intros [= <-]. exists p, body, obj, json. repeat split; assumption.
  - intros (p & body & obj & json & -> & Hb & Hi & Hc & Hr & Ho & Hj & ->).
    rewrite Hb, Hi, Hc. simpl. rewrite Hr, Ho. simpl. now rewrite Hj.
Qed.

(** X20: the calls [createAnsibleInventory] makes. None is made exactly
    when the path is rejected; only the path given, not blank, is imported;
    the function is called with [ctx] only, and only when [ctx] is an
    object; only an object is serialized; no call is made twice; and when
    [ctx] is rejected the module has been imported already. *)
Theorem createAnsibleInventory_calls (pathToInventory ctx : Value) :
  let events := fst (createAnsibleInventory pathToInventory ctx) in
  let outcome := snd (createAnsibleInventory pathToInventory ctx) in
  (events = [] <-> outcome = inl InvalidPath)
  /\ (forall q, In (Imported q) events -> pathToInventory = VString q /\ blank q = false)
  /\ (forall c, In (Called c) events -> c = ctx /\ isObject ctx = true)
  /\ (forall v, In (Stringified v) events -> isObject v = true)
  /\ List.NoDup events
  /\ (outcome = inl InvalidContext -> exists q, events = [Imported q]).
Proof.
  unfold createAnsibleInventory.
  destruct pathToInventory as [| | | |p| | | |];
    try (cbn [fst snd]; repeat split; intros; try tauto; try discriminate;
         try constructor; contradiction).
  destruct (blank p) eqn:Hb;
    [cbn [fst snd]; repeat split; intros; try tauto; try discriminate;
       try constructor; contradiction|].
  destruct (importModule p) as [[body|v]|m] eqn:Hi;
    [destruct (isObject ctx) eqn:Hc; cbn [negb];
     [destruct (body ctx) as [obj|m] eqn:Hr;
      [destruct (isObject obj) eqn:Ho; cbn [negb];
       [destruct (JSON_stringify obj) as [[json|]|m']|]|]|]| |];
    cbn [fst snd];
    (split; [split; intros E; discriminate E|]);
    (split; [intros q Hq; simpl in Hq;
             repeat (destruct Hq as [Hq|Hq]; try discriminate Hq; try contradiction);
             injection Hq as <-; auto|]);
    (split; [intros c Hq; simpl in Hq;
             repeat (destruct Hq as [Hq|Hq]; try discriminate Hq; try contradiction);
             injection Hq as <-; auto|]);
    (split; [intros w Hq; simpl in Hq;
             repeat (destruct Hq as [Hq|Hq]; try discriminate Hq; try contradiction);
             injection Hq as <-; auto|]);
    (split; [repeat constructor; simpl; intuition discriminate|]);
    intros E; try discriminate E; eauto.
Qed.

End Inventory.

(** The first part of a split, and what is left of the string. *)
Lemma split_head (s first : string) (rest : list string) :
  Path.split s = first :: rest ->
  slashFree first = true
  /\ (rest = [] /\ s = first
      \/ exists suffix, rest = Path.split suffix /\ s = (first ++ "/" ++ suffix)%string).
Proof.
  revert first rest. induction s as [|c s IH]; intros first rest; simpl.
  - intros [= <- <-]. auto.
  - unfold Path.isSlash. destruct (Ascii.eqb_spec c "/"%char) as [->|Hc].
    + intros [= <- <-]. split; [reflexivity|]. right. exists s. auto.
    + destruct (Path.split s) as [|seg rest'] eqn:Hs; [now apply split_nonempty in Hs|].
      intros [= <- <-]. destruct (IH seg rest' eq_refl) as [Hfree Hcases].
      split.
      * simpl. unfold Path.isSlash.
        destruct (Ascii.eqb_spec c "/"%char); [contradiction|exact Hfree].
      * destruct Hcases as [[-> ->]|(suffix & -> & ->)]; [now left|].
        right. exists suffix. auto.
Qed.

Lemma find_truthy (l : list (option string)) (found : option string) :
  List.find truthy l = Some found ->
  exists before after s,
    l = before ++ Some s :: after /\ found = Some s /\ s <> ""
    /\ List.Forall (fun a => truthy a = false) before.
Proof.
  induction l as [|a l IH]; simpl; [discriminate|].
  destruct (truthy a) eqn:Ha.
  - intros [= <-]. destruct a as [s|]; [|discriminate].
    exists [], l, s. repeat split; [|constructor].
    intros ->. discriminate.
  - intros Hf. destruct (IH Hf) as (before & after & s & -> & -> & Hs & Hall).
    exists (a :: before), after, s. repeat split; [assumption|].
    now constructor.
Qed.

Lemma find_truthy_none (l : list (option string)) :
  List.find truthy l = None <-> List.Forall (fun a => truthy a = false) l.
Proof.
  induction l as [|a l IH]; simpl.
  - split; [constructor|reflexivity].
  - destruct (truthy a) eqn:Ha.
    + split; [discriminate|]. intros Hall. inversion Hall; congruence.
    + rewrite IH. split; [now constructor|]. intros Hall. now inversion Hall.
Qed.

(** X21: what [vmIp] returns contains no slash, and is the part before the
    first slash of the address of the first entry of [ipConfigs] that has
    one that is not empty, its [ipv4] address if that is not empty and its
    [ipv6] address otherwise. *)
Theorem vmIp_strips_cidr (init : Initialization) (ip : string) :
  vmIp init = inr ip ->
  slashFree ip = true
  /\ exists before cfg after addr,
       ipConfigs init = Some (before ++ cfg :: after)
       /\ List.Forall (fun c => truthy (addressOf c) = false) before
       /\ addressOf cfg = Some addr /\ addr <> ""
       /\ (addr = ip \/ exists suffix, addr = (ip ++ "/" ++ suffix)%string).
Proof.
  unfold vmIp. destruct (ipConfigs init) as [cfgs|]; [|discriminate].
  destruct (List.find truthy (List.map addressOf cfgs)) as [[addr|]|] eqn:Hfind;
    try discriminate.
  destruct (String.eqb_spec addr ""); [discriminate|].
  destruct (Path.split addr) as [|first rest] eqn:Hsplit; [now apply split_nonempty in Hsplit|].
  intros [= <-]. destruct (split_head _ _ _ Hsplit) as [Hfree Hcases].
  split; [exact Hfree|].
  apply find_truthy in Hfind as (before & after & s & Hl & [= <-] & Hs & Hall).
  apply List.map_eq_app in Hl as (l1 & l2 & -> & <- & Hl2).
  destruct l2 as [|cfg l2]; [discriminate|]. simpl in Hl2. injection Hl2 as Hcfg <-.
  exists l1, cfg, l2, addr. repeat split; try assumption.
  - now apply List.Forall_map in Hall.
  - destruct Hcases as [[_ ->]|(suffix & _ & ->)]; eauto.
Qed.

(** X22: [vmIp] throws exactly when there is no [ipConfigs] or none of its
    entries has an address that is not empty. *)
Theorem vmIp_fails_iff (init : Initialization) :
  (exists e, vmIp init = inl e)
  <-> match ipConfigs init with
      | Some cfgs => List.Forall (fun c => truthy (addressOf c) = false) cfgs
      | None => True
      end.
Proof.
  unfold vmIp. destruct (ipConfigs init) as [cfgs|]; [|split; eauto].
  destruct (List.find truthy (List.map addressOf cfgs)) as [found|] eqn:Hfind.
  - apply find_truthy in Hfind as (before & after & s & Hl & -> & Hs & Hall).
    destruct (String.eqb_spec s ""); [contradiction|].
    split; [intros [e He]; discriminate|].
    intros Hno. exfalso.
    apply (List.Forall_map addressOf (fun a => truthy a = false)) in Hno.
    rewrite Hl in Hno. apply List.Forall_app in Hno as [_ Hno].
    inversion Hno as [|? ? Hbad _]; subst. simpl in Hbad.
    destruct (String.eqb_spec s ""); [contradiction|discriminate].
  - split; [intros _|eauto].
    apply find_truthy_none in Hfind. now apply List.Forall_map in Hfind.
Qed.

Lemma vmIp_strips_cidr_witness :
  slashFree "192.168.2.3" = true
  /\ exists before cfg after addr,
       ipConfigs exampleInitialization = Some (before ++ cfg :: after)
       /\ List.Forall (fun c => truthy (addressOf c) = false) before
       /\ addressOf cfg = Some addr /\ addr <> ""
       /\ (addr = "192.168.2.3"
           \/ exists suffix, addr = ("192.168.2.3" ++ "/" ++ suffix)%string).
Proof.
  apply (vmIp_strips_cidr exampleInitialization "192.168.2.3"). reflexivity.
Defined.

(** X23: the account [vmUserAccount] returns for the merged initialization
    has the configured public keys followed by the generated one as its
    keys, whatever keys the account of the stack lists, the user name of
    the stack, which is not empty, and its password, or the empty string
    when it has none. *)
Theorem vmUserAccount_keys (init : option Initialization) (cfgKeys : list string)
    (genKey : string) (account : Account) :
  vmUserAccount (initialization init (publicKeys cfgKeys genKey)) = inr account ->
  account_keys account = cfgKeys ++ [genKey]
  /\ account_username account <> ""
  /\ exists i user,
       init = Some i /\ userAccount i = Some user
       /\ username user = Some (account_username account)
       /\ account_password account = default "" (password user).
Proof.
  unfold vmUserAccount, initialization, publicKeys. cbn [userAccount username keys password].
  destruct init as [i|]; [|discriminate].
  destruct (userAccount i) as [user|] eqn:Hu; [|discriminate].
  destruct (username user) as [u|] eqn:Hn; [|discriminate].
  simpl. destruct (String.eqb_spec u "") as [->|Hne]; [discriminate|].
  intros [= <-]. simpl. repeat split; [exact Hne|].
  exists i, user. now repeat split.
Qed.

Lemma vmUserAccount_keys_witness :
  exists account,
    vmUserAccount
      (initialization (Some exampleInitialization) (publicKeys ["ssh-ed25519 CFG"] "ssh-rsa GEN"))
    = inr account
    /\ account_keys account = ["ssh-ed25519 CFG"; "ssh-rsa GEN"]
    /\ account_username account <> ""
    /\ exists i user,
         Some exampleInitialization = Some i /\ userAccount i = Some user
         /\ username user = Some (account_username account)
         /\ account_password account = default "" (password user).
Proof.
  eexists. split; [reflexivity|].
  apply (vmUserAccount_keys (Some exampleInitialization) ["ssh-ed25519 CFG"] "ssh-rsa GEN").
  reflexivity.
Defined.

Section Workspace.
Context `{Host} `{Runtime}.

Lemma createAnsibleInventory_file (pathToInventory ctx : Value) (f : File) :
  snd (createAnsibleInventory pathToInventory ctx) = inr f ->
  exists inventoryJson, f = inventoryFile inventoryJson.
Proof.
  unfold createAnsibleInventory.
  destruct pathToInventory as [| | | |p| | | |]; try discriminate.
  destruct (blank p); [discriminate|].
  destruct (importModule p) as [[body|v]|m]; try discriminate.
  destruct (negb (isObject ctx)); [discriminate|].
  destruct (body ctx) as [obj|m]; [|discriminate].
  destruct (negb (isObject obj)); [discriminate|]. cbn [snd].
  destruct (JSON_stringify obj) as [[json|]|m]; try discriminate.
  intros [= <-]. eauto.
Qed.

Lemma targetOf_inventoryFile (workDir inventoryJson : string) :
  workDir <> "" ->
  targetOf workDir (inventoryFile inventoryJson)
  = Path.resolveSegments workDir ++ ["inventory.json"].
Proof. intros Hw. now rewrite targetOf_tame. Qed.

(** The steps of a run of [ansibleWorkspace] that returns a digest. *)
Lemma ansibleWorkspace_steps (fuel : nat) (ctx : Context) (disk disk' : Inode)
    (digest : Buffer) :
  ansibleWorkspace fuel ctx disk = Some (disk', inr digest) ->
  exists walked inventoryJson,
    readFiles fuel "./ansible" disk = Some (Ok walked)
    /\ snd (createAnsibleInventory (VString "./ansible/inventory.js") (contextValue ctx))
       = inr (inventoryFile inventoryJson)
    /\ writeFiles "./workspace/ansible" (walked ++ [inventoryFile inventoryJson]) disk
       = (disk', Ok digest).
Proof.
  unfold ansibleWorkspace.
  destruct (readFiles fuel "./ansible" disk) as [[walked|e]|]; try discriminate.
  destruct (snd (createAnsibleInventory _ _)) as [e|generated] eqn:Hgen; [discriminate|].
  destruct (createAnsibleInventory_file _ _ _ Hgen) as [json ->].
  destruct (writeFiles _ _ disk) as [d [dg|e]] eqn:Hw; [|discriminate].
  intros [= <- <-]. eauto.
Qed.

(** X24: after a run of the workspace step of index.ts that returns a
    digest, [inventory.json] of [./workspace/ansible] holds the JSON text
    that [createAnsibleInventory] generated, also when [./ansible] has an
    [inventory.json] of its own (a special node that was at that place is
    still there). *)
Theorem ansibleWorkspace_inventory (fuel : nat) (ctx : Context) (disk disk' : Inode)
    (digest : Buffer) :
  ansibleWorkspace fuel ctx disk = Some (disk', inr digest) ->
  exists inventoryJson,
    snd (createAnsibleInventory (VString "./ansible/inventory.js") (contextValue ctx))
    = inr (inventoryFile inventoryJson)
    /\ (Tree.walk (Path.resolveSegments "./workspace/ansible" ++ ["inventory.json"]) disk'
        = inr (RegularFile (utf8 inventoryJson))
        \/ Tree.walk (Path.resolveSegments "./workspace/ansible" ++ ["inventory.json"]) disk'
           = inr Special).
Proof.
  intros Hrun. apply ansibleWorkspace_steps in Hrun as (walked & json & _ & Hgen & Hw).
  exists json. split; [exact Hgen|].
  apply writeFiles_success in Hw as (d & _ & Hl).
  rewrite <- (targetOf_inventoryFile "./workspace/ansible" json) by discriminate.
  now destruct (forOf_last_write _ _ _ _ _ _ Hl (lastWriter_last _ walked _)) as (_ & _ & Hc).
Qed.

(** X25: after a run of the workspace step of index.ts that returns a
    digest, every regular file of a tidy [./ansible], other than an
    [inventory.json] at its root, is in [./workspace/ansible] at the same
    place and with the same content (a special node that was at that place
    is still there). *)
Theorem ansibleWorkspace_copies (fuel : nat) (ctx : Context) (disk disk' : Inode)
    (digest : Buffer) (es : list (string * Inode))
    (ds : list string) (k : string) (content : Buffer) :
  ansibleWorkspace fuel ctx disk = Some (disk', inr digest) ->
  Tree.walk (Path.resolveSegments "./ansible") disk = inr (Directory es) ->
  tidy (Directory es) ->
  Tree.walk (ds ++ [k]) (Directory es) = inr (RegularFile content) ->
  ds ++ [k] <> ["inventory.json"] ->
  Tree.walk (Path.resolveSegments "./workspace/ansible" ++ ds ++ [k]) disk'
  = inr (RegularFile content)
  \/ Tree.walk (Path.resolveSegments "./workspace/ansible" ++ ds ++ [k]) disk' = inr Special.
Proof.
  intros Hrun Hsrc Htidy Hfile Hother.
  apply ansibleWorkspace_steps in Hrun as (walked & json & Hread & _ & Hw).
  apply (copies "./ansible" "./workspace/ansible" fuel disk disk' es walked
           [inventoryFile json] digest); try assumption.
  intros g [<-|[]]. rewrite targetOf_inventoryFile by discriminate.
  intros Heq. apply app_inv_head in Heq. congruence.
Qed.

Lemma lastWriter_first (workDir : string) (f g : File) :
  targetOf workDir g <> targetOf workDir f ->
  lastWriter workDir (targetOf workDir f) [f; g] = Some f.
Proof.
  intros Hne. simpl.
  destruct (List.list_eq_dec _ (targetOf workDir g) _); [contradiction|].
  destruct (List.list_eq_dec _ (targetOf workDir f) _); [reflexivity|contradiction].
Qed.

(** X26: after the step of index.ts that writes the keys has returned a
    digest, [id_rsa.pub] and [id_rsa] of [./workspace] hold the public and
    the private key (a special node that was at one of these places is
    still there). *)
Theorem keysWorkspace_files (publicKey privateKey : string) (disk disk' : Inode)
    (digest : Buffer) :
  keysWorkspace publicKey privateKey disk = (disk', Ok digest) ->
  (Tree.walk (Path.resolveSegments "./workspace" ++ ["id_rsa.pub"]) disk'
   = inr (RegularFile (utf8 publicKey))
   \/ Tree.walk (Path.resolveSegments "./workspace" ++ ["id_rsa.pub"]) disk' = inr Special)
  /\ (Tree.walk (Path.resolveSegments "./workspace" ++ ["id_rsa"]) disk'
      = inr (RegularFile (utf8 privateKey))
      \/ Tree.walk (Path.resolveSegments "./workspace" ++ ["id_rsa"]) disk' = inr Special).
Proof.
  unfold keysWorkspace, keyFiles. intros Hrun.
  apply writeFiles_success in Hrun as (d & _ & Hl).
  set (pub := {| name := "id_rsa.pub"; parentPath := "./"; path := "./id_rsa.pub";
                 data := VBuffer (utf8 publicKey);
                 options := Some {| mode := Some 420%Z; flag := None |} |}) in *.
  set (priv := {| name := "id_rsa"; parentPath := "./"; path := "./id_rsa";
                  data := VBuffer (utf8 privateKey);
                  options := Some {| mode := Some 384%Z; flag := None |} |}) in *.
  assert (Hpub : targetOf "./workspace" pub
                 = Path.resolveSegments "./workspace" ++ ["id_rsa.pub"])
    by now rewrite targetOf_tame.
  assert (Hpriv : targetOf "./workspace" priv
                  = Path.resolveSegments "./workspace" ++ ["id_rsa"])
    by now rewrite targetOf_tame.
  split.
  - assert (Hne : targetOf "./workspace" priv <> targetOf "./workspace" pub).
    { rewrite Hpub, Hpriv. intros Heq. apply app_inv_head in Heq. discriminate. }
    rewrite <- Hpub.
    now destruct (forOf_last_write _ _ _ _ _ _ Hl (lastWriter_first "./workspace" pub priv Hne))
      as (_ & _ & Hc).
  - rewrite <- Hpriv.
    now destruct (forOf_last_write _ _ _ _ _ _ Hl (lastWriter_last "./workspace" [pub] priv))
      as (_ & _ & Hc).
Qed.

End Workspace.


Lemma ansibleWorkspace_inventory_witness :
  exists disk' digest,
    ansibleWorkspace (H:=exampleHost) (H0:=exampleRuntime) 2 exampleContext ansibleDisk
    = Some (disk', inr digest)
    /\ exists inventoryJson,
         snd (createAnsibleInventory (H:=exampleRuntime)
                (VString "./ansible/inventory.js") (contextValue exampleContext))
         = inr (inventoryFile inventoryJson)
         /\ (Tree.walk (Path.resolveSegments (H:=exampleHost) "./workspace/ansible"
                          ++ ["inventory.json"]) disk'
             = inr (RegularFile (utf8 inventoryJson))
             \/ Tree.walk (Path.resolveSegments (H:=exampleHost) "./workspace/ansible"
                             ++ ["inventory.json"]) disk'
                = inr Special).
Proof.
  eexists. eexists. split; [vm_compute; reflexivity|].
  eapply (ansibleWorkspace_inventory (H:=exampleHost) (H0:=exampleRuntime)
            2 exampleContext ansibleDisk).
  vm_compute. reflexivity.
Defined.

Lemma ansibleWorkspace_copies_witness :
  exists disk' digest,
    ansibleWorkspace (H:=exampleHost) (H0:=exampleRuntime) 2 exampleContext ansibleDisk
    = Some (disk', inr digest)
    /\ (Tree.walk (Path.resolveSegments (H:=exampleHost) "./workspace/ansible"
                     ++ ["roles"] ++ ["main.yml"]) disk'
        = inr (RegularFile (utf8 "- debug:"))
        \/ Tree.walk (Path.resolveSegments (H:=exampleHost) "./workspace/ansible"
                        ++ ["roles"] ++ ["main.yml"]) disk'
           = inr Special).
Proof.
  eexists. eexists. split; [vm_compute; reflexivity|].
  eapply (ansibleWorkspace_copies (H:=exampleHost) (H0:=exampleRuntime)
            2 exampleContext ansibleDisk _ _ ansibleTree ["roles"] "main.yml"
            (utf8 "- debug:")).
  - vm_compute. reflexivity.
  - reflexivity.
  - simpl. repeat split; repeat constructor; simpl; intuition discriminate.
  - reflexivity.
  - discriminate.
Defined.

Lemma keysWorkspace_files_witness :
  exists disk' digest,
    keysWorkspace (H:=exampleHost) "ssh-rsa PUB" "PRIVATE" emptyDisk = (disk', Ok digest)
    /\ (Tree.walk (Path.resolveSegments (H:=exampleHost) "./workspace" ++ ["id_rsa.pub"]) disk'
        = inr (RegularFile (utf8 "ssh-rsa PUB"))
        \/ Tree.walk (Path.resolveSegments (H:=exampleHost) "./workspace" ++ ["id_rsa.pub"])
             disk' = inr Special)
    /\ (Tree.walk (Path.resolveSegments (H:=exampleHost) "./workspace" ++ ["id_rsa"]) disk'
        = inr (RegularFile (utf8 "PRIVATE"))
        \/ Tree.walk (Path.resolveSegments (H:=exampleHost) "./workspace" ++ ["id_rsa"])
             disk' = inr Special).
Proof.
  eexists. eexists. split; [vm_compute; reflexivity|].
  eapply (keysWorkspace_files (H:=exampleHost) "ssh-rsa PUB" "PRIVATE" emptyDisk).
  vm_compute. reflexivity.
Defined.

